(** * Feed service of mock-instagram: a shallow embedding and its properties

  The development models the feed service (feed-service/src/index.js, the
  ScyllaDB version), the two routes of the post service it calls, and the
  stores they work on:

  - the ScyllaDB tables [user_feeds], [user_followers], [user_following];
  - the Redis key space (follower sets and cached feed pages with a TTL);
  - the [posts] table of the post service.

  Handlers are state transformers.  A handler that throws is modelled by
  the outcome [Threw]; the writes it made before throwing stay in the
  state, as no handler rolls anything back.  Time is explicit: the clock
  is an argument, in milliseconds.  Store outages and concurrent handling
  are not modelled: every store call succeeds and handlers run one after
  the other.

  The file has the model first ([Model], the Redis version of the service
  in [Legacy], a concrete run in [Scenario]), then the properties
  ([Properties], [LegacyFacts]) and their instances on the run
  ([Instances]). *)

(** The model then goes on to the rest of the code: the refresh and
  statistics routes of the feed service and the auth middleware, the
  follow routes of the user service ([UserService]), the post service
  ([PostService]) and the other handlers and the read path of the Redis
  version ([LegacyMore]).  Their properties come after those of the
  first part ([MoreProperties], [AuthProperties], [UserFacts],
  [PostFacts], [LegacyMoreFacts]), with instances in [MoreInstances].
  The services that keep their data in PostgreSQL hand ids over as text;
  its uuid type is taken to parse and print as the driver's [Uuid]
  does. *)

From stdpp Require Import gmap strings pretty sorting.

(** ** The Uuid type of the cassandra driver

  [cassandra.types.Uuid] is a library type.  It is taken by its contract:
  [Uuid.fromString] throws (here [None]) or parses, printing and parsing
  again gives the value back, and only 36-character strings parse. *)

Class UuidLib := {
  Uuid : Type;
  Uuid_eq_dec :: EqDecision Uuid;
  Uuid_countable :: Countable Uuid;
  (* Uuid.fromString; None when it throws *)
  fromString : string → option Uuid;
  (* uuid.toString() *)
  toString : Uuid → string;
  fromString_toString : ∀ u, fromString (toString u) = Some u;
  fromString_length : ∀ s u, fromString s = Some u → String.length s = 36
}.

(** A concrete driver for running the model: a Uuid is a string in the
  canonical form 8-4-4-4-12 of lower-case hexadecimal digits. *)
Module CanonicalUuid.

Definition is_hex (c : Ascii.ascii) : bool :=
  let n := Ascii.nat_of_ascii c in
  ((48 <=? n) && (n <=? 57)) || ((97 <=? n) && (n <=? 102)).

Definition is_hyphen (c : Ascii.ascii) : bool :=
  Ascii.nat_of_ascii c =? 45.

Fixpoint shape_ok (i : nat) (s : string) : bool :=
  match s with
  | EmptyString => i =? 36
  | String c s' =>
      (if (i =? 8) || (i =? 13) || (i =? 18) || (i =? 23)
       then is_hyphen c else is_hex c) && shape_ok (S i) s'
  end.

Definition canonical (s : string) : Prop := Is_true (shape_ok 0 s).

Definition t : Type := { s : string | canonical s }.

Definition parse (s : string) : option t :=
  match decide (canonical s) with
  | left H => Some (s ↾ H)
  | right _ => None
  end.

Lemma shape_ok_length i s :
  Is_true (shape_ok i s) → i + String.length s = 36.
Proof.
  revert i. induction s as [|c s IH]; intros i H; simpl in *.
  - apply Is_true_true, Nat.eqb_eq in H. lia.
  - apply andb_prop_elim in H as [_ H]. apply IH in H. lia.
Qed.

Lemma parse_print (u : t) : parse (`u) = Some u.
Proof.
  destruct u as [s H]. unfold parse. simpl.
  destruct (decide (canonical s)) as [H'|[]]; [|done].
  f_equal. by apply (sig_eq_pi _).
Qed.

Lemma parse_length s u : parse s = Some u → String.length s = 36.
Proof.
  unfold parse. destruct (decide (canonical s)) as [H|]; [|done].
  intros _. by apply (shape_ok_length 0).
Qed.

#[export] Instance lib : UuidLib := {|
  Uuid := t;
  fromString := parse;
  toString := proj1_sig;
  fromString_toString := parse_print;
  fromString_length := parse_length
|}.

(** Identifiers used in the examples. *)
Definition mk (s : string) (H : canonical s) : t := s ↾ H.

End CanonicalUuid.

(** ** Data *)

Section Model.
Context `{L : UuidLib}.

(** A row of [user_feeds] without its partition key.  Timestamps are
  milliseconds since the epoch. *)
Record FeedRow := {
  created_at : Z;
  post_id : Uuid;
  author_id : Uuid
}.

(** A row of the post service's [posts] table, which is also the JSON
  object the post service answers with.  [id] and [user_id] are UUID
  columns; on the wire they are printed with [toString]. *)
Record Post := {
  id : Uuid;
  user_id : Uuid;
  caption : string;
  post_created_at : Z
}.

(** The body of [GET /api/feed]: [{posts, hasMore, offset}], the early
  [{posts: [], hasMore: false}] has no [offset]; or the 400 reply. *)
Inductive Response :=
  | Page (posts : list Post) (hasMore : bool) (offset : option nat)
  | InvalidUserId.

#[global] Instance FeedRow_eq_dec : EqDecision FeedRow.
Proof. solve_decision. Defined.

#[global] Instance Post_eq_dec : EqDecision Post.
Proof. solve_decision. Defined.

#[global] Instance Response_eq_dec : EqDecision Response.
Proof. solve_decision. Defined.

(** The stores of the feed service.  [user_feeds] has PRIMARY KEY (user_id,
  created_at) and CLUSTERING ORDER BY (created_at DESC): a partition per
  user, kept as the list of its rows in clustering order.  The Redis key
  space is split by the type of the value; the keys of the two kinds are
  built with different prefixes ("user:" and "feed_cache:"). *)
Record State := {
  user_feeds : gmap Uuid (list FeedRow);
  (* (user_id, follower_id) to created_at *)
  user_followers : gmap (Uuid * Uuid) Z;
  (* (user_id, following_id) to created_at *)
  user_following : gmap (Uuid * Uuid) Z;
  (* Redis keys that hold a set *)
  redis_sets : gmap string (gset string);
  (* Redis keys that hold a serialized page, with its expiry time in ms *)
  redis_strings : gmap string (Response * Z)
}.

#[global] Instance State_eq_dec : EqDecision State.
Proof. solve_decision. Defined.

(** The payload of an event after [JSON.parse]; a field that is missing
  or not a string is any string that [fromString] rejects. *)
Record Data := {
  postId : string;
  userId : string;
  createdAt : Z;
  followerId : string;
  followingId : string
}.

(** What [JSON.parse(msg.content.toString())] gives: it throws, or it gives
  [null], whose destructuring throws, or a value whose fields can be
  read. *)
Inductive Payload :=
  | Unparseable
  | JsonNull
  | JsonObject (data : Data).

(** A consumed message. *)
Record Msg := {
  routingKey : string;
  content : Payload
}.

Inductive Outcome := Returned | Threw.

(** What [handleEvent] tells the broker: [ack], or [nack] with requeue. *)
Inductive Settle := Ack | NackRequeue.

#[global] Instance Outcome_eq_dec : EqDecision Outcome.
Proof. solve_decision. Defined.

#[global] Instance Settle_eq_dec : EqDecision Settle.
Proof. solve_decision. Defined.

(** ** ScyllaDB statements *)

(** INSERT INTO user_feeds: an upsert on the clustering key. *)
Fixpoint upsert (r : FeedRow) (l : list FeedRow) : list FeedRow :=
  match l with
  | [] => [r]
  | x :: l' =>
      if decide (created_at x < created_at r)%Z then r :: x :: l'
      else if decide (created_at x = created_at r) then r :: l'
      else x :: upsert r l'
  end.

(** Rows in clustering order: strictly newest first. *)
Definition clustered (l : list FeedRow) : Prop :=
  StronglySorted (λ x y, (created_at y < created_at x)%Z) l.

Definition partition (st : State) (u : Uuid) : list FeedRow :=
  default [] (user_feeds st !! u).

Definition insert_feed (u : Uuid) (r : FeedRow) (st : State) : State :=
  {| user_feeds := <[u := upsert r (partition st u)]> (user_feeds st);
     user_followers := user_followers st;
     user_following := user_following st;
     redis_sets := redis_sets st;
     redis_strings := redis_strings st |}.

(** SELECT ... FROM user_feeds WHERE user_id = ? LIMIT ? *)
Definition select_feed (st : State) (u : Uuid) (n : nat) : list FeedRow :=
  take n (partition st u).

(** SELECT follower_id FROM user_followers WHERE user_id = ? *)
Definition select_followers (st : State) (u : Uuid) : gset Uuid :=
  set_omap (λ k : Uuid * Uuid, if decide (k.1 = u) then Some k.2 else None)
           (dom (user_followers st)).

(** SELECT following_id FROM user_following WHERE user_id = ? *)
Definition select_following (st : State) (u : Uuid) : gset Uuid :=
  set_omap (λ k : Uuid * Uuid, if decide (k.1 = u) then Some k.2 else None)
           (dom (user_following st)).

Definition insert_follower (u f : Uuid) (now : Z) (st : State) : State :=
  {| user_feeds := user_feeds st;
     user_followers := <[(u, f) := now]> (user_followers st);
     user_following := user_following st;
     redis_sets := redis_sets st;
     redis_strings := redis_strings st |}.

Definition insert_following (u f : Uuid) (now : Z) (st : State) : State :=
  {| user_feeds := user_feeds st;
     user_followers := user_followers st;
     user_following := <[(u, f) := now]> (user_following st);
     redis_sets := redis_sets st;
     redis_strings := redis_strings st |}.

Definition delete_follower (u f : Uuid) (st : State) : State :=
  {| user_feeds := user_feeds st;
     user_followers := delete (u, f) (user_followers st);
     user_following := user_following st;
     redis_sets := redis_sets st;
     redis_strings := redis_strings st |}.

Definition delete_following (u f : Uuid) (st : State) : State :=
  {| user_feeds := user_feeds st;
     user_followers := user_followers st;
     user_following := delete (u, f) (user_following st);
     redis_sets := redis_sets st;
     redis_strings := redis_strings st |}.

(** ** Redis commands *)

Definition sMembers (st : State) (k : string) : gset string :=
  default ∅ (redis_sets st !! k).

Definition sAdd (k v : string) (st : State) : State :=
  {| user_feeds := user_feeds st;
     user_followers := user_followers st;
     user_following := user_following st;
     redis_sets := <[k := {[v]} ∪ sMembers st k]> (redis_sets st);
     redis_strings := redis_strings st |}.

(** SREM; Redis drops a key whose set becomes empty. *)
Definition sRem (k v : string) (st : State) : State :=
  let rest := sMembers st k ∖ {[v]} in
  {| user_feeds := user_feeds st;
     user_followers := user_followers st;
     user_following := user_following st;
     redis_sets := if decide (rest = ∅) then delete k (redis_sets st)
                   else <[k := rest]> (redis_sets st);
     redis_strings := redis_strings st |}.

(** DEL removes the key whatever it holds. *)
Definition del (k : string) (st : State) : State :=
  {| user_feeds := user_feeds st;
     user_followers := user_followers st;
     user_following := user_following st;
     redis_sets := delete k (redis_sets st);
     redis_strings := delete k (redis_strings st) |}.

(** GET at time [now]: a key past its expiry is gone. *)
Definition get (st : State) (now : Z) (k : string) : option Response :=
  match redis_strings st !! k with
  | Some (v, expiry) => if decide (now < expiry)%Z then Some v else None
  | None => None
  end.

(** SETEX key seconds value, issued at time [now]. *)
Definition setEx (k : string) (seconds : Z) (v : Response) (now : Z)
    (st : State) : State :=
  {| user_feeds := user_feeds st;
     user_followers := user_followers st;
     user_following := user_following st;
     redis_sets := delete k (redis_sets st);
     redis_strings := <[k := (v, (now + 1000 * seconds)%Z)]> (redis_strings st) |}.

(** ** The post service (post-service/src/index.js) *)

(** GET /api/posts/:postId: the row with that id, or 404.  Its five-minute
  cache of the row is dropped by the delete route together with the row
  and is left out. *)
Definition getPost (posts : list Post) (postId : string) : option Post :=
  match fromString postId with
  | Some u => List.find (λ p, bool_decide (id p = u)) posts
  | None => None
  end.

Definition newer_first (p q : Post) : Prop :=
  (post_created_at q ≤ post_created_at p)%Z.

#[global] Instance newer_first_dec p q : Decision (newer_first p q).
Proof. unfold newer_first. apply _. Defined.

(** GET /api/posts/user/:userId?limit=N without a cursor:
  SELECT * FROM posts WHERE user_id = $1 ORDER BY created_at DESC LIMIT N *)
Definition recentPosts (posts : list Post) (u : Uuid) (limit : nat)
    : list Post :=
  take limit (merge_sort newer_first (filter (λ p, user_id p = u) posts)).

Definition getUserPosts (posts : list Post) (userId : string) (limit : nat)
    : option (list Post) :=
  match fromString userId with
  | Some u => Some (recentPosts posts u limit)
  | None => None
  end.

(** ** The feed service: event handlers *)

Definition followersKey (userId : string) : string :=
  "user:" +:+ userId +:+ ":followers".

Definition followingKey (userId : string) : string :=
  "user:" +:+ userId +:+ ":following".

(** The key the handlers delete: [feed_cache:${followerId}]. *)
Definition feedCacheKey (followerId : string) : string :=
  "feed_cache:" +:+ followerId.

(** The key the reader uses: [feed_cache:${userId}:${offset}:${limit}]. *)
Definition cacheKey (userId : string) (offset limit : nat) : string :=
  "feed_cache:" +:+ userId +:+ ":" +:+ pretty offset +:+ ":" +:+ pretty limit.

(** The set [allFollowers]: the followers read from ScyllaDB, printed, the
  members of the Redis set kept as a backup, and the author. *)
Definition allFollowers (st : State) (userId : string) (authorUuid : Uuid)
    : gset string :=
  set_map toString (select_followers st authorUuid)
  ∪ sMembers st (followersKey userId)
  ∪ {[ userId ]}.

(** One element of [insertPromises]: an id that does not parse is logged
  and skipped. *)
Definition insertFor (row : FeedRow) (followerId : string) (st : State)
    : State :=
  match fromString followerId with
  | Some followerUuid => insert_feed followerUuid row st
  | None => st
  end.

Definition handlePostCreated (st : State) (data : Data) : State * Outcome :=
  match fromString (postId data) with
  | None => (st, Threw)
  | Some postUuid =>
      match fromString (userId data) with
      | None => (st, Threw)
      | Some authorUuid =>
          let targets := allFollowers st (userId data) authorUuid in
          let row := {| created_at := createdAt data;
                        post_id := postUuid;
                        author_id := authorUuid |} in
          let st1 := set_fold (insertFor row) st targets in
          let st2 :=
            set_fold (λ followerId, del (feedCacheKey followerId)) st1 targets in
          (st2, Returned)
      end
  end.

(** The handler parses both ids and reads the followers; it writes
  nothing. *)
Definition handlePostDeleted (st : State) (data : Data) : State * Outcome :=
  match fromString (postId data) with
  | None => (st, Threw)
  | Some _ =>
      match fromString (userId data) with
      | None => (st, Threw)
      | Some authorUuid =>
          let _ := select_followers st authorUuid in (st, Returned)
      end
  end.

(** The loop over the followee's posts; [false] when an id of a post does
  not parse, which leaves the loop and the rest of the try block. *)
Fixpoint backfill (followerUuid followingUuid : Uuid) (posts : list Post)
    (st : State) : State * bool :=
  match posts with
  | [] => (st, true)
  | post :: rest =>
      match fromString (toString (id post)) with
      | Some postUuid =>
          backfill followerUuid followingUuid rest
            (insert_feed followerUuid
               {| created_at := post_created_at post;
                  post_id := postUuid;
                  author_id := followingUuid |} st)
      | None => (st, false)
      end
  end.

(** [db] is the posts table at the time of the call, [now] the clock. *)
Definition handleUserFollowed (db : list Post) (now : Z) (st : State)
    (data : Data) : State * Outcome :=
  match fromString (followerId data), fromString (followingId data) with
  | Some followerUuid, Some followingUuid =>
      let st := insert_follower followingUuid followerUuid now st in
      let st := insert_following followerUuid followingUuid now st in
      let st := sAdd (followingKey (followerId data)) (followingId data) st in
      let st := sAdd (followersKey (followingId data)) (followerId data) st in
      match getUserPosts db (followingId data) 20 with
      | Some posts =>
          match backfill followerUuid followingUuid posts st with
          | (st, true) => (del (feedCacheKey (followerId data)) st, Returned)
          | (st, false) => (st, Returned)
          end
      | None => (st, Returned)
      end
  | _, _ => (st, Returned)
  end.

Definition handleUserUnfollowed (st : State) (data : Data) : State * Outcome :=
  match fromString (followerId data), fromString (followingId data) with
  | Some followerUuid, Some followingUuid =>
      let st := delete_follower followingUuid followerUuid st in
      let st := delete_following followerUuid followingUuid st in
      let st := sRem (followingKey (followerId data)) (followingId data) st in
      let st := sRem (followersKey (followingId data)) (followerId data) st in
      (del (feedCacheKey (followerId data)) st, Returned)
  | _, _ => (st, Returned)
  end.

Definition dispatch (db : list Post) (now : Z) (st : State)
    (key : string) (data : Data) : State * Outcome :=
  if decide (key = "post.created") then handlePostCreated st data
  else if decide (key = "post.deleted") then handlePostDeleted st data
  else if decide (key = "user.followed") then handleUserFollowed db now st data
  else if decide (key = "user.unfollowed") then handleUserUnfollowed st data
  else (st, Returned).

(** The routing keys with a case in the switch. *)
Definition handled (key : string) : Prop :=
  key = "post.created" ∨ key = "post.deleted" ∨
  key = "user.followed" ∨ key = "user.unfollowed".

#[global] Instance handled_dec key : Decision (handled key).
Proof. unfold handled. apply _. Defined.

(** One try block around the parse and the handler; the catch nacks.  Each
  handler starts by destructuring [data], which throws on [null]. *)
Definition handleEvent (db : list Post) (now : Z) (st : State) (msg : Msg)
    : State * Settle :=
  match content msg with
  | Unparseable => (st, NackRequeue)
  | JsonNull =>
      if decide (handled (routingKey msg)) then (st, NackRequeue)
      else (st, Ack)
  | JsonObject data =>
      match dispatch db now st (routingKey msg) data with
      | (st', Returned) => (st', Ack)
      | (st', Threw) => (st', NackRequeue)
      end
  end.

(** A run of the consumer: each message comes with the posts table and the
  clock at the time it is handled. *)
Fixpoint process (st : State) (events : list (list Post * Z * Msg)) : State :=
  match events with
  | [] => st
  | (db, now, msg) :: rest => process (handleEvent db now st msg).1 rest
  end.

(** Handling a run of post.created events, one after the other. *)
Definition publishAll (st : State) (events : list Data) : State :=
  foldl (λ s data, (handlePostCreated s data).1) st events.

(** ** The feed service: the read path *)

Definition CACHE_TTL : Z := 120.

(** The loop that fetches each post; a failed request is skipped. *)
Definition hydrate (db : list Post) (feedItems : list FeedRow) : list Post :=
  omap (λ item, getPost db (toString (post_id item))) feedItems.

(** GET /api/feed for the authenticated [userId], with [offset] and [limit]
  already parsed to non-negative integers. *)
Definition getPage (db : list Post) (now : Z) (st : State) (userId : string)
    (offset limit : nat) : State * Response :=
  match get st now (cacheKey userId offset limit) with
  | Some cached => (st, cached)
  | None =>
      match fromString userId with
      | None => (st, InvalidUserId)
      | Some userUuid =>
          let rows := select_feed st userUuid (limit + offset + 1) in
          let feedItems := take limit (drop offset rows) in
          if decide (length feedItems = 0) then (st, Page [] false None)
          else
            let posts := hydrate db feedItems in
            let hasMore := bool_decide (offset + limit < length rows) in
            let responseData :=
              Page posts hasMore (Some (offset + length posts)) in
            (setEx (cacheKey userId offset limit) CACHE_TTL responseData now st,
             responseData)
      end
  end.

(** ** Vocabulary of the statements *)

(** [f] is recorded as a follower of the author of an event whose [userId]
  field is [userId] and parses to [authorUuid]: by a row of
  [user_followers], or by a member of the Redis set
  [user:${userId}:followers] that parses to [f]. *)
Definition follower_of (st : State) (userId : string) (authorUuid f : Uuid)
    : Prop :=
  is_Some (user_followers st !! (authorUuid, f)) ∨
  ∃ s, s ∈ sMembers st (followersKey userId) ∧ fromString s = Some f.

(** The event [data] parses and [owner] is its author or a follower of its
  author: the event is fanned out to [owner]. *)
Definition fans_out_to (st : State) (data : Data) (owner : Uuid) : Prop :=
  ∃ postUuid authorUuid,
    fromString (postId data) = Some postUuid ∧
    fromString (userId data) = Some authorUuid ∧
    (follower_of st (userId data) authorUuid owner ∨ owner = authorUuid).

(** The users an event is fanned out to: the ids of [allFollowers] that
  parse. *)
Definition fanOutTargets (st : State) (userId : string) (authorUuid : Uuid)
    : gset Uuid :=
  set_omap fromString (allFollowers st userId authorUuid).

Definition posts_of (r : Response) : list Post :=
  match r with Page posts _ _ => posts | InvalidUserId => [] end.

Definition hasMore_of (r : Response) : bool :=
  match r with Page _ hasMore _ => hasMore | InvalidUserId => false end.

(** The answer for a page as the specification words it, for every offset
  and limit: the slice of the fetched rows, hydrated, and [hasMore] set to
  whether more than offset + limit rows were fetched. *)
Definition page_as_specified (db : list Post) (st : State) (userUuid : Uuid)
    (offset limit : nat) (r : Response) : Prop :=
  let fetched := select_feed st userUuid (offset + limit + 1) in
  posts_of r = hydrate db (take limit (drop offset fetched)) ∧
  hasMore_of r = bool_decide (offset + limit < length fetched).

Definition strictly_newer_first (p q : Post) : Prop :=
  (post_created_at q < post_created_at p)%Z.

(** The feed row the backfill writes for a post of the followee. *)
Definition rowOf (followingUuid : Uuid) (p : Post) : FeedRow :=
  {| created_at := post_created_at p;
     post_id := id p;
     author_id := followingUuid |}.

(** The first page of the follower after a follow as the specification
  words it: the posts of the backfill, the 20 most recent of the
  followee. *)
Definition backfill_page_as_specified (db : list Post) (followingUuid : Uuid)
    (r : Response) : Prop :=
  posts_of r = recentPosts db followingUuid 20.

(** Every member of every Redis set is an id that parses. *)
Definition redis_members_valid (st : State) : Prop :=
  ∀ k (S : gset string) s,
    redis_sets st !! k = Some S → s ∈ S → is_Some (fromString s).

End Model.

(** * The Redis version of the feed service

  The feed service as it was before ScyllaDB (the second index.js of the
  feed service in the repository): a feed is the Redis sorted set
  [feed:${userId}], its members the serialized feed items, scored by the
  timestamp of the post. *)

Module Legacy.
Section Legacy.

(** [JSON.stringify({ postId, userId, createdAt })]. *)
Variable stringify : string → string → Z → string.

(** A sorted set, as the list of its (score, member) pairs by rank: by
  score, members of equal score in the order of their bytes. *)
Record State := {
  sets : gmap string (gset string);
  zsets : gmap string (list (Z * string))
}.

Definition feedKey (userId : string) : string := "feed:" +:+ userId.

Definition sMembers (st : State) (k : string) : gset string :=
  default ∅ (sets st !! k).

(** ZRANGE key 0 -1 *)
Definition zRange (st : State) (k : string) : list (Z * string) :=
  default [] (zsets st !! k).

Definition setZset (k : string) (l : list (Z * string)) (st : State) : State :=
  {| sets := sets st;
     zsets := if decide (l = []) then delete k (zsets st)
              else <[k := l]> (zsets st) |}.

Definition ranks_before (e x : Z * string) : Prop :=
  (e.1 < x.1)%Z ∨ (e.1 = x.1 ∧ String.ltb e.2 x.2 = true).

#[global] Instance ranks_before_dec e x : Decision (ranks_before e x).
Proof. unfold ranks_before. apply _. Defined.

Fixpoint zinsert (e : Z * string) (l : list (Z * string))
    : list (Z * string) :=
  match l with
  | [] => [e]
  | x :: l' =>
      if decide (ranks_before e x) then e :: x :: l' else x :: zinsert e l'
  end.

(** ZADD key score member: a member already in the set gets the new
  score. *)
Definition zAdd (k : string) (score : Z) (member : string) (st : State)
    : State :=
  setZset k
    (zinsert (score, member) (filter (λ x, x.2 ≠ member) (zRange st k))) st.

(** ZREMRANGEBYRANK key start stop; negative indexes count from the end. *)
Definition zRemRangeByRank (k : string) (start stop : Z) (st : State)
    : State :=
  let l := zRange st k in
  let llen := Z.of_nat (length l) in
  let start := if decide (start < 0)%Z then (llen + start)%Z else start in
  let stop := if decide (stop < 0)%Z then (llen + stop)%Z else stop in
  let start := if decide (start < 0)%Z then 0%Z else start in
  if decide ((stop < start)%Z ∨ (llen ≤ start)%Z) then st
  else
    let stop := if decide (llen ≤ stop)%Z then (llen - 1)%Z else stop in
    setZset k (take (Z.to_nat start) l ++ drop (Z.to_nat stop + 1) l) st.

(** The body of the loop: add the item, keep only the last 1000. *)
Definition addToFeed (timestamp : Z) (feedItem : string) (followerId : string)
    (st : State) : State :=
  zRemRangeByRank (feedKey followerId) 0 (-1001)
    (zAdd (feedKey followerId) timestamp feedItem st).

Definition handlePostCreated (st : State) (data : Data) : State :=
  let followers := sMembers st (followersKey (userId data)) in
  let followers :=
    if decide (followers = ∅) then {[ userId data ]} else followers in
  let timestamp := createdAt data in
  let feedItem := stringify (postId data) (userId data) (createdAt data) in
  let st := set_fold (addToFeed timestamp feedItem) st followers in
  addToFeed timestamp feedItem (userId data) st.

(** The feeds the handler writes to. *)
Definition targets (st : State) (data : Data) : gset string :=
  (if decide (sMembers st (followersKey (userId data)) = ∅)
   then {[ userId data ]} else sMembers st (followersKey (userId data)))
  ∪ {[ userId data ]}.

Definition by_score (l : list (Z * string)) : Prop :=
  StronglySorted (λ x y, (x.1 ≤ y.1)%Z) l.

End Legacy.
End Legacy.

(** * A run of the service

  Alice has the followers Bob and (later) nobody else; ids are canonical
  Uuid strings.  The run is used to evaluate the model and to instantiate
  the theorems above. *)

Module Scenario.
Import CanonicalUuid.

Definition alice : string := "00000000-0000-0000-0000-00000000000a".
Definition bob : string := "00000000-0000-0000-0000-00000000000b".
Definition carol : string := "00000000-0000-0000-0000-00000000000c".
Definition post1 : string := "00000000-0000-0000-0000-0000000000f1".
Definition post2 : string := "00000000-0000-0000-0000-0000000000f2".

Definition uAlice : Uuid := mk alice I.
Definition uBob : Uuid := mk bob I.
Definition uCarol : Uuid := mk carol I.
Definition uPost1 : Uuid := mk post1 I.
Definition uPost2 : Uuid := mk post2 I.

Definition P1 : Post :=
  {| id := uPost1; user_id := uAlice; caption := "first";
     post_created_at := 100 |}.
Definition P2 : Post :=
  {| id := uPost2; user_id := uAlice; caption := "second";
     post_created_at := 200 |}.

Definition init : State :=
  {| user_feeds := ∅; user_followers := ∅; user_following := ∅;
     redis_sets := ∅; redis_strings := ∅ |}.

Definition follows (follower followee : string) : Data :=
  {| postId := ""; userId := ""; createdAt := 0;
     followerId := follower; followingId := followee |}.

Definition published (post author : string) (t : Z) : Data :=
  {| postId := post; userId := author; createdAt := t;
     followerId := ""; followingId := "" |}.

Definition event (key : string) (data : Data) : Msg :=
  {| routingKey := key; content := JsonObject data |}.

(** Bob follows Alice, who has no post yet. *)
Definition st_followed : State :=
  process init [([], 1%Z, event "user.followed" (follows bob alice))].

(** Alice publishes P1 at t = 100. *)
Definition st_published : State :=
  process st_followed [([P1], 2%Z, event "post.created" (published post1 alice 100))].

(** Alice publishes P2 at t = 200. *)
Definition publishes_P2 : list (list Post * Z * Msg) :=
  [([P1; P2], 4%Z, event "post.created" (published post2 alice 200))].

Definition row1 : FeedRow :=
  {| created_at := 100; post_id := uPost1; author_id := uAlice |}.
Definition row2 : FeedRow :=
  {| created_at := 200; post_id := uPost2; author_id := uAlice |}.

(** Twenty posts of Alice, at t = 1001 .. 1020. *)
Definition two_digits (n : nat) : string :=
  pretty (n / 10) +:+ pretty (n mod 10).

Definition postUuid (n : nat) : Uuid :=
  default uPost1
    (fromString ("00000000-0000-0000-0000-0000000001" +:+ two_digits n)).

Definition alicePost (n : nat) : Post :=
  {| id := postUuid n; user_id := uAlice; caption := "post " +:+ pretty n;
     post_created_at := 1000 + Z.of_nat n |}.

Definition db20 : list Post := alicePost <$> seq 1 20.

(** A post of Bob, newer than all of them. *)
Definition postB : string := "00000000-0000-0000-0000-0000000000fb".
Definition PB : Post :=
  {| id := mk postB I; user_id := uBob; caption := "mine";
     post_created_at := 5000 |}.

Definition st_bob_posted : State :=
  process init
    [([PB], 1%Z, event "post.created" (published postB bob 5000))].

(** Alice publishes [n] posts with ids of their own, at t = 1 .. n. *)
Definition four_digits (n : nat) : string :=
  pretty (n / 1000 mod 10) +:+ pretty (n / 100 mod 10) +:+
  pretty (n / 10 mod 10) +:+ pretty (n mod 10).

Definition burstPost (i : nat) : string :=
  "00000000-0000-0000-0000-00000002" +:+ four_digits i.

Definition burst (n : nat) : list Data :=
  (λ i, published (burstPost i) alice (Z.of_nat i)) <$> seq 1 n.

(** Twenty posts of Alice of which the two oldest have one timestamp. *)
Definition db20_tie : list Post :=
  (λ n, {| id := postUuid n; user_id := uAlice; caption := "post " +:+ pretty n;
           post_created_at := 1000 + Z.of_nat (n `max` 2) |}) <$> seq 1 20.

(** An old post of Bob, in his own feed. *)
Definition postOld : string := "00000000-0000-0000-0000-0000000000fc".
Definition POld : Post :=
  {| id := mk postOld I; user_id := uBob; caption := "old";
     post_created_at := 1 |}.

Definition st_bob_old : State :=
  process init
    [([POld], 1%Z, event "post.created" (published postOld bob 1))].

(** A state in which a member of Alice's Redis follower set is not an id. *)
Definition st_odd_member : State :=
  sAdd (followersKey alice) (bob +:+ ":0:10") st_published.

End Scenario.

(** * More of the feed service: the other routes *)

(** ** Redis KEYS patterns

  [KEYS pattern] matches key names in the glob style of Redis, whose
  special characters are the star, the question mark, the opening bracket
  and the backslash.  The matcher is Redis's own; it is taken by what it
  does on the patterns the service builds, a prefix without special
  characters followed by a star: those match the keys that start with the
  prefix. *)

Definition glob_special (c : Ascii.ascii) : bool :=
  let n := Ascii.nat_of_ascii c in
  (n =? 42) || (n =? 63) || (n =? 91) || (n =? 92).

Fixpoint glob_literal (p : string) : bool :=
  match p with
  | EmptyString => true
  | String c p' => negb (glob_special c) && glob_literal p'
  end.

Class RedisGlob := {
  stringmatch : string → string → bool;
  stringmatch_prefix : ∀ p k,
    glob_literal p = true →
    stringmatch (p +:+ "*") k = true ↔ ∃ rest, k = p +:+ rest
}.

(** A matcher for running the model: star, question mark and ordinary
  characters; classes and escapes are not implemented. *)
Module SimpleGlob.

Fixpoint star (m : string → bool) (s : string) : bool :=
  m s || match s with
         | EmptyString => false
         | String _ s' => star m s'
         end.

Fixpoint glob (p : string) : string → bool :=
  match p with
  | EmptyString => λ s, bool_decide (s = EmptyString)
  | String c p' =>
      if Ascii.nat_of_ascii c =? 42 then star (glob p')
      else if Ascii.nat_of_ascii c =? 63 then
        λ s, match s with
             | EmptyString => false
             | String _ s' => glob p' s'
             end
      else
        λ s, match s with
             | EmptyString => false
             | String d s' => bool_decide (c = d) && glob p' s'
             end
  end.

Lemma star_end s : star (λ s, bool_decide (s = EmptyString)) s = true.
Proof.
  induction s as [|c s IH]; simpl; [done|].
  exact IH.
Qed.

Lemma glob_prefix p k :
  glob_literal p = true →
  glob (p +:+ "*") k = true ↔ ∃ rest, k = p +:+ rest.
Proof.
  revert k. induction p as [|c p IH]; intros k Hlit.
  - simpl. rewrite star_end. split; [by exists k|done].
  - simpl in Hlit. apply andb_true_iff in Hlit as [Hc Hlit].
    apply negb_true_iff in Hc. unfold glob_special in Hc.
    apply orb_false_iff in Hc as [Hc _].
    apply orb_false_iff in Hc as [Hc _].
    apply orb_false_iff in Hc as [H42 H63].
    change (String c p +:+ "*") with (String c (p +:+ "*")).
    change (String c p +:+ ?r) with (String c (p +:+ r)).
    cbn [glob]. rewrite H42, H63.
    destruct k as [|d k]; [split; [done|by intros [? ?]]|].
    rewrite andb_true_iff, bool_decide_eq_true, (IH k Hlit). split.
    + intros [-> [rest ->]]. by exists rest.
    + intros [rest [= -> ->]]. eauto.
Qed.

#[export] Instance redis : RedisGlob := {|
  stringmatch := glob;
  stringmatch_prefix := glob_prefix
|}.

End SimpleGlob.

Section Routes.
Context `{L : UuidLib} `{G : RedisGlob}.

(** ** POST /api/feed/refresh *)

(** The names KEYS can return at time [now]: the keys that hold a set, and
  the keys that hold a string that has not expired. *)
Definition liveKeys (st : State) (now : Z) : gset string :=
  dom (redis_sets st)
  ∪ dom (filter (λ kv : string * (Response * Z), (now < kv.2.2)%Z)
           (redis_strings st)).

Definition keys (st : State) (now : Z) (pattern : string) : gset string :=
  filter (λ k, stringmatch pattern k = true) (liveKeys st now).

(** The pattern of the route: [feed_cache:${userId}:*]. *)
Definition refreshPattern (userId : string) : string :=
  "feed_cache:" +:+ userId +:+ ":*".

(** The route deletes every key the pattern matches; with no match it
  deletes nothing. *)
Definition refreshFeed (st : State) (now : Z) (userId : string) : State :=
  set_fold del st (keys st now (refreshPattern userId)).

(** ** GET /api/feed/stats *)

Record Stats := {
  feedSize : nat;
  followingCount : nat;
  followersCount : nat
}.

(** [None] is the 400 reply for an id that does not parse. *)
Definition getStats (st : State) (userId : string) : option Stats :=
  match fromString userId with
  | None => None
  | Some userUuid =>
      Some {| feedSize := length (partition st userUuid);
              followingCount := size (select_following st userUuid);
              followersCount := size (select_followers st userUuid) |}
  end.

(** Every partition is in clustering order. *)
Definition all_clustered (st : State) : Prop :=
  ∀ u, clustered (partition st u).

End Routes.

(** ** The auth middleware

  The same function guards the routes of the feed, post, media and user
  services.  [jwt.verify] is the library's; [None] is its exception. *)

Section Auth.
Variable Claims : Type.
Variable verify : string → option Claims.

Definition space : Ascii.ascii := Ascii.ascii_of_nat 32.

(** [s.split(sep)] for a separator of one character. *)
Fixpoint split (sep : Ascii.ascii) (s : string) : list string :=
  match s with
  | EmptyString => [EmptyString]
  | String c s' =>
      if decide (c = sep) then EmptyString :: split sep s'
      else
        match split sep s' with
        | first :: others => String c first :: others
        | [] => [String c EmptyString]
        end
  end.

(** [s] does not contain the character [sep]. *)
Fixpoint no_sep (sep : Ascii.ascii) (s : string) : bool :=
  match s with
  | EmptyString => true
  | String c s' => negb (bool_decide (c = sep)) && no_sep sep s'
  end.

Inductive AuthResult :=
  | NoTokenProvided
  | InvalidToken
  | Next (decoded : Claims).

(** [authorization] is the header of the request, if it has one. *)
Definition authMiddleware (authorization : option string) : AuthResult :=
  match authorization with
  | None => NoTokenProvided
  | Some header =>
      match split space header !! 1 with
      | None => NoTokenProvided
      | Some token =>
          if decide (token = EmptyString) then NoTokenProvided
          else
            match verify token with
            | Some decoded => Next decoded
            | None => InvalidToken
            end
      end
  end.

End Auth.

(** * The user service: the follow routes

  The routes [POST] and [DELETE /api/users/:username/follow] of the user
  service, which publish the user.followed and user.unfollowed events
  the feed service consumes, and [GET /api/users/:username].  The
  statements of a route run one after the other without a transaction:
  when one throws, what the earlier ones wrote stays, and the route
  answers 500.  The server listens only once the channel to the broker
  is open, so [publishEvent] always publishes. *)

Module UserService.
Section UserService.
Context `{L : UuidLib}.

(** A row of [users]; the columns the follow routes do not touch are left
  out.  The two counts are INTEGER columns. *)
Record User := {
  id : Uuid;
  username : string;
  followers_count : Z;
  following_count : Z
}.

(** A row of [follows]: PRIMARY KEY id, UNIQUE (follower_id,
  following_id), both referencing users(id). *)
Record Follow := {
  follow_id : Uuid;
  follower_id : Uuid;
  following_id : Uuid
}.

Record State := {
  users : list User;
  follows : list Follow;
  (* the keys [user:${id}] and the serialized profiles they hold; the
     follow routes only delete such keys *)
  redis : gmap string string;
  (* the messages published to the exchange, oldest first *)
  published : list Msg
}.

Inductive Reply :=
  | Followed                (* 200 Followed successfully *)
  | Unfollowed              (* 200 Unfollowed successfully *)
  | UserNotFound            (* 404 *)
  | CannotFollowYourself    (* 400 *)
  | InternalServerError.    (* 500, from the catch *)

#[global] Instance User_eq_dec : EqDecision User.
Proof. solve_decision. Defined.

#[global] Instance Follow_eq_dec : EqDecision Follow.
Proof. solve_decision. Defined.

#[global] Instance Reply_eq_dec : EqDecision Reply.
Proof. solve_decision. Defined.

(** The range of an INTEGER column; arithmetic that leaves it raises
  "integer out of range". *)
Definition INT_MAX : Z := 2147483647.
Definition INT_MIN : Z := -2147483648.

(** SELECT id FROM users WHERE username = $1, first row. *)
Definition selectByUsername (st : State) (name : string) : option User :=
  List.find (λ x, bool_decide (username x = name)) (users st).

(** INSERT INTO follows ... ON CONFLICT DO NOTHING: a row with the same id
  or the same pair is a conflict and nothing is inserted; [None] is the
  foreign key violation for a follower that is not a user. *)
Definition insertFollow (fid follower following : Uuid) (st : State)
    : option State :=
  if decide (Exists (λ f, follow_id f = fid ∨
                          (follower_id f = follower ∧
                           following_id f = following)) (follows st))
  then Some st
  else if decide (follower ∈ id <$> users st) then
    Some {| users := users st;
            follows := {| follow_id := fid; follower_id := follower;
                          following_id := following |} :: follows st;
            redis := redis st;
            published := published st |}
  else None.

(** UPDATE users SET c = e(c) WHERE id = $1, for an expression that can
  leave the range of the column. *)
Definition updateUser (f : User → option User) (u : Uuid) (st : State)
    : option State :=
  users' ← mapM (λ x, if decide (id x = u) then f x else Some x) (users st);
  Some {| users := users'; follows := follows st;
          redis := redis st; published := published st |}.

Definition in_range (c : Z) : Prop := (INT_MIN ≤ c ≤ INT_MAX)%Z.

#[global] Instance in_range_dec c : Decision (in_range c).
Proof. unfold in_range. apply _. Defined.

Definition withFollowing (c : Z) (x : User) : User :=
  {| id := id x; username := username x;
     followers_count := followers_count x; following_count := c |}.

Definition withFollowers (c : Z) (x : User) : User :=
  {| id := id x; username := username x;
     followers_count := c; following_count := following_count x |}.

(** [c + delta] for an INTEGER [c], which must stay in range, then
  GREATEST(_, floor) when a floor is given. *)
Definition adjust (delta : Z) (floor : option Z) (c : Z) : option Z :=
  let c' := (c + delta)%Z in
  if decide (in_range c') then Some (from_option (Z.max c') c' floor)
  else None.

Definition setFollowing (delta : Z) (floor : option Z) (x : User)
    : option User :=
  c ← adjust delta floor (following_count x); Some (withFollowing c x).

Definition setFollowers (delta : Z) (floor : option Z) (x : User)
    : option User :=
  c ← adjust delta floor (followers_count x); Some (withFollowers c x).

Definition publishEvent (routingKey : string) (data : Data) (st : State)
    : State :=
  {| users := users st; follows := follows st; redis := redis st;
     published := published st ++
       [{| routingKey := routingKey; content := JsonObject data |}] |}.

Definition del (k : string) (st : State) : State :=
  {| users := users st; follows := follows st;
     redis := delete k (redis st); published := published st |}.

Definition userKey (userId : string) : string := "user:" +:+ userId.

(** The payload [{ followerId, followingId }]. *)
Definition edgeData (follower following : string) : Data :=
  {| postId := ""; userId := ""; createdAt := 0;
     followerId := follower; followingId := following |}.

(** POST /api/users/:username/follow, for the [userId] of the token and
  the id [followId] that [uuidv4()] returns. *)
Definition follow (st : State) (userId : string) (name : string)
    (followId : Uuid) : State * Reply :=
  match selectByUsername st name with
  | None => (st, UserNotFound)
  | Some target =>
      let targetUserId := toString (id target) in
      if decide (targetUserId = userId) then (st, CannotFollowYourself)
      else
        match fromString userId with
        | None => (st, InternalServerError)
        | Some u =>
            match insertFollow followId u (id target) st with
            | None => (st, InternalServerError)
            | Some st1 =>
                match updateUser (setFollowing 1 None) u st1 with
                | None => (st1, InternalServerError)
                | Some st2 =>
                    match updateUser (setFollowers 1 None) (id target) st2 with
                    | None => (st2, InternalServerError)
                    | Some st3 =>
                        let st4 :=
                          publishEvent "user.followed"
                            (edgeData userId targetUserId) st3 in
                        let st5 := del (userKey userId) st4 in
                        let st6 := del (userKey targetUserId) st5 in
                        (st6, Followed)
                    end
                end
            end
        end
  end.

(** DELETE FROM follows WHERE follower_id = $1 AND following_id = $2 *)
Definition is_edge (follower following : Uuid) (f : Follow) : Prop :=
  follower_id f = follower ∧ following_id f = following.

#[global] Instance is_edge_dec a b f : Decision (is_edge a b f).
Proof. unfold is_edge. apply _. Defined.

Definition deleteFollow (follower following : Uuid) (st : State) : State :=
  {| users := users st;
     follows := filter (λ f, ¬ is_edge follower following f) (follows st);
     redis := redis st; published := published st |}.

(** DELETE /api/users/:username/follow *)
Definition unfollow (st : State) (userId : string) (name : string)
    : State * Reply :=
  match selectByUsername st name with
  | None => (st, UserNotFound)
  | Some target =>
      let targetUserId := toString (id target) in
      match fromString userId with
      | None => (st, InternalServerError)
      | Some u =>
          let deleted := filter (is_edge u (id target)) (follows st) in
          let st1 := deleteFollow u (id target) st in
          if decide (0 < length deleted) then
            match updateUser (setFollowing (-1) (Some 0%Z)) u st1 with
            | None => (st1, InternalServerError)
            | Some st2 =>
                match
                  updateUser (setFollowers (-1) (Some 0%Z)) (id target) st2
                with
                | None => (st2, InternalServerError)
                | Some st3 =>
                    let st4 :=
                      publishEvent "user.unfollowed"
                        (edgeData userId targetUserId) st3 in
                    let st5 := del (userKey userId) st4 in
                    let st6 := del (userKey targetUserId) st5 in
                    (st6, Unfollowed)
                end
            end
          else (st1, Unfollowed)
      end
  end.

(** GET /api/users/:username: the row, or 404. *)
Definition getUser (st : State) (name : string) : option User :=
  selectByUsername st name.

(** The pairs (follower, following) recorded in [follows]. *)
Definition edges (st : State) : list (Uuid * Uuid) :=
  (λ f, (follower_id f, following_id f)) <$> follows st.

End UserService.
End UserService.

(** * The post service

  The routes of post-service/src/index.js on its three tables, its cache
  of single posts and the events it publishes.  As in the user service
  the statements of a route run without a transaction and a statement
  that throws makes the route answer 500.  An id that reaches PostgreSQL
  as text is parsed there; text that is not a UUID makes the statement
  throw. *)

Module PostService.
Section PostService.
Context `{L : UuidLib}.

(** [String.prototype.trim], the language's. *)
Variable trim : string → string.

(** A row of [posts]: the columns of [Post] and the two counts, INTEGER
  columns.  [media_urls] and [location] are stored and returned as they
  came and are left out. *)
Record PostRow := {
  post : Post;
  likes_count : Z;
  comments_count : Z
}.

(** A row of [likes]: PRIMARY KEY id, UNIQUE (post_id, user_id). *)
Record Like := {
  like_id : Uuid;
  like_post : Uuid;
  like_user : Uuid
}.

Record Comment := {
  comment_id : Uuid;
  comment_post : Uuid;
  comment_user : Uuid;
  comment_content : string
}.

(** The payloads of [publishEvent], by routing key. *)
Inductive Event :=
  | PostCreated (postId userId : string) (createdAt : Z)
  | PostDeleted (postId userId : string)
  | PostLiked (postId userId : string)
  | PostUnliked (postId userId : string)
  | CommentCreated (commentId postId postOwnerId commenterId : string).

Record State := {
  posts : list PostRow;
  likes : list Like;
  comments : list Comment;
  (* the keys [post:${postId}]: the serialized row and its expiry in ms *)
  redis : gmap string (PostRow * Z);
  (* the events published, oldest first *)
  published : list Event
}.

Inductive Reply :=
  | Created (row : PostRow)                                (* 201 *)
  | Found (row : PostRow) (liked_by_user : option bool)    (* 200 *)
  | Done                                                   (* 200, a message *)
  | CommentAdded (c : Comment)                             (* 201 *)
  | BadRequest                                             (* 400 *)
  | NotFound                                               (* 404 *)
  | InternalServerError.                                   (* 500 *)

#[global] Instance PostRow_eq_dec : EqDecision PostRow.
Proof. solve_decision. Defined.

#[global] Instance Like_eq_dec : EqDecision Like.
Proof. solve_decision. Defined.

#[global] Instance Comment_eq_dec : EqDecision Comment.
Proof. solve_decision. Defined.

#[global] Instance Event_eq_dec : EqDecision Event.
Proof. solve_decision. Defined.

#[global] Instance Reply_eq_dec : EqDecision Reply.
Proof. solve_decision. Defined.

(** What the feed service receives. *)
Definition toMsg (e : Event) : Msg :=
  match e with
  | PostCreated p u t =>
      {| routingKey := "post.created";
         content := JsonObject {| postId := p; userId := u; createdAt := t;
                                  followerId := ""; followingId := "" |} |}
  | PostDeleted p u =>
      {| routingKey := "post.deleted";
         content := JsonObject {| postId := p; userId := u; createdAt := 0;
                                  followerId := ""; followingId := "" |} |}
  | PostLiked p u =>
      {| routingKey := "post.liked";
         content := JsonObject {| postId := p; userId := u; createdAt := 0;
                                  followerId := ""; followingId := "" |} |}
  | PostUnliked p u =>
      {| routingKey := "post.unliked";
         content := JsonObject {| postId := p; userId := u; createdAt := 0;
                                  followerId := ""; followingId := "" |} |}
  | CommentCreated _ p _ _ =>
      {| routingKey := "comment.created";
         content := JsonObject {| postId := p; userId := ""; createdAt := 0;
                                  followerId := ""; followingId := "" |} |}
  end.

(** The [posts] table as the other services see a post. *)
Definition table (st : State) : list Post := post <$> posts st.

Definition postKey (postId : string) : string := "post:" +:+ postId.

Definition userPostsKey (userId : string) : string :=
  "user:" +:+ userId +:+ ":posts".

Definition publishEvent (e : Event) (st : State) : State :=
  {| posts := posts st; likes := likes st; comments := comments st;
     redis := redis st; published := published st ++ [e] |}.

Definition del (k : string) (st : State) : State :=
  {| posts := posts st; likes := likes st; comments := comments st;
     redis := delete k (redis st); published := published st |}.

Definition get (st : State) (now : Z) (k : string) : option PostRow :=
  match redis st !! k with
  | Some (v, expiry) => if decide (now < expiry)%Z then Some v else None
  | None => None
  end.

Definition setEx (k : string) (seconds : Z) (v : PostRow) (now : Z)
    (st : State) : State :=
  {| posts := posts st; likes := likes st; comments := comments st;
     redis := <[k := (v, (now + 1000 * seconds)%Z)]> (redis st);
     published := published st |}.

Definition setPosts (l : list PostRow) (st : State) : State :=
  {| posts := l; likes := likes st; comments := comments st;
     redis := redis st; published := published st |}.

Definition setLikes (l : list Like) (st : State) : State :=
  {| posts := posts st; likes := l; comments := comments st;
     redis := redis st; published := published st |}.

Definition setComments (l : list Comment) (st : State) : State :=
  {| posts := posts st; likes := likes st; comments := l;
     redis := redis st; published := published st |}.

(** SELECT ... FROM posts WHERE id = $1 *)
Definition selectPost (st : State) (p : Uuid) : option PostRow :=
  List.find (λ r, bool_decide (id (post r) = p)) (posts st).

(** SELECT id FROM likes WHERE post_id = $1 AND user_id = $2 *)
Definition is_like (p u : Uuid) (l : Like) : Prop :=
  like_post l = p ∧ like_user l = u.

#[global] Instance is_like_dec p u l : Decision (is_like p u l).
Proof. unfold is_like. apply _. Defined.

Definition liked (st : State) (p u : Uuid) : bool :=
  bool_decide (Exists (is_like p u) (likes st)).

(** SELECT COUNT( * ) FROM likes WHERE post_id = $1 *)
Definition countLikes (st : State) (p : Uuid) : Z :=
  Z.of_nat (length (filter (λ l, like_post l = p) (likes st))).

Definition countComments (st : State) (p : Uuid) : Z :=
  Z.of_nat (length (filter (λ c, comment_post c = p) (comments st))).

Definition withLikes (c : Z) (r : PostRow) : PostRow :=
  {| post := post r; likes_count := c; comments_count := comments_count r |}.

Definition withComments (c : Z) (r : PostRow) : PostRow :=
  {| post := post r; likes_count := likes_count r; comments_count := c |}.

(** UPDATE posts SET ... WHERE id = $1, for an expression that can leave
  the range of the column. *)
Definition updatePost (f : PostRow → option PostRow) (p : Uuid) (st : State)
    : option State :=
  posts' ← mapM (λ r, if decide (id (post r) = p) then f r else Some r)
             (posts st);
  Some (setPosts posts' st).

(** UPDATE posts SET likes_count = (SELECT COUNT( * ) ...) WHERE id = $1 *)
Definition updateLikesCount (p : Uuid) (st : State) : option State :=
  updatePost (λ r, if decide (UserService.in_range (countLikes st p))
                   then Some (withLikes (countLikes st p) r) else None) p st.

(** POST /api/posts: [mediaUrls] is the field of the body, if it has one;
  [postId] is what [uuidv4()] returns, [now] CURRENT_TIMESTAMP. *)
Definition createPost (st : State) (userId : string) (caption : string)
    (mediaUrls : option (list string)) (postId : Uuid) (now : Z)
    : State * Reply :=
  match mediaUrls with
  | None | Some [] => (st, BadRequest)
  | Some _ =>
      match fromString userId with
      | None => (st, InternalServerError)
      | Some u =>
          if decide (postId ∈ id <$> table st) then (st, InternalServerError)
          else
            let row :=
              {| post := {| id := postId; user_id := u; caption := caption;
                            post_created_at := now |};
                 likes_count := 0; comments_count := 0 |} in
            let st := setPosts (posts st ++ [row]) st in
            let st :=
              publishEvent
                (PostCreated (toString postId) (toString u) now) st in
            let st := del (userPostsKey userId) st in
            (st, Created row)
      end
  end.

(** The lookup of [liked_by_user] for a request with a user. *)
Definition likedByUser (st : State) (postId : string) (user : option string)
    : option (option bool) :=
  match user with
  | None => Some None
  | Some userId =>
      p ← fromString postId; u ← fromString userId; Some (Some (liked st p u))
  end.

(** GET /api/posts/:postId, with the user of [optionalAuth] if any. *)
Definition getPostById (st : State) (now : Z) (postId : string)
    (user : option string) : State * Reply :=
  match get st now (postKey postId) with
  | Some row =>
      match likedByUser st postId user with
      | Some l => (st, Found row l)
      | None => (st, InternalServerError)
      end
  | None =>
      match fromString postId with
      | None => (st, InternalServerError)
      | Some p =>
          match selectPost st p with
          | None => (st, NotFound)
          | Some row =>
              let st := setEx (postKey postId) 300 row now st in
              match likedByUser st postId user with
              | Some l => (st, Found row l)
              | None => (st, InternalServerError)
              end
          end
      end
  end.

(** DELETE /api/posts/:postId: the rows of [comments] and [likes] that
  reference the post go with it (ON DELETE CASCADE). *)
Definition deletePost (st : State) (userId postId : string) : State * Reply :=
  match fromString postId, fromString userId with
  | Some p, Some u =>
      if decide (Exists (λ r, id (post r) = p ∧ user_id (post r) = u)
                   (posts st))
      then
        let st :=
          {| posts := filter (λ r, ¬ (id (post r) = p ∧ user_id (post r) = u))
                        (posts st);
             likes := filter (λ l, like_post l ≠ p) (likes st);
             comments := filter (λ c, comment_post c ≠ p) (comments st);
             redis := redis st; published := published st |} in
        let st := publishEvent (PostDeleted postId userId) st in
        let st := del (postKey postId) st in
        let st := del (userPostsKey userId) st in
        (st, Done)
      else (st, NotFound)
  | _, _ => (st, InternalServerError)
  end.

(** POST /api/posts/:postId/like, [likeId] from [uuidv4()]. *)
Definition likePost (st : State) (userId postId : string) (likeId : Uuid)
    : State * Reply :=
  match fromString postId with
  | None => (st, InternalServerError)
  | Some p =>
      match selectPost st p with
      | None => (st, NotFound)
      | Some _ =>
          match fromString userId with
          | None => (st, InternalServerError)
          | Some u =>
              let inserted :=
                if decide (Exists (is_like p u) (likes st)) then Some st
                else if decide (likeId ∈ like_id <$> likes st) then None
                else Some (setLikes ({| like_id := likeId; like_post := p;
                                        like_user := u |} :: likes st) st) in
              match inserted with
              | None => (st, InternalServerError)
              | Some st1 =>
                  match updateLikesCount p st1 with
                  | None => (st1, InternalServerError)
                  | Some st2 =>
                      let st3 := publishEvent (PostLiked postId userId) st2 in
                      (del (postKey postId) st3, Done)
                  end
              end
          end
      end
  end.

(** DELETE /api/posts/:postId/like *)
Definition unlikePost (st : State) (userId postId : string) : State * Reply :=
  match fromString postId, fromString userId with
  | Some p, Some u =>
      let st1 := setLikes (filter (λ l, ¬ is_like p u l) (likes st)) st in
      match updateLikesCount p st1 with
      | None => (st1, InternalServerError)
      | Some st2 =>
          let st3 := publishEvent (PostUnliked postId userId) st2 in
          (del (postKey postId) st3, Done)
      end
  | _, _ => (st, InternalServerError)
  end.

(** POST /api/posts/:postId/comments, [content] the field of the body if
  it has one, [commentId] from [uuidv4()]. *)
Definition addComment (st : State) (userId postId : string)
    (content : option string) (commentId : Uuid) : State * Reply :=
  match content with
  | None => (st, BadRequest)
  | Some text =>
      if decide (text = EmptyString ∨ String.length (trim text) = 0)
      then (st, BadRequest)
      else
        match fromString postId with
        | None => (st, InternalServerError)
        | Some p =>
            match selectPost st p with
            | None => (st, NotFound)
            | Some row =>
                match fromString userId with
                | None => (st, InternalServerError)
                | Some u =>
                    if decide (commentId ∈ comment_id <$> comments st)
                    then (st, InternalServerError)
                    else
                      let c := {| comment_id := commentId; comment_post := p;
                                  comment_user := u;
                                  comment_content := trim text |} in
                      let st1 := setComments (c :: comments st) st in
                      match
                        updatePost
                          (λ r, n ← UserService.adjust 1 None
                                      (comments_count r);
                                Some (withComments n r)) p st1
                      with
                      | None => (st1, InternalServerError)
                      | Some st2 =>
                          let st3 :=
                            publishEvent
                              (CommentCreated (toString commentId) postId
                                 (toString (user_id (post row))) userId)
                              st2 in
                          (del (postKey postId) st3, CommentAdded c)
                      end
                end
            end
        end
  end.

(** DELETE /api/comments/:commentId *)
Definition deleteComment (st : State) (userId commentId : string)
    : State * Reply :=
  match fromString commentId, fromString userId with
  | Some c, Some u =>
      match
        filter (λ x, comment_id x = c ∧ comment_user x = u) (comments st)
      with
      | [] => (st, NotFound)
      | deleted :: _ =>
          let st1 :=
            setComments
              (filter (λ x, ¬ (comment_id x = c ∧ comment_user x = u))
                 (comments st)) st in
          let p := comment_post deleted in
          match
            updatePost
              (λ r, n ← UserService.adjust (-1) (Some 0%Z) (comments_count r);
                    Some (withComments n r)) p st1
          with
          | None => (st1, InternalServerError)
          | Some st2 => (del (postKey (toString p)) st2, Done)
          end
      end
  | _, _ => (st, InternalServerError)
  end.

(** GET /api/posts/user/:userId with its optional cursor, a timestamp:
  the posts of the user older than the cursor, newest first, [limit] of
  them, and as [nextCursor] the created_at of the last one.  [None] is
  the 500 for an id that is not a UUID. *)
Definition getPostsByUser (st : State) (userId : string) (cursor : option Z)
    (limit : nat) : option (list Post * option Z) :=
  match fromString userId with
  | None => None
  | Some u =>
      let rows :=
        match cursor with
        | Some c => filter (λ p, (post_created_at p < c)%Z) (table st)
        | None => table st
        end in
      let page := recentPosts rows u limit in
      Some (page, post_created_at <$> last page)
  end.

(** The requests of the routes above. *)
Inductive Request :=
  | CreatePost (userId caption : string) (mediaUrls : option (list string))
      (postId : Uuid) (now : Z)
  | GetPost (now : Z) (postId : string) (user : option string)
  | DeletePost (userId postId : string)
  | LikePost (userId postId : string) (likeId : Uuid)
  | UnlikePost (userId postId : string)
  | AddComment (userId postId : string) (content : option string)
      (commentId : Uuid)
  | DeleteComment (userId commentId : string).

Definition handle (st : State) (req : Request) : State * Reply :=
  match req with
  | CreatePost userId caption mediaUrls postId now =>
      createPost st userId caption mediaUrls postId now
  | GetPost now postId user => getPostById st now postId user
  | DeletePost userId postId => deletePost st userId postId
  | LikePost userId postId likeId => likePost st userId postId likeId
  | UnlikePost userId postId => unlikePost st userId postId
  | AddComment userId postId content commentId =>
      addComment st userId postId content commentId
  | DeleteComment userId commentId => deleteComment st userId commentId
  end.

(** A run of requests that do not overlap. *)
Fixpoint serve (st : State) (reqs : list Request) : State * list Reply :=
  match reqs with
  | [] => (st, [])
  | req :: rest =>
      let (st1, reply) := handle st req in
      let (st2, replies) := serve st1 rest in
      (st2, reply :: replies)
  end.

(** The counts of every post are the numbers of its rows in [likes] and
  [comments]; rows of the two tables reference posts; ids are unique. *)
Definition counts_exact (st : State) : Prop :=
  NoDup (id <$> table st) ∧
  NoDup (comment_id <$> comments st) ∧
  (∀ l, l ∈ likes st → like_post l ∈ id <$> table st) ∧
  (∀ c, c ∈ comments st → comment_post c ∈ id <$> table st) ∧
  ∀ r, r ∈ posts st →
    likes_count r = countLikes st (id (post r)) ∧
    comments_count r = countComments st (id (post r)).

End PostService.
End PostService.

(** * More of the Redis version of the feed service

  The other three handlers, the consumer and the read path of the Redis
  version.  As above the key space is split by the type of the value;
  the sets live under "user:" and the sorted sets under "feed:". *)

Module LegacyMore.
Import Legacy.
Section LegacyMore.
Context `{L : UuidLib} `{G : RedisGlob}.

(** [JSON.stringify({ postId, userId, createdAt })]. *)
Variable stringify : string → string → Z → string.

(** [JSON.parse(item)], read at [postId] and [userId]: [None] when it
  throws, and for each of the two fields the string it holds, if it holds
  one. *)
Variable parse : string → option (option string * option string).

Definition sAdd (k v : string) (st : State) : State :=
  {| sets := <[k := {[v]} ∪ sMembers st k]> (sets st); zsets := zsets st |}.

Definition sRem (k v : string) (st : State) : State :=
  let rest := sMembers st k ∖ {[v]} in
  {| sets := if decide (rest = ∅) then delete k (sets st)
             else <[k := rest]> (sets st);
     zsets := zsets st |}.

(** ZREM key member *)
Definition zRem (k : string) (member : string) (st : State) : State :=
  setZset k (filter (λ x, x.2 ≠ member) (zRange st k)) st.

(** ZCARD key *)
Definition zCard (st : State) (k : string) : nat := length (zRange st k).

(** The elements of a list from index [start] to index [stop], both
  included, negative indexes counting from the end: the index ranges of
  ZRANGE. *)
Definition range {A} (l : list A) (start stop : Z) : list A :=
  let llen := Z.of_nat (length l) in
  let start := if decide (start < 0)%Z then (llen + start)%Z else start in
  let stop := if decide (stop < 0)%Z then (llen + stop)%Z else stop in
  let start := if decide (start < 0)%Z then 0%Z else start in
  if decide ((stop < start)%Z ∨ (llen ≤ start)%Z) then []
  else
    let stop := if decide (llen ≤ stop)%Z then (llen - 1)%Z else stop in
    take (Z.to_nat (stop - start + 1)) (drop (Z.to_nat start) l).

(** ZRANGE key start stop REV: the members, highest rank first. *)
Definition zRangeRev (st : State) (k : string) (start stop : Z)
    : list string :=
  range (reverse (zRange st k).*2) start stop.

(** KEYS pattern *)
Definition keys (st : State) (pattern : string) : gset string :=
  filter (λ k, stringmatch pattern k = true) (dom (sets st) ∪ dom (zsets st)).

(** The item parses and its [postId] is [postId]. *)
Definition names_post (postId : string) (item : string) : Prop :=
  fst <$> parse item = Some (Some postId).

(** The item parses and its [userId] is [userId]. *)
Definition names_user (userId : string) (item : string) : Prop :=
  snd <$> parse item = Some (Some userId).

#[global] Instance names_post_dec p item : Decision (names_post p item).
Proof. unfold names_post. apply _. Defined.

#[global] Instance names_user_dec u item : Decision (names_user u item).
Proof. unfold names_user. apply _. Defined.

(** The loop over the items of a feed that removes those that match. *)
Definition purge (P : string → Prop) `{∀ item, Decision (P item)}
    (k : string) (st : State) : State :=
  foldl (λ st item, if decide (P item) then zRem k item st else st)
    st (zRange st k).*2.

Definition handlePostDeleted (st : State) (data : Data) : State :=
  set_fold (purge (names_post (postId data))) st (keys st "feed:*").

(** [db] is the posts table when the handler asks the post service. *)
Definition handleUserFollowed (db : list Post) (st : State) (data : Data)
    : State :=
  let st := sAdd (followingKey (followerId data)) (followingId data) st in
  let st := sAdd (followersKey (followingId data)) (followerId data) st in
  match getUserPosts db (followingId data) 20 with
  | Some posts =>
      let st :=
        foldl (λ st post,
                 zAdd (feedKey (followerId data)) (post_created_at post)
                   (stringify (toString (id post)) (toString (user_id post))
                      (post_created_at post)) st)
          st posts in
      zRemRangeByRank (feedKey (followerId data)) 0 (-1001) st
  | None => st
  end.

Definition handleUserUnfollowed (st : State) (data : Data) : State :=
  let st := sRem (followingKey (followerId data)) (followingId data) st in
  let st := sRem (followersKey (followingId data)) (followerId data) st in
  purge (names_user (followingId data)) (feedKey (followerId data)) st.

Definition dispatch (db : list Post) (st : State) (key : string)
    (data : Data) : State :=
  if decide (key = "post.created") then handlePostCreated stringify st data
  else if decide (key = "post.deleted") then handlePostDeleted st data
  else if decide (key = "user.followed") then handleUserFollowed db st data
  else if decide (key = "user.unfollowed") then handleUserUnfollowed st data
  else st.

(** One try block around the parse and the handler; the catch nacks.  The
  handlers parse no id, so that only the parse of the payload and the
  destructuring of [null] throw. *)
Definition handleEvent (db : list Post) (st : State) (msg : Msg)
    : State * Settle :=
  match content msg with
  | Unparseable => (st, NackRequeue)
  | JsonNull =>
      if decide (handled (routingKey msg)) then (st, NackRequeue)
      else (st, Ack)
  | JsonObject data => (dispatch db st (routingKey msg) data, Ack)
  end.

Fixpoint process (st : State) (events : list (list Post * Msg)) : State :=
  match events with
  | [] => st
  | (db, msg) :: rest => process (handleEvent db st msg).1 rest
  end.

(** The [postId] of an item, when it parses and holds a non-empty one:
  [JSON.parse(item).postId] with [null] in the catch, then
  [filter(Boolean)]. *)
Definition postIdOf (item : string) : option string :=
  match parse item with
  | Some (Some p, _) => if decide (p = EmptyString) then None else Some p
  | _ => None
  end.

(** GET /api/feed of the Redis version. *)
Definition getFeed (db : list Post) (st : State) (userId : string)
    (offset limit : nat) : Response :=
  let start := Z.of_nat offset in
  let stop := (start + Z.of_nat limit - 1)%Z in
  let feedItems := zRangeRev st (feedKey userId) start stop in
  if decide (length feedItems = 0) then Page [] false None
  else
    let postIds := omap postIdOf feedItems in
    let posts := omap (getPost db) postIds in
    let totalItems := zCard st (feedKey userId) in
    Page posts (bool_decide (offset + length posts < totalItems))
      (Some (offset + length posts)).

(** No feed holds more than 1000 items. *)
Definition bounded (st : State) : Prop :=
  ∀ k, length (zRange st k) ≤ 1000.

End LegacyMore.
End LegacyMore.

(** ** More of the scenario *)

Module MoreScenario.
Import CanonicalUuid SimpleGlob Scenario.

(** Bob's first page, cached at t = 3. *)
Definition st_cached : State := (getPage [P1] 3 st_published bob 0 10).1.

(** Two users of the user service, nobody following anybody. *)
Definition userAlice : UserService.User :=
  {| UserService.id := uAlice; UserService.username := "alice";
     UserService.followers_count := 0; UserService.following_count := 0 |}.

Definition userBob : UserService.User :=
  {| UserService.id := uBob; UserService.username := "bob";
     UserService.followers_count := 0; UserService.following_count := 0 |}.

Definition users0 : UserService.State :=
  {| UserService.users := [userAlice; userBob]; UserService.follows := [];
     UserService.redis := ∅; UserService.published := [] |}.

Definition followId1 : Uuid := mk "00000000-0000-0000-0000-0000000000e1" I.
Definition followId2 : Uuid := mk "00000000-0000-0000-0000-0000000000e2" I.

(** Bob follows Alice. *)
Definition users1 : UserService.State :=
  (UserService.follow users0 bob "alice" followId1).1.

(** The post service before any request, and after Alice has created
  P1 at t = 100. *)
Definition posts0 : PostService.State :=
  {| PostService.posts := []; PostService.likes := [];
     PostService.comments := []; PostService.redis := ∅;
     PostService.published := [] |}.

Definition posts1 : PostService.State :=
  (PostService.createPost posts0 alice "first" (Some ["a.jpg"]) uPost1 100).1.

(** Alice has also created P2, at t = 200. *)
Definition posts2 : PostService.State :=
  (PostService.createPost posts1 alice "second" (Some ["b.jpg"]) uPost2 200).1.

Definition rowP1 : PostService.PostRow :=
  {| PostService.post := P1; PostService.likes_count := 0;
     PostService.comments_count := 0 |}.

Definition likeId1 : Uuid := mk "00000000-0000-0000-0000-0000000000d1" I.
Definition likeId2 : Uuid := mk "00000000-0000-0000-0000-0000000000d2" I.
Definition comment1 : string := "00000000-0000-0000-0000-0000000000c1".
Definition commentId1 : Uuid := mk comment1 I.

(** Leading spaces removed; enough of [trim] for the examples. *)
Fixpoint trimStart (s : string) : string :=
  match s with
  | String c s' => if decide (c = space) then trimStart s' else s
  | EmptyString => EmptyString
  end.

(** A day in the life of P1. *)
Definition requests : list PostService.Request :=
  [PostService.CreatePost alice "first" (Some ["a.jpg"]) uPost1 100;
   PostService.LikePost bob post1 likeId1;
   PostService.AddComment bob post1 (Some " nice") commentId1;
   PostService.GetPost 200 post1 (Some bob);
   PostService.LikePost bob post1 likeId2;
   PostService.DeleteComment bob comment1;
   PostService.UnlikePost bob post1;
   PostService.DeletePost alice post1].

(** A serialization of feed items for the examples of the Redis
  version: the three fields separated by a bar. *)
Definition bar : Ascii.ascii := Ascii.ascii_of_nat 124.

Definition stringifyItem (p u : string) (t : Z) : string :=
  p +:+ String bar (u +:+ String bar (pretty t)).

Definition parseItem (item : string) : option (option string * option string) :=
  match split bar item with
  | p :: u :: _ => Some (Some p, Some u)
  | _ => None
  end.

Definition legacy0 : Legacy.State :=
  {| Legacy.sets := ∅; Legacy.zsets := ∅ |}.

(** Bob follows Alice, who then publishes P1 and P2. *)
Definition legacyEvents : list (list Post * Msg) :=
  [([], event "user.followed" (follows bob alice));
   ([P1], event "post.created" (published post1 alice 100));
   ([P1; P2], event "post.created" (published post2 alice 200))].

Definition legacy1 : Legacy.State :=
  LegacyMore.process stringifyItem parseItem legacy0 legacyEvents.

(** A token that verifies, and the claims it carries. *)
Definition verifyGood (token : string) : option string :=
  if decide (token = "good") then Some alice else None.

End MoreScenario.

(** * Properties *)

(** ** Strings *)

Lemma string_length_app (s1 s2 : string) :
String.length (s1 +:+ s2) = String.length s1 + String.length s2.
Proof. induction s1 as [|c s1 IH]; simpl; [done|]. by rewrite IH. Qed.

Lemma string_app_inj_l (p s1 s2 : string) : p +:+ s1 = p +:+ s2 → s1 = s2.
Proof. induction p as [|c p IH]; simpl; [done|]. intros [=]. auto. Qed.


Section Properties.
Context `{L : UuidLib}.

Implicit Types (st : State) (r row : FeedRow) (l : list FeedRow).
Implicit Types (u : Uuid) (s k : string) (X : gset string).

(** ** The upsert of a row *)

Lemma elem_of_upsert r l : r ∈ upsert r l.
Proof.
  induction l as [|x l IH]; simpl; [set_solver|].
  repeat case_decide; set_solver.
Qed.

Lemma upsert_idemp r l : upsert r (upsert r l) = upsert r l.
Proof.
  induction l as [|x l IH]; simpl.
  - repeat case_decide; (done || lia).
  - destruct (decide (created_at x < created_at r)%Z) as [Hlt|Hge]; simpl.
    + repeat case_decide; (done || lia).
    + destruct (decide (created_at x = created_at r)) as [Heq|Hne]; simpl.
      * repeat case_decide; (done || lia).
      * repeat case_decide; try (done || lia). by rewrite IH.
Qed.

Lemma elem_of_upsert_inv r l x : x ∈ upsert r l → x = r ∨ x ∈ l.
Proof.
  induction l as [|y l IH]; simpl.
  - rewrite elem_of_cons. tauto.
  - destruct (decide (created_at y < created_at r)%Z);
      [|destruct (decide (created_at y = created_at r))];
      rewrite !elem_of_cons; tauto.
Qed.

(** An upsert replaces at most the row with the same clustering key. *)
Lemma upsert_keeps r l x :
  x ∈ l → created_at x ≠ created_at r → x ∈ upsert r l.
Proof.
  induction l as [|y l IH]; simpl; intros Hx Hne.
  - by apply elem_of_nil in Hx.
  - apply elem_of_cons in Hx.
    destruct (decide (created_at y < created_at r)%Z);
      [|destruct (decide (created_at y = created_at r))];
      rewrite !elem_of_cons; intuition congruence.
Qed.

Lemma length_upsert_ge r l : length l ≤ length (upsert r l).
Proof.
  induction l as [|y l IH]; simpl; [lia|].
  repeat case_decide; simpl; lia.
Qed.

Lemma upsert_clustered r l : clustered l → clustered (upsert r l).
Proof.
  unfold clustered. induction l as [|y l IH]; simpl; intros Hl.
  - repeat constructor.
  - apply StronglySorted_cons in Hl as [Hy Hl].
    destruct (decide (created_at y < created_at r)%Z) as [Hlt|Hge].
    + apply StronglySorted_cons. split.
      * constructor; [done|]. eapply Forall_impl; [exact Hy|].
        simpl. intros; lia.
      * by apply StronglySorted_cons.
    + destruct (decide (created_at y = created_at r)) as [Heq|Hne].
      * apply StronglySorted_cons. split; [|done].
        eapply Forall_impl; [exact Hy|]. simpl. intros; lia.
      * apply StronglySorted_cons. split; [|auto].
        apply Forall_forall. intros x [->|Hx]%elem_of_upsert_inv; [lia|].
        rewrite Forall_forall in Hy. by apply Hy.
Qed.

(** Within a clustered partition a timestamp names at most one row. *)
Lemma clustered_key_unique l x y :
  clustered l → x ∈ l → y ∈ l → created_at x = created_at y → x = y.
Proof.
  unfold clustered. induction l as [|z l IH]; [set_solver|].
  intros [Hz Hl]%StronglySorted_cons Hx Hy Heq.
  rewrite Forall_forall in Hz.
  apply elem_of_cons in Hx as [->|Hx]; apply elem_of_cons in Hy as [->|Hy];
    try done.
  - specialize (Hz _ Hy). lia.
  - specialize (Hz _ Hx). lia.
  - auto.
Qed.

(** A row older than the whole partition goes to its end, a row newer than
  the whole partition to its front. *)
Lemma upsert_between r l1 l2 :
  Forall (λ x, (created_at r < created_at x)%Z) l1 →
  Forall (λ x, (created_at x < created_at r)%Z) l2 →
  upsert r (l1 ++ l2) = l1 ++ r :: l2.
Proof.
  intros H1 H2. induction H1 as [|x l1 Hx H1 IH]; simpl.
  - destruct H2 as [|y l2 Hy H2]; simpl; [done|].
    case_decide; [done|lia].
  - repeat case_decide; try lia. by rewrite IH.
Qed.

(** ** States *)

Lemma State_eq st1 st2 :
  user_feeds st1 = user_feeds st2 →
  user_followers st1 = user_followers st2 →
  user_following st1 = user_following st2 →
  redis_sets st1 = redis_sets st2 →
  redis_strings st1 = redis_strings st2 →
  st1 = st2.
Proof. destruct st1, st2; simpl; intros; by subst. Qed.

Lemma elem_of_select_followers st a f :
  f ∈ select_followers st a ↔ is_Some (user_followers st !! (a, f)).
Proof.
  unfold select_followers. rewrite elem_of_set_omap. split.
  - intros ([a' f'] & Hin & Hk). simpl in Hk.
    case_decide; simplify_eq. by apply elem_of_dom.
  - intros Hin. exists (a, f). split; [by apply elem_of_dom|].
    simpl. by rewrite decide_True.
Qed.

Lemma elem_of_select_following st a f :
  f ∈ select_following st a ↔ is_Some (user_following st !! (a, f)).
Proof.
  unfold select_following. rewrite elem_of_set_omap. split.
  - intros ([a' f'] & Hin & Hk). simpl in Hk.
    case_decide; simplify_eq. by apply elem_of_dom.
  - intros Hin. exists (a, f). split; [by apply elem_of_dom|].
    simpl. by rewrite decide_True.
Qed.

(** ** The two loops of [handlePostCreated] *)

Lemma foldr_insertFor_feeds row st (ids : list string) u :
  user_feeds (foldr (insertFor row) st ids) !! u =
  if decide (u ∈ omap fromString ids)
  then Some (upsert row (partition st u))
  else user_feeds st !! u.
Proof.
  induction ids as [|s ids IH]; simpl.
  - done.
  - unfold insertFor at 1. destruct (fromString s) as [v|] eqn:Hs; [|done].
    simpl. destruct (decide (v = u)) as [->|Hne].
    + rewrite lookup_insert_eq, decide_True by apply list_elem_of_here.
      f_equal. unfold partition at 1. rewrite IH.
      case_decide; simpl; [apply upsert_idemp|done].
    + rewrite lookup_insert_ne, IH by done.
      destruct (decide (u ∈ omap fromString ids)) as [Hin|Hnin].
      * rewrite decide_True; [done|]. by apply list_elem_of_further.
      * rewrite decide_False; [done|].
        intros [?|?]%elem_of_cons; [congruence|done].
Qed.

Lemma insertFor_rest row s st :
  user_followers (insertFor row s st) = user_followers st ∧
  user_following (insertFor row s st) = user_following st ∧
  redis_sets (insertFor row s st) = redis_sets st ∧
  redis_strings (insertFor row s st) = redis_strings st.
Proof. unfold insertFor. by destruct (fromString s). Qed.

Lemma foldr_insertFor_rest row st (ids : list string) :
  let st' := foldr (insertFor row) st ids in
  user_followers st' = user_followers st ∧
  user_following st' = user_following st ∧
  redis_sets st' = redis_sets st ∧
  redis_strings st' = redis_strings st.
Proof.
  induction ids as [|s ids IH]; simpl in *; [done|].
  destruct (insertFor_rest row s (foldr (insertFor row) st ids))
    as (-> & -> & -> & ->). done.
Qed.

Lemma foldr_del_strings st (ids : list string) k :
  redis_strings (foldr (λ f, del (feedCacheKey f)) st ids) !! k =
  if decide (k ∈ feedCacheKey <$> ids) then None else redis_strings st !! k.
Proof.
  induction ids as [|s ids IH]; simpl.
  - done.
  - destruct (decide (feedCacheKey s = k)) as [<-|Hne].
    + rewrite lookup_delete_eq, decide_True; [done|]. apply list_elem_of_here.
    + rewrite lookup_delete_ne, IH by done.
      destruct (decide (k ∈ feedCacheKey <$> ids)) as [Hin|Hnin].
      * rewrite decide_True; [done|]. by apply list_elem_of_further.
      * rewrite decide_False; [done|].
        intros [?|?]%elem_of_cons; [congruence|done].
Qed.

Lemma foldr_del_sets st (ids : list string) k :
  redis_sets (foldr (λ f, del (feedCacheKey f)) st ids) !! k =
  if decide (k ∈ feedCacheKey <$> ids) then None else redis_sets st !! k.
Proof.
  induction ids as [|s ids IH]; simpl.
  - done.
  - destruct (decide (feedCacheKey s = k)) as [<-|Hne].
    + rewrite lookup_delete_eq, decide_True; [done|]. apply list_elem_of_here.
    + rewrite lookup_delete_ne, IH by done.
      destruct (decide (k ∈ feedCacheKey <$> ids)) as [Hin|Hnin].
      * rewrite decide_True; [done|]. by apply list_elem_of_further.
      * rewrite decide_False; [done|].
        intros [?|?]%elem_of_cons; [congruence|done].
Qed.

Lemma foldr_del_rest st (ids : list string) :
  let st' := foldr (λ f, del (feedCacheKey f)) st ids in
  user_feeds st' = user_feeds st ∧
  user_followers st' = user_followers st ∧
  user_following st' = user_following st.
Proof. induction ids as [|s ids IH]; simpl in *; done. Qed.

(** ** [handlePostCreated], field by field *)

Lemma followersKey_not_feedCacheKey s1 s2 : followersKey s1 ≠ feedCacheKey s2.
Proof. unfold followersKey, feedCacheKey. simpl. discriminate. Qed.

Lemma followingKey_not_feedCacheKey s1 s2 : followingKey s1 ≠ feedCacheKey s2.
Proof. unfold followingKey, feedCacheKey. simpl. discriminate. Qed.

Lemma handlePostCreated_spec st data postUuid authorUuid :
  fromString (postId data) = Some postUuid →
  fromString (userId data) = Some authorUuid →
  let targets := allFollowers st (userId data) authorUuid in
  let row := {| created_at := createdAt data;
                post_id := postUuid; author_id := authorUuid |} in
  let st' := (handlePostCreated st data).1 in
  (handlePostCreated st data).2 = Returned ∧
  (∀ u, user_feeds st' !! u =
          if decide (u ∈ fanOutTargets st (userId data) authorUuid)
          then Some (upsert row (partition st u))
          else user_feeds st !! u) ∧
  user_followers st' = user_followers st ∧
  user_following st' = user_following st ∧
  (∀ k, redis_sets st' !! k =
          if decide (k ∈ (set_map feedCacheKey targets : gset string))
          then None else redis_sets st !! k) ∧
  (∀ k, redis_strings st' !! k =
          if decide (k ∈ (set_map feedCacheKey targets : gset string))
          then None else redis_strings st !! k).
Proof.
  intros Hp Ha targets row st'. subst st'. unfold handlePostCreated.
  rewrite Hp, Ha. cbv beta iota zeta. fold targets. fold row.
  unfold set_fold, compose. cbn [fst snd].
  set (st1 := foldr (insertFor row) st (elements targets)).
  destruct (foldr_del_rest st1 (elements targets)) as (Hf & Hfs & Hfg).
  destruct (foldr_insertFor_rest row st (elements targets))
    as (Hfs1 & Hfg1 & Hrs1 & Hrt1).
  fold st1 in Hfs1, Hfg1, Hrs1, Hrt1.
  split; [done|]. split; [|split; [congruence|split; [congruence|split]]].
  - intros u. rewrite Hf. unfold st1. rewrite foldr_insertFor_feeds.
    apply decide_ext. unfold fanOutTargets. fold targets.
    unfold set_omap. by rewrite elem_of_list_to_set.
  - intros k. rewrite foldr_del_sets, Hrs1. apply decide_ext.
    unfold set_map. by rewrite elem_of_list_to_set.
  - intros k. rewrite foldr_del_strings, Hrt1. apply decide_ext.
    unfold set_map. by rewrite elem_of_list_to_set.
Qed.

Lemma elem_of_fanOutTargets st userId authorUuid u :
  fromString userId = Some authorUuid →
  u ∈ fanOutTargets st userId authorUuid ↔
  follower_of st userId authorUuid u ∨ u = authorUuid.
Proof.
  intros Ha. unfold fanOutTargets, allFollowers, follower_of.
  rewrite elem_of_set_omap. setoid_rewrite elem_of_union.
  setoid_rewrite elem_of_union. setoid_rewrite elem_of_map.
  setoid_rewrite elem_of_singleton.
  setoid_rewrite elem_of_select_followers. split.
  - intros (s & [[(f & -> & Hf)| Hs] | ->] & Hu).
    + rewrite fromString_toString in Hu. simplify_eq. by left; left.
    + left; right. eauto.
    + right. congruence.
  - intros [[Hf | (s & Hs & Hu)] | ->].
    + exists (toString u). split; [|apply fromString_toString].
      left; left. eauto.
    + exists s. eauto.
    + exists userId. eauto.
Qed.

Lemma partition_handlePostCreated st data postUuid authorUuid u :
  fromString (postId data) = Some postUuid →
  fromString (userId data) = Some authorUuid →
  partition (handlePostCreated st data).1 u =
  if decide (u ∈ fanOutTargets st (userId data) authorUuid)
  then upsert {| created_at := createdAt data;
                 post_id := postUuid; author_id := authorUuid |}
              (partition st u)
  else partition st u.
Proof.
  intros Hp Ha.
  destruct (handlePostCreated_spec st data _ _ Hp Ha) as (_ & Hf & _).
  unfold partition at 1. rewrite Hf. by case_decide.
Qed.

Lemma handlePostCreated_clustered st data u :
  clustered (partition st u) →
  clustered (partition (handlePostCreated st data).1 u).
Proof.
  intros Hc.
  destruct (fromString (postId data)) as [p|] eqn:Hp;
    [destruct (fromString (userId data)) as [a|] eqn:Ha|].
  - rewrite (partition_handlePostCreated _ _ _ _ _ Hp Ha).
    case_decide; [by apply upsert_clustered|done].
  - unfold handlePostCreated. by rewrite Hp, Ha.
  - unfold handlePostCreated. by rewrite Hp.
Qed.

Lemma clustered_one_row_per_key l (t : Z) :
  clustered l → length (filter (λ x, created_at x = t) l) ≤ 1.
Proof.
  unfold clustered. induction l as [|x l IH]; [simpl; lia|].
  intros [Hx Hl]%StronglySorted_cons. rewrite filter_cons.
  case_decide as Hk; [|auto]. simpl.
  assert (filter (λ y, created_at y = t) l = []) as ->; [|simpl; lia].
  apply elem_of_nil_inv. intros y [Hy Hin]%list_elem_of_filter.
  rewrite Forall_forall in Hx. specialize (Hx _ Hin). simpl in Hx. lia.
Qed.

(** C1 (fan-out completeness).  When [handlePostCreated] completes on a
  post.created event, every user recorded as a follower of the author
  when the event is handled (in [user_followers], or in the Redis backup
  set under an id that parses), and the author, owns the row (created_at,
  post_id, author_id) of the event in [user_feeds]; the partition of every
  other user is as it was. *)
Theorem fan_out_completeness st data postUuid authorUuid :
  fromString (postId data) = Some postUuid →
  fromString (userId data) = Some authorUuid →
  let st' := (handlePostCreated st data).1 in
  let entry := {| created_at := createdAt data;
                  post_id := postUuid; author_id := authorUuid |} in
  (handlePostCreated st data).2 = Returned ∧
  (∀ f, follower_of st (userId data) authorUuid f ∨ f = authorUuid →
        entry ∈ partition st' f) ∧
  (∀ u, ¬ follower_of st (userId data) authorUuid u → u ≠ authorUuid →
        user_feeds st' !! u = user_feeds st !! u).
Proof.
  intros Hp Ha st' entry.
  destruct (handlePostCreated_spec st data _ _ Hp Ha) as (Hret & Hf & _).
  split; [done|]. split.
  - intros f Hfol. subst st'.
    rewrite (partition_handlePostCreated _ _ _ _ _ Hp Ha).
    rewrite decide_True by by apply elem_of_fanOutTargets.
    apply elem_of_upsert.
  - intros u Hnf Hne. subst st'. rewrite Hf.
    rewrite decide_False; [done|].
    rewrite elem_of_fanOutTargets by done. tauto.
Qed.

(** C4 (idempotence).  Handling the same post.created event a second time
  changes nothing: state and outcome after the second handling are those
  after the first.  A partition that was in clustering order holds at most
  one row with the timestamp of the event. *)
Theorem publish_twice_idempotent st data :
  let st1 := (handlePostCreated st data).1 in
  handlePostCreated st1 data = handlePostCreated st data ∧
  ∀ u, clustered (partition st u) →
       length (filter (λ x, created_at x = createdAt data)
                 (partition (handlePostCreated st1 data).1 u)) ≤ 1.
Proof.
  intros st1. split.
  2: { intros u Hc. apply clustered_one_row_per_key.
       by do 2 apply handlePostCreated_clustered. }
  destruct (fromString (postId data)) as [p|] eqn:Hp;
    [destruct (fromString (userId data)) as [a|] eqn:Ha|].
  2: { subst st1. unfold handlePostCreated. by rewrite Hp, Ha. }
  2: { subst st1. unfold handlePostCreated. by rewrite Hp. }
  destruct (handlePostCreated_spec st data _ _ Hp Ha)
    as (Hret & Hf & Hfs & Hfg & Hrs & Hrt).
  fold st1 in Hf, Hfs, Hfg, Hrs, Hrt.
  assert (allFollowers st1 (userId data) a = allFollowers st (userId data) a)
    as Hall.
  { unfold allFollowers, select_followers, sMembers. rewrite Hfs, Hrs.
    rewrite decide_False; [done|].
    intros (x & Hx & _)%elem_of_map.
    by apply followersKey_not_feedCacheKey in Hx. }
  assert (fanOutTargets st1 (userId data) a = fanOutTargets st (userId data) a)
    as Htg by (unfold fanOutTargets; by rewrite Hall).
  destruct (handlePostCreated_spec st1 data _ _ Hp Ha)
    as (Hret' & Hf' & Hfs' & Hfg' & Hrs' & Hrt').
  rewrite Hall, ?Htg in *.
  apply injective_projections; [|congruence].
  apply State_eq.
  - apply map_eq. intros u. rewrite Hf'. case_decide as Hu; [|done].
    unfold partition. rewrite !Hf, !decide_True by done. simpl.
    by rewrite upsert_idemp.
  - by rewrite Hfs'.
  - by rewrite Hfg'.
  - apply map_eq. intros k. rewrite Hrs'. case_decide; [|done].
    rewrite Hrs. by rewrite decide_True.
  - apply map_eq. intros k. rewrite Hrt'. case_decide; [|done].
    rewrite Hrt. by rewrite decide_True.
Qed.

(** ** The read path *)

Lemma slice_of_fetched (P : list FeedRow) offset limit :
  take limit (drop offset (take (limit + offset + 1) P)) =
  take limit (drop offset P).
Proof.
  rewrite !take_drop_commute, take_take. f_equal. f_equal. lia.
Qed.

Lemma slice_nil_iff (P : list FeedRow) offset limit :
  take limit (drop offset P) = [] ↔ length P ≤ offset ∨ limit = 0.
Proof.
  split.
  - intros [->|Hd%drop_nil_inv]%take_nil_inv; auto.
  - intros [Hlen| ->]; [|done]. by rewrite drop_ge, take_nil.
Qed.

Lemma getPage_hit db now st userId offset limit cached :
  get st now (cacheKey userId offset limit) = Some cached →
  getPage db now st userId offset limit = (st, cached).
Proof. intros H. unfold getPage. by rewrite H. Qed.

Lemma getPage_miss db now st userId userUuid offset limit :
  get st now (cacheKey userId offset limit) = None →
  fromString userId = Some userUuid →
  let window := take limit (drop offset (partition st userUuid)) in
  let fetched := select_feed st userUuid (limit + offset + 1) in
  let responseData :=
    Page (hydrate db window) (bool_decide (offset + limit < length fetched))
         (Some (offset + length (hydrate db window))) in
  getPage db now st userId offset limit =
  if decide (window = []) then (st, Page [] false None)
  else (setEx (cacheKey userId offset limit) CACHE_TTL responseData now st,
        responseData).
Proof.
  intros Hmiss Hu window fetched responseData. unfold getPage.
  rewrite Hmiss, Hu. simpl. unfold select_feed.
  rewrite slice_of_fetched. fold window.
  destruct (decide (length window = 0)) as [Hz|Hnz].
  - apply nil_length_inv in Hz. by rewrite decide_True.
  - rewrite decide_False; [done|]. by intros ->.
Qed.

Lemma elem_of_hydrate db (window : list FeedRow) p :
  p ∈ hydrate db window ↔
  ∃ item, item ∈ window ∧ getPost db (toString (post_id item)) = Some p.
Proof. unfold hydrate. apply list_elem_of_omap. Qed.


Lemma hydrate_unresolved db (window : list FeedRow) :
  (∀ item, item ∈ window → getPost db (toString (post_id item)) = None) →
  hydrate db window = [].
Proof.
  intros Hnone. apply elem_of_nil_inv. intros p (item & Hin & Hp)%elem_of_hydrate.
  rewrite Hnone in Hp by done. discriminate.
Qed.

Lemma length_hydrate db (window : list FeedRow) :
  length (hydrate db window) ≤ length window.
Proof.
  unfold hydrate. induction window as [|item window IH]; simpl; [done|].
  unfold omap in IH. destruct (getPost db _); simpl; lia.
Qed.

Lemma hasMore_total (P : list FeedRow) offset limit :
  bool_decide (offset + limit < length (take (limit + offset + 1) P)) =
  bool_decide (offset + limit < length P).
Proof. apply bool_decide_ext. rewrite length_take. lia. Qed.

Lemma getPage_at_most_limit db now st userId offset limit :
  get st now (cacheKey userId offset limit) = None →
  length (posts_of (getPage db now st userId offset limit).2) ≤ limit.
Proof.
  intros Hmiss. destruct (fromString userId) as [u|] eqn:Hu.
  - rewrite (getPage_miss _ _ _ _ _ _ _ Hmiss Hu).
    case_decide; simpl; [lia|].
    etrans; [apply length_hydrate|]. rewrite length_take. lia.
  - unfold getPage. rewrite Hmiss, Hu. simpl. lia.
Qed.

(** C5, amended (pagination).  On a cache miss for a user whose id parses,
  [getPage] fetches the first offset + limit + 1 rows of the partition and
  takes the slice from offset of length limit.  When the slice is empty,
  that is when offset is at least the number of rows or limit is 0, the
  answer is [{posts: [], hasMore: false}] and nothing is cached.
  Otherwise the answer is the slice hydrated, [hasMore] tells whether more
  than offset + limit rows were fetched, which is whether the partition
  has more than offset + limit rows, and [offset] is the request offset
  plus the number of posts. *)
Theorem getPage_assembles_page db now st userId userUuid offset limit :
  get st now (cacheKey userId offset limit) = None →
  fromString userId = Some userUuid →
  let fetched := select_feed st userUuid (offset + limit + 1) in
  let window := take limit (drop offset fetched) in
  let total := length (partition st userUuid) in
  window = take limit (drop offset (partition st userUuid)) ∧
  (total ≤ offset ∨ limit = 0 →
     getPage db now st userId offset limit = (st, Page [] false None)) ∧
  (offset < total → 0 < limit →
     (getPage db now st userId offset limit).2 =
       Page (hydrate db window)
            (bool_decide (offset + limit < length fetched))
            (Some (offset + length (hydrate db window))) ∧
     bool_decide (offset + limit < length fetched) =
       bool_decide (offset + limit < total)).
Proof.
  intros Hmiss Hu fetched window total.
  assert (window = take limit (drop offset (partition st userUuid))) as Hw.
  { subst window fetched. unfold select_feed.
    replace (offset + limit + 1) with (limit + offset + 1) by lia.
    apply slice_of_fetched. }
  assert (fetched = select_feed st userUuid (limit + offset + 1)) as Hfe.
  { subst fetched. f_equal. lia. }
  pose proof (getPage_miss db now st userId userUuid offset limit Hmiss Hu)
    as Hpage. simpl in Hpage. rewrite <- Hw, <- Hfe in Hpage.
  split; [done|]. split.
  - intros Hempty. rewrite Hpage, decide_True; [done|].
    rewrite Hw. by apply slice_nil_iff.
  - intros Hoff Hlim. split.
    + rewrite Hpage, decide_False; [done|].
      rewrite Hw, slice_nil_iff. subst total. lia.
    + rewrite Hfe. apply hasMore_total.
Qed.


(** C10 (hasMore and offset around hydration).  On a cache miss with a
  non-empty slice, [hasMore] is computed from the number of fetched rows
  and the returned offset from the number of hydrated posts.  So when no
  post of the slice resolves and the partition has more than offset +
  limit rows, the answer is [posts: []] with [hasMore: true], and the
  returned offset is the request offset although the slice consumed at
  least one row. *)
Theorem hasMore_before_hydration db now st userId userUuid offset limit :
  let fetched := select_feed st userUuid (limit + offset + 1) in
  let feedItems := take limit (drop offset fetched) in
  get st now (cacheKey userId offset limit) = None →
  fromString userId = Some userUuid →
  feedItems ≠ [] →
  (getPage db now st userId offset limit).2 =
    Page (hydrate db feedItems)
         (bool_decide (offset + limit < length fetched))
         (Some (offset + length (hydrate db feedItems))) ∧
  ((∀ item, item ∈ feedItems →
      getPost db (toString (post_id item)) = None) →
   offset + limit < length (partition st userUuid) →
   (getPage db now st userId offset limit).2 = Page [] true (Some offset) ∧
   offset < offset + length feedItems).
Proof.
  intros fetched feedItems Hmiss Hu Hne.
  assert (feedItems = take limit (drop offset (partition st userUuid))) as Hw.
  { subst feedItems fetched. unfold select_feed. apply slice_of_fetched. }
  pose proof (getPage_miss db now st userId userUuid offset limit Hmiss Hu)
    as Hpage. simpl in Hpage. rewrite <- Hw in Hpage. fold fetched in Hpage.
  rewrite decide_False in Hpage by done.
  split; [by rewrite Hpage|].
  intros Hnone Hmore. rewrite Hpage. simpl.
  rewrite hydrate_unresolved by done. simpl. split.
  - f_equal; [|f_equal; lia]. apply bool_decide_eq_true.
    subst fetched. unfold select_feed. rewrite length_take. lia.
  - destruct feedItems; [done|simpl; lia].
Qed.

(** ** Redis sets *)

Lemma not_elem_of_remove (S : gset string) v : v ∉ S ∖ {[v]}.
Proof. intros [_ Hn]%elem_of_difference. apply Hn. by apply elem_of_singleton. Qed.

Lemma sMembers_ext st st' k :
  redis_sets st = redis_sets st' → sMembers st k = sMembers st' k.
Proof. unfold sMembers. by intros ->. Qed.

Lemma sMembers_sAdd k v st k' :
  sMembers (sAdd k v st) k' =
  if decide (k = k') then {[v]} ∪ sMembers st k else sMembers st k'.
Proof.
  unfold sMembers at 1. simpl. case_decide as Hk.
  - subst. by rewrite lookup_insert_eq.
  - by rewrite lookup_insert_ne.
Qed.

Lemma sMembers_sRem k v st k' :
  sMembers (sRem k v st) k' =
  if decide (k = k') then sMembers st k ∖ {[v]} else sMembers st k'.
Proof.
  unfold sMembers at 1. simpl.
  destruct (decide (k = k')) as [<-|Hk];
    destruct (decide (sMembers st k ∖ {[v]} = ∅)) as [He|He].
  - by rewrite lookup_delete_eq, He.
  - by rewrite lookup_insert_eq.
  - by rewrite lookup_delete_ne.
  - by rewrite lookup_insert_ne.
Qed.

Lemma sMembers_del k st k' :
  sMembers (del k st) k' = if decide (k = k') then ∅ else sMembers st k'.
Proof.
  unfold sMembers at 1. simpl. case_decide as Hk.
  - subst. by rewrite lookup_delete_eq.
  - by rewrite lookup_delete_ne.
Qed.

(** ** The consumer *)

Lemma handlePostCreated_outcome st data :
  (handlePostCreated st data).2 = Threw ↔
  fromString (postId data) = None ∨ fromString (userId data) = None.
Proof.
  unfold handlePostCreated.
  destruct (fromString (postId data)); [|simpl; tauto].
  destruct (fromString (userId data)); simpl; [|tauto].
  split; [done|]. by intros [?|?].
Qed.

Lemma handlePostDeleted_outcome st data :
  (handlePostDeleted st data).2 = Threw ↔
  fromString (postId data) = None ∨ fromString (userId data) = None.
Proof.
  unfold handlePostDeleted.
  destruct (fromString (postId data)); [|simpl; tauto].
  destruct (fromString (userId data)); simpl; [|tauto].
  split; [done|]. by intros [?|?].
Qed.

Lemma handleUserFollowed_outcome db now st data :
  (handleUserFollowed db now st data).2 = Returned.
Proof.
  unfold handleUserFollowed.
  destruct (fromString (followerId data)); [|done].
  destruct (fromString (followingId data)); [|done].
  destruct (getUserPosts db (followingId data) 20); [|done].
  by destruct (backfill _ _ _ _) as [? []].
Qed.

Lemma handleUserUnfollowed_outcome st data :
  (handleUserUnfollowed st data).2 = Returned.
Proof.
  unfold handleUserUnfollowed.
  destruct (fromString (followerId data)); [|done].
  by destruct (fromString (followingId data)).
Qed.

(** C8, amended (settling a message).  A message whose payload does not
  parse is negatively acknowledged with requeue, and the state is as it
  was.  A message is negatively acknowledged exactly when handling it
  throws: its payload does not parse, or is [null] under one of the four
  routing keys of the switch, or it is a post.created or post.deleted
  event whose postId or userId is not a Uuid; every other message is
  acknowledged. *)
Theorem unparseable_is_requeued db now st msg :
  (content msg = Unparseable →
     handleEvent db now st msg = (st, NackRequeue)) ∧
  ((handleEvent db now st msg).2 = NackRequeue ↔
     content msg = Unparseable ∨
     (content msg = JsonNull ∧ handled (routingKey msg)) ∨
     ∃ data, content msg = JsonObject data ∧
       (routingKey msg = "post.created" ∨ routingKey msg = "post.deleted") ∧
       (fromString (postId data) = None ∨ fromString (userId data) = None)) ∧
  ((handleEvent db now st msg).2 = Ack ∨
   (handleEvent db now st msg).2 = NackRequeue).
Proof.
  unfold handleEvent. destruct (content msg) as [| |data] eqn:Hc.
  { split; [done|]. split; [|by right]. split; auto. }
  { split; [done|]. case_decide as Hk; simpl.
    - split; [|by right]. split; [auto|done].
    - split; [|by left]. split; [done|].
      intros [?|[[_ ?]|(d & ? & _)]]; done. }
  split; [done|].
  assert ((dispatch db now st (routingKey msg) data).2 = Threw ↔
          (routingKey msg = "post.created" ∨ routingKey msg = "post.deleted") ∧
          (fromString (postId data) = None ∨ fromString (userId data) = None))
    as Hd.
  { unfold dispatch. repeat case_decide.
    - rewrite handlePostCreated_outcome. tauto.
    - rewrite handlePostDeleted_outcome. tauto.
    - rewrite handleUserFollowed_outcome. split; [done|tauto].
    - rewrite handleUserUnfollowed_outcome. split; [done|tauto].
    - simpl. split; [done|tauto]. }
  destruct (dispatch db now st (routingKey msg) data) as [st' []] eqn:Hdis;
    simpl in *.
  - split; [|by left]. split; [done|].
    intros [?|[[? _]|(d & [= <-] & Hk & Hp)]]; [done|done|].
    assert (Returned = Threw) by by apply Hd. done.
  - split; [|by right]. split; [|done]. intros _. right. right.
    exists data. split; [done|]. by apply Hd.
Qed.

(** C9 (unfollow).  When both ids parse, [handleUserUnfollowed] removes the
  edge from [user_followers] and from [user_following], and from the two
  Redis sets, and leaves every other edge in place.  In every case
  [user_feeds] is as it was: no row of the follower's partition is
  deleted. *)
Theorem unfollow_keeps_feed_rows st data followerUuid followingUuid :
  fromString (followerId data) = Some followerUuid →
  fromString (followingId data) = Some followingUuid →
  let st' := (handleUserUnfollowed st data).1 in
  (followerUuid ∉ select_followers st' followingUuid) ∧
  (followingUuid ∉ select_following st' followerUuid) ∧
  (∀ edge, edge ≠ (followingUuid, followerUuid) →
     user_followers st' !! edge = user_followers st !! edge) ∧
  (∀ edge, edge ≠ (followerUuid, followingUuid) →
     user_following st' !! edge = user_following st !! edge) ∧
  (followerId data ∉ sMembers st' (followersKey (followingId data))) ∧
  (followingId data ∉ sMembers st' (followingKey (followerId data))) ∧
  user_feeds st' = user_feeds st ∧
  ∀ u, partition st' u = partition st u.
Proof.
  intros Hf Hg st'. subst st'. unfold handleUserUnfollowed.
  rewrite Hf, Hg. simpl.
  rewrite elem_of_select_followers, elem_of_select_following. simpl.
  rewrite !lookup_delete_eq.
  split; [by intros [? ?]|]. split; [by intros [? ?]|].
  split; [by intros; rewrite lookup_delete_ne|].
  split; [by intros; rewrite lookup_delete_ne|].
  split; [|split; [|done]].
  - rewrite sMembers_del, decide_False
      by (symmetry; apply followersKey_not_feedCacheKey).
    rewrite sMembers_sRem, decide_True by done. apply not_elem_of_remove.
  - rewrite sMembers_del, decide_False
      by (symmetry; apply followingKey_not_feedCacheKey).
    rewrite !sMembers_sRem.
    rewrite (decide_True (P := followingKey _ = followingKey _)) by done.
    repeat case_decide; try congruence; try apply not_elem_of_remove.
    intros [Hin _]%elem_of_difference. by apply not_elem_of_remove in Hin.
Qed.

(** ** Page keys and the keys the handlers delete *)

Lemma feedCacheKey_not_cacheKey s reader offset limit :
  String.length s = 36 → String.length reader = 36 →
  feedCacheKey s ≠ cacheKey reader offset limit.
Proof.
  intros Hs Hr. unfold feedCacheKey, cacheKey.
  intros H%string_app_inj_l. apply (f_equal String.length) in H.
  rewrite !string_length_app, Hs, Hr in H. simpl in H. lia.
Qed.

Lemma members_valid_sMembers st :
  redis_members_valid st ↔
  ∀ k s, s ∈ sMembers st k → is_Some (fromString s).
Proof.
  unfold redis_members_valid, sMembers. split.
  - intros Hv k s. destruct (redis_sets st !! k) as [S|] eqn:Hk; simpl.
    + eauto.
    + by intros ?%not_elem_of_empty.
  - intros Hv k S s Hk Hs. apply (Hv k). by rewrite Hk.
Qed.

Lemma allFollowers_length st userId authorUuid s :
  redis_members_valid st →
  fromString userId = Some authorUuid →
  s ∈ allFollowers st userId authorUuid → String.length s = 36.
Proof.
  intros Hv0 Ha. pose proof (proj1 (members_valid_sMembers st) Hv0) as Hv.
  unfold allFollowers.
  rewrite !elem_of_union, elem_of_map, elem_of_singleton.
  intros [[(f & -> & _)|Hs]| ->].
  - eapply fromString_length, fromString_toString.
  - destruct (Hv _ _ Hs) as [u Hu]. by eapply fromString_length.
  - by eapply fromString_length.
Qed.

Lemma backfill_rest followerUuid followingUuid posts st :
  let st' := (backfill followerUuid followingUuid posts st).1 in
  user_followers st' = user_followers st ∧
  user_following st' = user_following st ∧
  redis_sets st' = redis_sets st ∧
  redis_strings st' = redis_strings st.
Proof.
  revert st. induction posts as [|post posts IH]; intros st; simpl; [done|].
  destruct (fromString (toString (id post))); [|done].
  destruct (IH (insert_feed followerUuid
                  {| created_at := post_created_at post;
                     post_id := u; author_id := followingUuid |} st))
    as (-> & -> & -> & ->). done.
Qed.

(** What each handler does to the Redis sets. *)
Lemma sMembers_handlePostCreated st data k s :
  s ∈ sMembers (handlePostCreated st data).1 k → s ∈ sMembers st k.
Proof.
  destruct (fromString (postId data)) as [p|] eqn:Hp;
    [destruct (fromString (userId data)) as [a|] eqn:Ha|].
  - destruct (handlePostCreated_spec st data _ _ Hp Ha)
      as (_ & _ & _ & _ & Hrs & _).
    unfold sMembers at 1. rewrite Hrs. case_decide; [|done].
    by intros ?%not_elem_of_empty.
  - unfold handlePostCreated. by rewrite Hp, Ha.
  - unfold handlePostCreated. by rewrite Hp.
Qed.

Lemma sMembers_handleUserFollowed db now st data k s :
  s ∈ sMembers (handleUserFollowed db now st data).1 k →
  s ∈ sMembers st k ∨
  is_Some (fromString (followerId data)) ∧
  is_Some (fromString (followingId data)) ∧
  (s = followerId data ∨ s = followingId data).
Proof.
  unfold handleUserFollowed.
  destruct (fromString (followerId data)) as [fu|] eqn:Hf; [|auto].
  destruct (fromString (followingId data)) as [gu|] eqn:Hg; [|auto].
  set (st4 := sAdd _ _ (sAdd _ _ _)).
  assert (s ∈ sMembers st4 k →
          s ∈ sMembers st k ∨ s = followerId data ∨ s = followingId data)
    as Hadd.
  { subst st4. rewrite !sMembers_sAdd.
    rewrite !(sMembers_ext (insert_following _ _ _ _) st) by done.
    repeat case_decide; rewrite ?elem_of_union, ?elem_of_singleton;
      subst; try tauto; try congruence.
    match goal with H : followingKey _ = followersKey _ |- _ => rewrite H end.
    tauto. }
  assert (∀ st5, redis_sets st5 = redis_sets st4 →
                 s ∈ sMembers st5 k → s ∈ sMembers st4 k) as Hsame.
  { intros st5 H5. unfold sMembers. by rewrite H5. }
  intros Hs. cut (s ∈ sMembers st4 k).
  { intros H4. destruct (Hadd H4) as [?|[?|?]]; eauto 6. }
  destruct (getUserPosts db (followingId data) 20) as [posts|]; [|done].
  destruct (backfill_rest fu gu posts st4) as (_ & _ & Hrs & _).
  destruct (backfill fu gu posts st4) as [st5 []]; simpl in *.
  - rewrite sMembers_del in Hs. case_decide; [by apply not_elem_of_empty in Hs|].
    by apply (Hsame st5).
  - by apply (Hsame st5).
Qed.

Lemma sMembers_handleUserUnfollowed st data k s :
  s ∈ sMembers (handleUserUnfollowed st data).1 k → s ∈ sMembers st k.
Proof.
  unfold handleUserUnfollowed.
  destruct (fromString (followerId data)) as [fu|]; [|done].
  destruct (fromString (followingId data)) as [gu|]; [|done].
  simpl. rewrite sMembers_del, !sMembers_sRem.
  rewrite !(sMembers_ext (delete_following _ _ _) st) by done.
  repeat case_decide; subst; intros Hs;
    repeat match goal with
    | H : _ ∈ ∅ |- _ => by apply not_elem_of_empty in H
    | H : _ ∈ _ ∖ _ |- _ => apply elem_of_difference in H as [H _]
    | H : followingKey _ = followersKey _ |- _ => rewrite <- H
    end; try done; congruence.
Qed.

Lemma handleEvent_members_valid db now st msg :
  redis_members_valid st → redis_members_valid (handleEvent db now st msg).1.
Proof.
  rewrite !members_valid_sMembers. intros Hv k s.
  unfold handleEvent. destruct (content msg) as [| |data]; [by apply Hv| |].
  { case_decide; by apply Hv. }
  assert (s ∈ sMembers (dispatch db now st (routingKey msg) data).1 k →
          is_Some (fromString s)) as Hd.
  { unfold dispatch. repeat case_decide.
    - intros ?%sMembers_handlePostCreated. eauto.
    - unfold handlePostDeleted.
      destruct (fromString (postId data)); [|by apply Hv].
      destruct (fromString (userId data)); by apply Hv.
    - intros [?|(Hf & Hg & [-> | ->])]%sMembers_handleUserFollowed; eauto.
    - intros ?%sMembers_handleUserUnfollowed. eauto.
    - by apply Hv. }
  by destruct (dispatch db now st (routingKey msg) data) as [st' []].
Qed.

Lemma process_members_valid st events :
  redis_members_valid st → redis_members_valid (process st events).
Proof.
  revert st. induction events as [|[[db now] msg] events IH]; intros st Hv;
    simpl; [done|].
  by apply IH, handleEvent_members_valid.
Qed.

(** No handler deletes or rewrites the key of a cached page. *)
Lemma handleEvent_keeps_page db now st msg reader readerUuid offset limit :
  redis_members_valid st →
  fromString reader = Some readerUuid →
  redis_strings (handleEvent db now st msg).1 !! cacheKey reader offset limit =
  redis_strings st !! cacheKey reader offset limit.
Proof.
  intros Hv Hr. pose proof (fromString_length _ _ Hr) as Hlen.
  unfold handleEvent. destruct (content msg) as [| |data]; [done| |].
  { by case_decide. }
  cut (redis_strings (dispatch db now st (routingKey msg) data).1
         !! cacheKey reader offset limit =
       redis_strings st !! cacheKey reader offset limit).
  { by destruct (dispatch db now st (routingKey msg) data) as [st' []]. }
  unfold dispatch. repeat case_decide; try done.
  - destruct (fromString (postId data)) as [p|] eqn:Hp;
      [destruct (fromString (userId data)) as [a|] eqn:Ha|].
    + destruct (handlePostCreated_spec st data _ _ Hp Ha)
        as (_ & _ & _ & _ & _ & Hrt).
      rewrite Hrt, decide_False; [done|].
      intros (x & Hx & Hin)%elem_of_map. symmetry in Hx.
      apply feedCacheKey_not_cacheKey in Hx; [done| |done].
      by eapply allFollowers_length.
    + unfold handlePostCreated. by rewrite Hp, Ha.
    + unfold handlePostCreated. by rewrite Hp.
  - unfold handlePostDeleted.
    destruct (fromString (postId data)); [|done].
    by destruct (fromString (userId data)).
  - unfold handleUserFollowed.
    destruct (fromString (followerId data)) as [fu|] eqn:Hf; [|done].
    destruct (fromString (followingId data)) as [gu|] eqn:Hg; [|done].
    set (st4 := sAdd _ _ (sAdd _ _ _)).
    destruct (getUserPosts db (followingId data) 20) as [posts|]; [|done].
    destruct (backfill_rest fu gu posts st4) as (_ & _ & _ & Hrt).
    destruct (backfill fu gu posts st4) as [st5 []]; simpl in *;
      [|by rewrite Hrt].
    rewrite lookup_delete_ne, Hrt; [done|].
    apply feedCacheKey_not_cacheKey; [|done]. by eapply fromString_length.
  - unfold handleUserUnfollowed.
    destruct (fromString (followerId data)) as [fu|] eqn:Hf; [|done].
    destruct (fromString (followingId data)) as [gu|] eqn:Hg; [|done].
    simpl. rewrite lookup_delete_ne; [done|].
    apply feedCacheKey_not_cacheKey; [|done]. by eapply fromString_length.
Qed.

Lemma process_keeps_page st events reader readerUuid offset limit :
  redis_members_valid st →
  fromString reader = Some readerUuid →
  redis_strings (process st events) !! cacheKey reader offset limit =
  redis_strings st !! cacheKey reader offset limit.
Proof.
  intros Hv Hr. revert st Hv.
  induction events as [|[[db now] msg] events IH]; intros st Hv; simpl; [done|].
  rewrite IH by by apply handleEvent_members_valid.
  by eapply handleEvent_keeps_page.
Qed.

Lemma getPage_members_valid db now st reader offset limit :
  redis_members_valid st →
  redis_members_valid (getPage db now st reader offset limit).1.
Proof.
  intros Hv. unfold getPage.
  destruct (get st now _); [done|]. destruct (fromString reader); [|done].
  simpl. case_decide; [done|]. simpl.
  intros k S s Hk Hs. simpl in Hk.
  apply lookup_delete_Some in Hk as [_ Hk]. eauto.
Qed.

(** A call caches its answer, for [CACHE_TTL] seconds, when it assembles a
  page from a non-empty slice; a call answered from the cache leaves the
  entry as it is. *)
Lemma getPage_caches db now st reader readerUuid offset limit :
  fromString reader = Some readerUuid →
  let st1 := (getPage db now st reader offset limit).1 in
  let r := (getPage db now st reader offset limit).2 in
  let key := cacheKey reader offset limit in
  match get st now key with
  | Some _ =>
      ∃ expiry, redis_strings st1 !! key = Some (r, expiry) ∧ (now < expiry)%Z
  | None =>
      if decide (take limit (drop offset (partition st readerUuid)) = [])
      then st1 = st ∧ r = Page [] false None
      else redis_strings st1 !! key = Some (r, (now + 1000 * CACHE_TTL)%Z)
  end.
Proof.
  intros Hr st1 r key. destruct (get st now key) as [cached|] eqn:Hget.
  - subst st1 r. rewrite (getPage_hit _ _ _ _ _ _ _ Hget). simpl.
    unfold get in Hget. fold key in Hget.
    destruct (redis_strings st !! key) as [[v e]|]; [|done].
    case_decide; [|done]. simplify_eq. eauto.
  - subst st1 r. rewrite (getPage_miss _ _ _ _ _ _ _ Hget Hr).
    case_decide; [done|]. simpl. by rewrite lookup_insert_eq.
Qed.

(** C3, amended (cache staleness).  Let the members of the Redis follower
  sets be ids that parse and let the reader's id parse.  If a call of
  [getPage] leaves its answer cached under the page key, as it does when
  it is answered from the cache or assembles a page from a non-empty
  slice, then after any run of the consumer the entry is still there, and
  a second call for the same page before the entry expires returns the
  same answer and changes nothing: the keys the handlers delete are not
  page keys. *)
Theorem cached_page_survives_events db1 now1 st reader readerUuid offset limit
    answer expiry events db2 now2 :
  redis_members_valid st →
  fromString reader = Some readerUuid →
  let key := cacheKey reader offset limit in
  let st1 := (getPage db1 now1 st reader offset limit).1 in
  let st2 := process st1 events in
  (getPage db1 now1 st reader offset limit).2 = answer →
  redis_strings st1 !! key = Some (answer, expiry) →
  (now2 < expiry)%Z →
  redis_strings st2 !! key = Some (answer, expiry) ∧
  getPage db2 now2 st2 reader offset limit = (st2, answer).
Proof.
  intros Hv Hr key st1 st2 _ Hcached Hlive.
  assert (redis_strings st2 !! key = Some (answer, expiry)) as H2.
  { subst st2 key. erewrite process_keeps_page; [done| |done].
    by apply getPage_members_valid. }
  split; [done|]. apply getPage_hit. unfold get. fold key.
  rewrite H2. by rewrite decide_True.
Qed.

(** ** The backfill *)

#[local] Instance newer_first_total : Total newer_first.
Proof. intros p q. unfold newer_first. lia. Qed.

#[local] Instance newer_first_trans : Transitive newer_first.
Proof. intros p q o. unfold newer_first. lia. Qed.

Lemma partition_insert_feed u row st :
  partition (insert_feed u row st) u = upsert row (partition st u).
Proof. unfold partition at 1. simpl. by rewrite lookup_insert_eq. Qed.

Lemma recentPosts_sorted db u n :
  StronglySorted newer_first (recentPosts db u n).
Proof.
  unfold recentPosts.
  eapply (StronglySorted_app_1_l _ _ (drop n _)).
  rewrite take_drop. apply StronglySorted_merge_sort; apply _.
Qed.

Lemma elem_of_recentPosts db u n p :
  p ∈ recentPosts db u n → p ∈ db ∧ user_id p = u.
Proof.
  unfold recentPosts. intros (i & Hp & _)%elem_of_take.
  apply list_elem_of_lookup_2 in Hp.
  rewrite merge_sort_Permutation in Hp.
  apply list_elem_of_filter in Hp. tauto.
Qed.

Lemma length_recentPosts db u n :
  n ≤ length (filter (λ p, user_id p = u) db) →
  length (recentPosts db u n) = n.
Proof.
  intros Hn. unfold recentPosts. rewrite length_take.
  rewrite merge_sort_Permutation. lia.
Qed.

Lemma sorted_strict (posts : list Post) :
  StronglySorted newer_first posts →
  NoDup (post_created_at <$> posts) →
  StronglySorted strictly_newer_first posts.
Proof.
  induction posts as [|p posts IH]; [constructor|].
  rewrite fmap_cons, NoDup_cons.
  intros [Hp Hs]%StronglySorted_cons [Hnin Hnd].
  apply StronglySorted_cons. split; [|auto].
  apply Forall_forall. intros q Hq. rewrite Forall_forall in Hp.
  specialize (Hp _ Hq). unfold newer_first, strictly_newer_first in *.
  destruct (decide (post_created_at q = post_created_at p)) as [Heq|]; [|lia].
  exfalso. apply Hnin. rewrite <- Heq. by apply list_elem_of_fmap_2.
Qed.

Lemma backfill_partition followerUuid followingUuid posts st A P :
  partition st followerUuid = A ++ P →
  StronglySorted strictly_newer_first posts →
  Forall (λ x, Forall (λ p, (post_created_at p < created_at x)%Z) posts) A →
  Forall (λ x, Forall (λ p, (created_at x < post_created_at p)%Z) posts) P →
  (backfill followerUuid followingUuid posts st).2 = true ∧
  partition (backfill followerUuid followingUuid posts st).1 followerUuid =
    A ++ (rowOf followingUuid <$> posts) ++ P.
Proof.
  revert st A. induction posts as [|p posts IH]; intros st A HP Hs HA HPo.
  - simpl. by rewrite HP.
  - simpl. rewrite fromString_toString.
    apply StronglySorted_cons in Hs as [Hp Hs].
    fold (rowOf followingUuid p).
    destruct (IH (insert_feed followerUuid (rowOf followingUuid p) st)
                 (A ++ [rowOf followingUuid p])) as [Hok Hpart].
    + rewrite partition_insert_feed, HP, <- (assoc_L (++)). simpl.
      apply upsert_between.
      * eapply Forall_impl; [exact HA|]. simpl.
        intros x Hx. by apply Forall_cons in Hx as [? _].
      * eapply Forall_impl; [exact HPo|]. simpl.
        intros x Hx. by apply Forall_cons in Hx as [? _].
    + done.
    + apply Forall_app. split.
      * eapply Forall_impl; [exact HA|]. simpl.
        intros x Hx. by apply Forall_cons in Hx as [_ ?].
      * apply Forall_singleton. simpl. done.
    + eapply Forall_impl; [exact HPo|]. simpl.
      intros x Hx. by apply Forall_cons in Hx as [_ ?].
    + split; [done|]. rewrite Hpart. by rewrite <- (assoc_L (++)).
Qed.

Lemma getPost_find db p :
  NoDup (id <$> db) → p ∈ db → getPost db (toString (id p)) = Some p.
Proof.
  unfold getPost. rewrite fromString_toString.
  induction db as [|q db IH]; [by intros _ ?%elem_of_nil|].
  rewrite fmap_cons, NoDup_cons. intros [Hnin Hnd] Hin. simpl.
  destruct (decide (id q = id p)) as [Heq|Hne].
  - rewrite bool_decide_eq_true_2 by done. f_equal.
    apply elem_of_cons in Hin as [->|Hin]; [done|].
    exfalso. apply Hnin. rewrite Heq. by apply list_elem_of_fmap_2.
  - rewrite bool_decide_eq_false_2 by done.
    apply elem_of_cons in Hin as [->|Hin]; [done|]. auto.
Qed.

Lemma hydrate_rows db followingUuid posts :
  (∀ p, p ∈ posts → getPost db (toString (id p)) = Some p) →
  hydrate db (rowOf followingUuid <$> posts) = posts.
Proof.
  unfold hydrate. induction posts as [|p posts IH]; intros Hres; [done|].
  rewrite fmap_cons. simpl. rewrite Hres by apply list_elem_of_here.
  f_equal. apply IH. intros q Hq. apply Hres. by apply list_elem_of_further.
Qed.

(** C6, amended (backfill).  Let both ids of a user.followed event parse,
  let the followee have at least 20 posts, the 20 most recent with
  pairwise different timestamps, let post ids be unique, and let every row
  already in the follower's partition be older than these 20 posts.  Then
  the handler puts one row per post, keyed by the post's own created_at,
  in front of the rows the partition had; and a first page of 20 that is
  not answered from the cache returns exactly these 20 posts, newest
  first. *)
Theorem backfill_after_follow db now st data followerUuid followingUuid now' :
  fromString (followerId data) = Some followerUuid →
  fromString (followingId data) = Some followingUuid →
  let posts := recentPosts db followingUuid 20 in
  let st' := (handleUserFollowed db now st data).1 in
  20 ≤ length (filter (λ p, user_id p = followingUuid) db) →
  NoDup (id <$> db) →
  NoDup (post_created_at <$> posts) →
  Forall (λ x, Forall (λ p, (created_at x < post_created_at p)%Z) posts)
         (partition st followerUuid) →
  get st' now' (cacheKey (followerId data) 0 20) = None →
  length posts = 20 ∧
  StronglySorted strictly_newer_first posts ∧
  partition st' followerUuid =
    (rowOf followingUuid <$> posts) ++ partition st followerUuid ∧
  (getPage db now' st' (followerId data) 0 20).2 =
    Page posts (bool_decide (0 < length (partition st followerUuid)))
         (Some 20).
Proof.
  intros Hf Hg posts st' Hmany Hids Hts Holder Hmiss.
  assert (length posts = 20) as Hlen by by apply length_recentPosts.
  assert (StronglySorted strictly_newer_first posts) as Hstrict.
  { apply sorted_strict; [apply recentPosts_sorted|done]. }
  assert (partition st' followerUuid =
          (rowOf followingUuid <$> posts) ++ partition st followerUuid) as Hpart.
  { subst st'. unfold handleUserFollowed. rewrite Hf, Hg.
    unfold getUserPosts. rewrite Hg. fold posts.
    set (st4 := sAdd _ _ (sAdd _ _ _)).
    destruct (backfill_partition followerUuid followingUuid posts st4
                [] (partition st followerUuid)) as [Hok Hp]; try done.
    destruct (backfill followerUuid followingUuid posts st4) as [st5 b].
    simpl in Hok, Hp. subst b. exact Hp. }
  split; [done|]. split; [done|]. split; [done|].
  rewrite (getPage_miss _ _ _ _ _ _ _ Hmiss Hf). rewrite Hpart, drop_0.
  rewrite take_app_length' by by rewrite length_fmap.
  rewrite decide_False
    by (intros Hnil; apply (f_equal length) in Hnil;
        rewrite length_fmap, Hlen in Hnil; done).
  simpl. rewrite hydrate_rows.
  2: { intros p [Hin _]%elem_of_recentPosts. by apply getPost_find. }
  f_equal; [|by rewrite Hlen].
  unfold select_feed. rewrite Hpart.
  apply bool_decide_ext. rewrite length_take, length_app, length_fmap, Hlen.
  lia.
Qed.

(** ** No retention trim in [handlePostCreated] *)

Lemma length_upsert_fresh r l :
  (∀ x, x ∈ l → created_at x ≠ created_at r) →
  length (upsert r l) = S (length l).
Proof.
  induction l as [|y l IH]; intros Hfresh; simpl; [done|].
  destruct (decide (created_at y < created_at r)%Z); [done|].
  destruct (decide (created_at y = created_at r)) as [Heq|Hne].
  - exfalso. by apply (Hfresh y); [apply list_elem_of_here|].
  - simpl. rewrite IH; [done|]. intros x Hx. apply Hfresh.
    by apply list_elem_of_further.
Qed.

Lemma follower_of_handlePostCreated st data uid authorUuid f :
  follower_of (handlePostCreated st data).1 uid authorUuid f ↔
  follower_of st uid authorUuid f.
Proof.
  destruct (fromString (postId data)) as [p|] eqn:Hp;
    [destruct (fromString (userId data)) as [a|] eqn:Ha|].
  - destruct (handlePostCreated_spec st data _ _ Hp Ha)
      as (_ & _ & Hfs & _ & Hrs & _).
    unfold follower_of, sMembers. rewrite Hfs, Hrs.
    rewrite decide_False; [done|].
    intros (x & Hx & _)%elem_of_map.
    by apply followersKey_not_feedCacheKey in Hx.
  - unfold handlePostCreated. by rewrite Hp, Ha.
  - unfold handlePostCreated. by rewrite Hp.
Qed.

Lemma fan_out_never_evicts st events owner :
  (∀ d, d ∈ events → fans_out_to st d owner) →
  NoDup (createdAt <$> events) →
  (∀ d x, d ∈ events → x ∈ partition st owner →
          created_at x ≠ createdAt d) →
  let st' := publishAll st events in
  length (partition st' owner) = length (partition st owner) + length events ∧
  (∀ x, x ∈ partition st owner → x ∈ partition st' owner) ∧
  (∀ d, d ∈ events →
        ∃ x, x ∈ partition st' owner ∧ created_at x = createdAt d).
Proof.
  revert st. induction events as [|d ds IH]; intros st Hfan Hnd Hfresh.
  { simpl. split; [lia|]. split; [done|]. by intros d ?%elem_of_nil. }
  rewrite fmap_cons, NoDup_cons in Hnd. destruct Hnd as [Hd Hnd].
  destruct (Hfan d) as (p & a & Hp & Ha & Hto); [apply list_elem_of_here|].
  set (row := {| created_at := createdAt d; post_id := p; author_id := a |}).
  set (st1 := (handlePostCreated st d).1).
  assert (partition st1 owner = upsert row (partition st owner)) as Hst1.
  { subst st1. rewrite (partition_handlePostCreated _ _ _ _ _ Hp Ha).
    by rewrite decide_True by by apply elem_of_fanOutTargets. }
  destruct (IH st1) as (Hlen & Hkeep & Hall).
  - intros d' Hd'. destruct (Hfan d') as (p' & a' & Hp' & Ha' & Hto');
      [by apply list_elem_of_further|].
    exists p', a'. split; [done|]. split; [done|].
    destruct Hto' as [Hfo|]; [left|by right].
    by apply follower_of_handlePostCreated.
  - done.
  - intros d' x Hd' Hx. rewrite Hst1 in Hx.
    apply elem_of_upsert_inv in Hx as [->|Hx].
    + simpl. intros Heq. apply Hd. rewrite Heq. by apply list_elem_of_fmap_2.
    + apply Hfresh; [by apply list_elem_of_further|done].
  - simpl. fold st1. split; [|split].
    + rewrite Hlen, Hst1, length_upsert_fresh; [lia|].
      intros x Hx. by apply Hfresh; [apply list_elem_of_here|].
    + intros x Hx. apply Hkeep. rewrite Hst1. apply upsert_keeps; [done|].
      by apply Hfresh; [apply list_elem_of_here|].
    + intros d' [->|Hd']%elem_of_cons; [|by apply Hall].
      exists row. split; [|done]. apply Hkeep. rewrite Hst1.
      apply elem_of_upsert.
Qed.

End Properties.

(** * The Redis version: the retention trim *)

Module LegacyFacts.
Import Legacy.
Section LegacyFacts.
Variable stringify : string → string → Z → string.

Implicit Types (st : Legacy.State) (l : list (Z * string)) (k : string).

Lemma feedKey_inj a b : feedKey a = feedKey b → a = b.
Proof. apply string_app_inj_l. Qed.

Lemma zRange_setZset k l st k' :
  zRange (setZset k l st) k' = if decide (k = k') then l else zRange st k'.
Proof.
  unfold zRange at 1, setZset. simpl.
  destruct (decide (k = k')) as [<-|Hne]; destruct (decide (l = [])) as [->|Hl].
  - by rewrite lookup_delete_eq.
  - by rewrite lookup_insert_eq.
  - by rewrite lookup_delete_ne.
  - by rewrite lookup_insert_ne.
Qed.

Lemma zRange_zAdd k score member st k' :
  zRange (zAdd k score member st) k' =
  if decide (k = k')
  then zinsert (score, member) (filter (λ x, x.2 ≠ member) (zRange st k))
  else zRange st k'.
Proof. unfold zAdd. apply zRange_setZset. Qed.

(** [zRemRangeByRank key 0 -1001] keeps the 1000 entries of highest rank. *)
Lemma zRange_trim k st k' :
  zRange (zRemRangeByRank k 0 (-1001) st) k' =
  if decide (k = k')
  then drop (length (zRange st k) - 1000) (zRange st k)
  else zRange st k'.
Proof.
  unfold zRemRangeByRank. simpl.
  destruct (decide (Z.of_nat (length (zRange st k)) + -1001 < 0
                    ∨ Z.of_nat (length (zRange st k)) ≤ 0)%Z) as [Hfew|Hmany].
  - case_decide; [|done]. subst k'.
    replace (length (zRange st k) - 1000) with 0 by lia. done.
  - rewrite decide_False by lia. rewrite zRange_setZset.
    case_decide; [|done]. simpl. f_equal. lia.
Qed.

Lemma zRange_addToFeed timestamp feedItem followerId st k :
  zRange (addToFeed timestamp feedItem followerId st) k =
  if decide (feedKey followerId = k)
  then
    let added := zinsert (timestamp, feedItem)
                   (filter (λ x, x.2 ≠ feedItem) (zRange st k)) in
    drop (length added - 1000) added
  else zRange st k.
Proof.
  unfold addToFeed. rewrite zRange_trim.
  case_decide as Hk; [subst k|]; rewrite zRange_zAdd.
  - by rewrite decide_True.
  - by rewrite decide_False.
Qed.

Lemma length_zRange_addToFeed timestamp feedItem followerId st :
  length (zRange (addToFeed timestamp feedItem followerId st)
            (feedKey followerId)) ≤ 1000.
Proof.
  rewrite zRange_addToFeed, decide_True by done. simpl.
  rewrite length_drop. lia.
Qed.

Lemma foldr_addToFeed_bound timestamp feedItem (ids : list string) st t :
  t ∈ ids →
  length (zRange (foldr (addToFeed timestamp feedItem) st ids) (feedKey t))
  ≤ 1000.
Proof.
  induction ids as [|f ids IH]; [by intros ?%elem_of_nil|].
  intros Ht. simpl. destruct (decide (f = t)) as [->|Hne].
  - apply length_zRange_addToFeed.
  - rewrite zRange_addToFeed, decide_False by (by intros ?%feedKey_inj).
    apply elem_of_cons in Ht as [->|Ht]; [done|auto].
Qed.

(** The legacy handler leaves at most 1000 entries in every feed it
  writes to. *)
Lemma handlePostCreated_retention st data t :
  t ∈ targets st data →
  length (zRange (handlePostCreated stringify st data) (feedKey t)) ≤ 1000.
Proof.
  unfold targets, handlePostCreated. intros Ht.
  destruct (decide (userId data = t)) as [<-|Hne].
  { apply length_zRange_addToFeed. }
  rewrite zRange_addToFeed, decide_False by (by intros ?%feedKey_inj).
  unfold set_fold, compose. simpl. apply foldr_addToFeed_bound.
  apply elem_of_elements.
  apply elem_of_union in Ht as [Ht|Ht%elem_of_singleton]; [done|congruence].
Qed.

Lemma zinsert_by_score e l : by_score l → by_score (zinsert e l).
Proof.
  unfold by_score. induction l as [|x l IH]; simpl; intros Hl.
  - repeat constructor.
  - apply StronglySorted_cons in Hl as [Hx Hl].
    destruct (decide (ranks_before e x)) as [Hb|Hnb].
    + apply StronglySorted_cons. split; [|by apply StronglySorted_cons].
      assert (e.1 ≤ x.1)%Z by (destruct Hb as [?|[? _]]; lia).
      constructor; [done|]. eapply Forall_impl; [exact Hx|].
      simpl. intros; lia.
    + apply StronglySorted_cons. split; [|auto].
      assert (x.1 ≤ e.1)%Z.
      { unfold ranks_before in Hnb.
        destruct (decide (e.1 < x.1)%Z); [tauto|lia]. }
      clear IH Hl. induction Hx as [|y l Hy Hx IH]; simpl.
      * by constructor.
      * case_decide; repeat constructor; auto.
Qed.

Lemma filter_by_score (P : Z * string → Prop) `{∀ x, Decision (P x)} l :
  by_score l → by_score (filter P l).
Proof.
  unfold by_score. induction l as [|x l IH]; [done|].
  intros [Hx Hl]%StronglySorted_cons. rewrite filter_cons.
  case_decide; [|auto]. apply StronglySorted_cons. split; [|auto].
  apply Forall_forall. intros y [_ Hy]%list_elem_of_filter.
  rewrite Forall_forall in Hx. auto.
Qed.

(** The trim of the legacy service.  After the item is added to a feed
  kept by score, the feed is cut to its last 1000 entries: what is cut
  off is the front of the feed, every entry cut off has a score at most
  that of every entry kept, and the feed is still kept by score. *)
Lemma addToFeed_evicts_oldest timestamp feedItem followerId st :
  by_score (zRange st (feedKey followerId)) →
  let added := zinsert (timestamp, feedItem)
                 (filter (λ x, x.2 ≠ feedItem)
                    (zRange st (feedKey followerId))) in
  let kept := zRange (addToFeed timestamp feedItem followerId st)
                (feedKey followerId) in
  let evicted := take (length added - 1000) added in
  added = evicted ++ kept ∧
  length kept ≤ 1000 ∧
  (1000 < length added → evicted ≠ []) ∧
  by_score kept ∧
  ∀ e r, e ∈ evicted → r ∈ kept → (e.1 ≤ r.1)%Z.
Proof.
  intros Hs added kept evicted.
  assert (by_score added) as Ha by by apply zinsert_by_score, filter_by_score.
  assert (kept = drop (length added - 1000) added) as Hk.
  { subst kept. by rewrite zRange_addToFeed, decide_True by done. }
  assert (added = evicted ++ kept) as Hsplit.
  { subst evicted. by rewrite Hk, take_drop. }
  split; [done|]. split; [rewrite Hk, length_drop; lia|]. split; [|split].
  - intros Hlong Hnil. apply (f_equal length) in Hnil.
    subst evicted. rewrite length_take in Hnil. simpl in Hnil. lia.
  - unfold by_score in *. rewrite Hsplit in Ha.
    by apply StronglySorted_app_1_r in Ha.
  - intros e r He Hr. unfold by_score in Ha. rewrite Hsplit in Ha.
    by apply (StronglySorted_app_1_elem_of _ _ _ e r) in Ha.
Qed.

End LegacyFacts.
End LegacyFacts.

(** * The run, evaluated

  Instances of the theorems on the run of [Scenario], and the inputs on
  which the code and the specification part. *)

Module Instances.
Import CanonicalUuid Scenario.

(** ** The model at work *)

(** Closed statements are decided by evaluation. *)
Ltac by_evaluation :=
  cbv zeta; apply (bool_decide_unpack _); vm_compute; exact I.

Example fan_out_to_follower_and_author :
  partition st_published uBob = [row1] ∧
  partition st_published uAlice = [row1] ∧
  partition st_published uCarol = [].
Proof. by_evaluation. Qed.

Example first_page :
  (getPage [P1] 3 st_published bob 0 10).2 = Page [P1] false (Some 1).
Proof. by_evaluation. Qed.

Example page_after_retraction :
  (getPage [] 3 st_published bob 0 10).2 = Page [] false (Some 0).
Proof. by_evaluation. Qed.

Example publish_delivered_twice :
  let data := published post1 alice 100 in
  handlePostCreated (handlePostCreated st_followed data).1 data =
  handlePostCreated st_followed data.
Proof. by_evaluation. Qed.

Example page_after_expiry :
  (getPage [P1; P2] 120003
     (process (getPage [P1] 3 st_published bob 0 10).1 publishes_P2)
     bob 0 10).2 =
  Page [P2; P1] false (Some 2).
Proof. by_evaluation. Qed.

Lemma init_members_valid : redis_members_valid init.
Proof. intros k S s Hk. simpl in Hk. by rewrite lookup_empty in Hk. Qed.

Lemma st_published_members_valid : redis_members_valid st_published.
Proof. do 2 apply process_members_valid. exact init_members_valid. Qed.

(** ** Instances of the theorems *)

Lemma fan_out_completeness_witness :
  let data := published post1 alice 100 in
  let st' := (handlePostCreated st_followed data).1 in
  (handlePostCreated st_followed data).2 = Returned ∧
  (∀ f, follower_of st_followed alice uAlice f ∨ f = uAlice →
        row1 ∈ partition st' f) ∧
  (∀ u, ¬ follower_of st_followed alice uAlice u → u ≠ uAlice →
        user_feeds st' !! u = user_feeds st_followed !! u).
Proof.
  apply (fan_out_completeness st_followed (published post1 alice 100)
           uPost1 uAlice); reflexivity.
Defined.

Lemma cached_page_survives_events_witness :
  let st1 := (getPage [P1] 3 st_published bob 0 10).1 in
  let st2 := process st1 publishes_P2 in
  redis_strings st2 !! cacheKey bob 0 10 =
    Some (Page [P1] false (Some 1), 120003%Z) ∧
  getPage [P1; P2] 5000 st2 bob 0 10 = (st2, Page [P1] false (Some 1)).
Proof.
  apply (cached_page_survives_events [P1] 3 st_published bob uBob 0 10
           (Page [P1] false (Some 1)) 120003 publishes_P2 [P1; P2] 5000).
  - exact st_published_members_valid.
  - reflexivity.
  - by_evaluation.
  - by_evaluation.
  - reflexivity.
Defined.

Lemma getPage_assembles_page_witness :
  let fetched := select_feed st_published uBob (0 + 10 + 1) in
  let window := take 10 (drop 0 fetched) in
  let total := length (partition st_published uBob) in
  window = take 10 (drop 0 (partition st_published uBob)) ∧
  (total ≤ 0 ∨ 10 = 0 →
     getPage [P1] 3 st_published bob 0 10 =
       (st_published, Page [] false None)) ∧
  (0 < total → 0 < 10 →
     (getPage [P1] 3 st_published bob 0 10).2 =
       Page (hydrate [P1] window)
            (bool_decide (0 + 10 < length fetched))
            (Some (0 + length (hydrate [P1] window))) ∧
     bool_decide (0 + 10 < length fetched) = bool_decide (0 + 10 < total)).
Proof.
  apply (getPage_assembles_page [P1] 3 st_published bob uBob 0 10).
  - by_evaluation.
  - reflexivity.
Defined.


Lemma unfollow_keeps_feed_rows_witness :
  let st' := (handleUserUnfollowed st_published (follows bob alice)).1 in
  (uBob ∉ select_followers st' uAlice) ∧
  (uAlice ∉ select_following st' uBob) ∧
  (∀ edge, edge ≠ (uAlice, uBob) →
     user_followers st' !! edge = user_followers st_published !! edge) ∧
  (∀ edge, edge ≠ (uBob, uAlice) →
     user_following st' !! edge = user_following st_published !! edge) ∧
  (bob ∉ sMembers st' (followersKey alice)) ∧
  (alice ∉ sMembers st' (followingKey bob)) ∧
  user_feeds st' = user_feeds st_published ∧
  ∀ u, partition st' u = partition st_published u.
Proof.
  apply (unfollow_keeps_feed_rows st_published (follows bob alice)
           uBob uAlice); reflexivity.
Defined.

(** Two rows in Bob's partition, neither post resolves, page size 1. *)
Lemma hasMore_before_hydration_witness :
  let st := process st_published publishes_P2 in
  partition st uBob = [row2; row1] ∧
  (getPage [] 5 st bob 0 1).2 = Page [] true (Some 0) ∧
  0 < 0 + length (take 1 (drop 0 (select_feed st uBob (1 + 0 + 1)))).
Proof.
  split; [by_evaluation|].
  apply (hasMore_before_hydration [] 5 (process st_published publishes_P2)
           bob uBob 0 1).
  - by_evaluation.
  - reflexivity.
  - by_evaluation.
  - intros item _. unfold getPost. by destruct (fromString _).
  - by_evaluation.
Defined.

Lemma backfill_after_follow_witness :
  let posts := recentPosts db20 uAlice 20 in
  let st' := (handleUserFollowed db20 5000 init (follows bob alice)).1 in
  length posts = 20 ∧
  StronglySorted strictly_newer_first posts ∧
  partition st' uBob = (rowOf uAlice <$> posts) ++ partition init uBob ∧
  (getPage db20 6000 st' bob 0 20).2 =
    Page posts (bool_decide (0 < length (partition init uBob))) (Some 20).
Proof.
  apply (backfill_after_follow db20 5000 init (follows bob alice)
           uBob uAlice 6000).
  - reflexivity.
  - reflexivity.
  - by_evaluation.
  - by_evaluation.
  - by_evaluation.
  - by_evaluation.
  - by_evaluation.
Defined.

(** ** Where the specification and the code part *)

(** C3.  Bob's feed is empty at the first call, which caches nothing; two
  milliseconds later, after Alice's post.created event, the same page
  differs. *)
Lemma cache_staleness_counterexample :
  let first := getPage [] 2 st_followed bob 0 10 in
  let st' :=
    process first.1
      [([P1], 3%Z, event "post.created" (published post1 alice 100))] in
  let second := getPage [P1] 4 st' bob 0 10 in
  first.2 = Page [] false None ∧
  second.2 = Page [P1] false (Some 1) ∧
  first.2 ≠ second.2 ∧
  (4 - 2 < 1000 * CACHE_TTL)%Z.
Proof. by_evaluation. Qed.

(** C5.  With limit 0 one row is fetched, more than offset + limit = 0,
  and the answer has [hasMore: false]. *)
Lemma pagination_limit_zero_counterexample :
  let r := (getPage [P1] 3 st_published bob 0 0).2 in
  length (select_feed st_published uBob (0 + 0 + 1)) = 1 ∧
  r = Page [] false None ∧
  ¬ page_as_specified [P1] st_published uBob 0 0 r.
Proof. unfold page_as_specified. by_evaluation. Qed.

(** C6.  Bob's partition holds a row newer than Alice's posts; his first
  page of 20 after the follow starts with it and leaves out the oldest of
  the 20 posts of the backfill. *)
Lemma backfill_page_counterexample :
  let db := PB :: db20 in
  let st' := (handleUserFollowed db 5001 st_bob_posted (follows bob alice)).1 in
  let r := (getPage db 5002 st' bob 0 20).2 in
  20 ≤ length (filter (λ p, user_id p = uAlice) db) ∧
  r = Page (PB :: take 19 (recentPosts db uAlice 20)) true (Some 20) ∧
  ¬ backfill_page_as_specified db uAlice r.
Proof. unfold backfill_page_as_specified. by_evaluation. Qed.

(** C8.  A message whose payload does not parse is not acknowledged. *)
Lemma unparseable_counterexample :
  let msg := {| routingKey := "post.created"; content := Unparseable |} in
  (handleEvent [] 0 init msg).2 = NackRequeue ∧
  (handleEvent [] 0 init msg).2 ≠ Ack.
Proof. by_evaluation. Qed.

(** C2.  After 1001 post.created events of Alice, handled one after the
  other from the empty state, her partition holds 1001 rows, and the row
  with the smallest timestamp is one of them: [handlePostCreated] does no
  retention trim. *)
Lemma fan_out_keeps_all_rows :
  let st' := publishAll init (burst 1001) in
  length (partition st' uAlice) = 1001 ∧
  ∃ oldest, oldest ∈ partition st' uAlice ∧ created_at oldest = 1%Z.
Proof.
  cbv zeta.
  assert (partition init uAlice = []) as Hinit by by_evaluation.
  assert (Forall (λ i, is_Some (fromString (burstPost i))) (seq 1 1001))
    as Hids by by_evaluation.
  destruct (fan_out_never_evicts init (burst 1001) uAlice)
    as (Hlen & _ & Hall).
  - intros d (i & -> & Hi)%list_elem_of_fmap.
    rewrite Forall_forall in Hids. destruct (Hids i Hi) as [p Hp].
    exists p, uAlice. split; [exact Hp|]. split; [reflexivity|]. by right.
  - unfold burst. rewrite <- list_fmap_compose.
    apply NoDup_fmap_2; [|apply NoDup_seq].
    intros i j Hij. simpl in Hij. lia.
  - intros d x _ Hx. rewrite Hinit in Hx. by apply elem_of_nil in Hx.
  - split.
    + rewrite Hlen, Hinit. unfold burst. rewrite length_fmap, length_seq.
      reflexivity.
    + apply (Hall (published (burstPost 1) alice 1)). unfold burst.
      apply (list_elem_of_fmap_2' _ _ 1); [|done].
      apply elem_of_seq. lia.
Qed.

(** ** What the added conditions exclude *)

(** A page answered from the cache is the page as it was assembled: after
  P2 is published the cached first page of Bob still holds P1 only. *)
Example stale_page_from_cache :
  let st1 := (getPage [P1] 3 st_published bob 0 10).1 in
  let st2 := process st1 publishes_P2 in
  let r := (getPage [P1; P2] 5000 st2 bob 0 10).2 in
  r = Page [P1] false (Some 1) ∧
  ¬ page_as_specified [P1; P2] st2 uBob 0 10 r.
Proof. unfold page_as_specified. by_evaluation. Qed.

(** A member of Alice's Redis follower set that is Bob's id followed by
  ":0:10" makes her post.created event delete Bob's cached first page. *)
Example odd_member_evicts_page :
  let st1 := (getPage [P1] 3 st_odd_member bob 0 10).1 in
  let st2 := process st1 publishes_P2 in
  (getPage [P1] 3 st_odd_member bob 0 10).2 = Page [P1] false (Some 1) ∧
  redis_strings st2 !! cacheKey bob 0 10 = None ∧
  (getPage [P1; P2] 5000 st2 bob 0 10).2 = Page [P2; P1] false (Some 2).
Proof. by_evaluation. Qed.

(** After the follow, a first page cached before it is still served. *)
Example backfill_behind_cached_page :
  let db := POld :: db20 in
  let st1 := (getPage db 2 st_bob_old bob 0 20).1 in
  let st2 := (handleUserFollowed db 3 st1 (follows bob alice)).1 in
  length (partition st2 uBob) = 21 ∧
  (getPage db 4 st2 bob 0 20).2 = Page [POld] false (Some 1).
Proof. by_evaluation. Qed.

(** Two posts with one timestamp share a row: 19 rows for 20 posts. *)
Example backfill_same_timestamp :
  let st' := (handleUserFollowed db20_tie 5000 init (follows bob alice)).1 in
  length (recentPosts db20_tie uAlice 20) = 20 ∧
  length (partition st' uBob) = 19 ∧
  length (posts_of (getPage db20_tie 6000 st' bob 0 20).2) = 19.
Proof. by_evaluation. Qed.

End Instances.

(** * Further properties of the feed service *)

Section MoreProperties.
Context `{L : UuidLib} `{G : RedisGlob}.

Implicit Types (st : State) (u f g : Uuid) (k s : string).

(** ** The follow handlers *)

Lemma backfill_ok followerUuid followingUuid posts st :
  (backfill followerUuid followingUuid posts st).2 = true.
Proof.
  revert st. induction posts as [|p posts IH]; intros st; simpl; [done|].
  by rewrite fromString_toString.
Qed.

Lemma handleUserFollowed_eq db now st data f g :
  fromString (followerId data) = Some f →
  fromString (followingId data) = Some g →
  handleUserFollowed db now st data =
  (del (feedCacheKey (followerId data))
     (backfill f g (recentPosts db g 20)
        (sAdd (followersKey (followingId data)) (followerId data)
           (sAdd (followingKey (followerId data)) (followingId data)
              (insert_following f g now (insert_follower g f now st))))).1,
   Returned).
Proof.
  intros Hf Hg. unfold handleUserFollowed, getUserPosts. rewrite Hf, Hg.
  set (st4 := sAdd _ _ (sAdd _ _ _)).
  pose proof (backfill_ok f g (recentPosts db g 20) st4) as Hok.
  by destruct (backfill f g (recentPosts db g 20) st4) as [st5 []].
Qed.

Lemma handleUserFollowed_tables db now st data f g :
  fromString (followerId data) = Some f →
  fromString (followingId data) = Some g →
  let st' := (handleUserFollowed db now st data).1 in
  user_followers st' = <[(g, f) := now]> (user_followers st) ∧
  user_following st' = <[(f, g) := now]> (user_following st).
Proof.
  intros Hf Hg. rewrite (handleUserFollowed_eq _ _ _ _ _ _ Hf Hg). simpl.
  set (st4 := sAdd _ _ (sAdd _ _ _)).
  by destruct (backfill_rest f g (recentPosts db g 20) st4)
    as (-> & -> & _ & _).
Qed.

Lemma handleUserFollowed_sMembers db now st data f g k :
  fromString (followerId data) = Some f →
  fromString (followingId data) = Some g →
  k ≠ feedCacheKey (followerId data) →
  sMembers (handleUserFollowed db now st data).1 k =
  sMembers (sAdd (followersKey (followingId data)) (followerId data)
              (sAdd (followingKey (followerId data)) (followingId data) st)) k.
Proof.
  intros Hf Hg Hk. rewrite (handleUserFollowed_eq _ _ _ _ _ _ Hf Hg). simpl.
  rewrite sMembers_del, decide_False by done.
  set (st4 := sAdd _ _ (sAdd _ _ _)).
  destruct (backfill_rest f g (recentPosts db g 20) st4) as (_ & _ & Hrs & _).
  rewrite (sMembers_ext _ st4) by done. subst st4.
  rewrite !sMembers_sAdd.
  by rewrite !(sMembers_ext (insert_following _ _ _ _) st) by done.
Qed.

Lemma select_followers_insert st' st g f now :
  user_followers st' = <[(g, f) := now]> (user_followers st) →
  select_followers st' g = {[f]} ∪ select_followers st g ∧
  ∀ u, u ≠ g → select_followers st' u = select_followers st u.
Proof.
  intros Hins. split; [|intros u Hu]; apply set_eq; intros x;
    rewrite ?elem_of_union, ?elem_of_singleton, !elem_of_select_followers, Hins.
  - destruct (decide (x = f)) as [->|Hne].
    + rewrite lookup_insert_eq. split; [by left|eauto].
    + rewrite lookup_insert_ne by congruence. split; [by right|].
      by intros [?|?].
  - by rewrite lookup_insert_ne by congruence.
Qed.

Lemma select_following_insert st' st f g now :
  user_following st' = <[(f, g) := now]> (user_following st) →
  select_following st' f = {[g]} ∪ select_following st f ∧
  ∀ u, u ≠ f → select_following st' u = select_following st u.
Proof.
  intros Hins. split; [|intros u Hu]; apply set_eq; intros x;
    rewrite ?elem_of_union, ?elem_of_singleton, !elem_of_select_following, Hins.
  - destruct (decide (x = g)) as [->|Hne].
    + rewrite lookup_insert_eq. split; [by left|eauto].
    + rewrite lookup_insert_ne by congruence. split; [by right|].
      by intros [?|?].
  - by rewrite lookup_insert_ne by congruence.
Qed.

(** X1 (a follow is recorded in both directions).  When both ids of a
  user.followed event parse, the handler adds the follower to the
  followers of the followee and the followee to the following of the
  follower, in the ScyllaDB tables and in the two Redis sets, whatever
  the edge was before; the followers and the following of every other
  user are as they were. *)
Theorem follow_records_edge db now st data f g :
  fromString (followerId data) = Some f →
  fromString (followingId data) = Some g →
  let st' := (handleUserFollowed db now st data).1 in
  select_followers st' g = {[f]} ∪ select_followers st g ∧
  select_following st' f = {[g]} ∪ select_following st f ∧
  (∀ u, u ≠ g → select_followers st' u = select_followers st u) ∧
  (∀ u, u ≠ f → select_following st' u = select_following st u) ∧
  followerId data ∈ sMembers st' (followersKey (followingId data)) ∧
  followingId data ∈ sMembers st' (followingKey (followerId data)).
Proof.
  intros Hf Hg st'.
  destruct (handleUserFollowed_tables db now st data f g Hf Hg) as [Hfs Hfg].
  destruct (select_followers_insert _ _ _ _ _ Hfs) as [H1 H2].
  destruct (select_following_insert _ _ _ _ _ Hfg) as [H3 H4].
  split; [done|]. split; [done|]. split; [done|]. split; [done|].
  subst st'. split.
  - rewrite (handleUserFollowed_sMembers _ _ _ _ f g) by
      (done || apply followersKey_not_feedCacheKey).
    rewrite sMembers_sAdd, decide_True by done.
    apply elem_of_union_l. by apply elem_of_singleton.
  - rewrite (handleUserFollowed_sMembers _ _ _ _ f g) by
      (done || apply followingKey_not_feedCacheKey).
    rewrite sMembers_sAdd.
    case_decide as Hk; [rewrite <- Hk; apply elem_of_union_r|];
      rewrite sMembers_sAdd, decide_True by done;
      apply elem_of_union_l; by apply elem_of_singleton.
Qed.

Lemma string_app_suffix (s1 s2 t1 t2 : string) :
  String.length t1 = String.length t2 → s1 +:+ t1 = s2 +:+ t2 → t1 = t2.
Proof.
  intros Hlen. revert s2.
  induction s1 as [|a s1 IH]; intros [|b s2] Heq; simpl in *.
  - done.
  - apply (f_equal String.length) in Heq.
    rewrite !string_length_app in Heq. simpl in Heq.
    rewrite ?string_length_app in Heq. lia.
  - apply (f_equal String.length) in Heq.
    rewrite !string_length_app in Heq. simpl in Heq.
    rewrite ?string_length_app in Heq. lia.
  - injection Heq as _ Heq. eauto.
Qed.

Lemma followersKey_not_followingKey s1 s2 : followersKey s1 ≠ followingKey s2.
Proof.
  unfold followersKey, followingKey. intros Heq.
  apply string_app_inj_l in Heq.
  by apply string_app_suffix in Heq.
Qed.

(** ** Messages that are negatively acknowledged *)

Lemma handlePostCreated_threw st data :
  fromString (postId data) = None ∨ fromString (userId data) = None →
  handlePostCreated st data = (st, Threw).
Proof.
  unfold handlePostCreated. intros [->|Hu]; [done|].
  destruct (fromString (postId data)); by rewrite ?Hu.
Qed.



(** ** Following, unfollowing and the fan-out *)

(** X3 (a follow takes effect for the next post).  After a user.followed
  event whose ids parse, a post.created event of the followee puts its
  row in the partition of the new follower. *)
Theorem follow_then_publish db now st follow data f g postUuid :
  fromString (followerId follow) = Some f →
  fromString (followingId follow) = Some g →
  fromString (postId data) = Some postUuid →
  fromString (userId data) = Some g →
  let st1 := (handleUserFollowed db now st follow).1 in
  {| created_at := createdAt data; post_id := postUuid; author_id := g |}
    ∈ partition (handlePostCreated st1 data).1 f.
Proof.
  intros Hf Hg Hp Ha st1.
  rewrite (partition_handlePostCreated _ _ _ _ _ Hp Ha).
  rewrite decide_True; [apply elem_of_upsert|].
  apply elem_of_fanOutTargets; [done|]. left. left. subst st1.
  destruct (handleUserFollowed_tables db now st follow f g Hf Hg) as [-> _].
  by rewrite lookup_insert_eq.
Qed.

Lemma handleUserUnfollowed_eq st data f g :
  fromString (followerId data) = Some f →
  fromString (followingId data) = Some g →
  handleUserUnfollowed st data =
  (del (feedCacheKey (followerId data))
     (sRem (followersKey (followingId data)) (followerId data)
        (sRem (followingKey (followerId data)) (followingId data)
           (delete_following f g (delete_follower g f st)))),
   Returned).
Proof. intros Hf Hg. unfold handleUserUnfollowed. by rewrite Hf, Hg. Qed.

Lemma elem_of_sMembers_sRem k v st k' s :
  s ∈ sMembers (sRem k v st) k' → s ∈ sMembers st k' ∧ (k = k' → s ≠ v).
Proof.
  rewrite sMembers_sRem. case_decide as Hk.
  - subst k'. intros [Hin Hne]%elem_of_difference. split; [done|].
    intros _ ->. apply Hne. by apply elem_of_singleton.
  - done.
Qed.

(** X4 (an unfollow takes effect for the next post).  After a
  user.unfollowed event whose ids parse, a post.created event of the
  followee, carrying the followee's id as the unfollow event spelled it,
  leaves the partition of the former follower as it was, provided the
  two are different users and the Redis backup set of the followee holds
  no other spelling of the follower's id. *)
Theorem unfollow_then_publish st unfollow data f g :
  fromString (followerId unfollow) = Some f →
  fromString (followingId unfollow) = Some g →
  userId data = followingId unfollow →
  f ≠ g →
  (∀ s, s ∈ sMembers st (followersKey (followingId unfollow)) →
        fromString s = Some f → s = followerId unfollow) →
  let st1 := (handleUserUnfollowed st unfollow).1 in
  partition (handlePostCreated st1 data).1 f = partition st f.
Proof.
  intros Hf Hg Hid Hfg Honly st1.
  assert (partition st1 f = partition st f) as Hsame.
  { subst st1. by rewrite (handleUserUnfollowed_eq _ _ _ _ Hf Hg). }
  destruct (fromString (postId data)) as [postUuid|] eqn:Hp.
  2: { rewrite handlePostCreated_threw; [done|by left]. }
  assert (fromString (userId data) = Some g) as Ha by by rewrite Hid.
  rewrite (partition_handlePostCreated _ _ _ _ _ Hp Ha).
  rewrite decide_False; [done|].
  rewrite (elem_of_fanOutTargets _ _ _ _ Ha).
  intros [[Hrow|(s & Hs & Hsf)]|?]; [| |done].
  - subst st1. rewrite (handleUserUnfollowed_eq _ _ _ _ Hf Hg) in Hrow.
    simpl in Hrow. rewrite lookup_delete_eq in Hrow. by destruct Hrow.
  - subst st1. rewrite (handleUserUnfollowed_eq _ _ _ _ Hf Hg) in Hs.
    simpl in Hs. rewrite Hid, sMembers_del in Hs.
    case_decide; [by apply not_elem_of_empty in Hs|].
    apply elem_of_sMembers_sRem in Hs as [Hs Hne].
    apply elem_of_sMembers_sRem in Hs as [Hs _].
    rewrite (sMembers_ext _ st) in Hs by done.
    by apply Hne, Honly.
Qed.

Lemma partition_ext st st' u :
  user_feeds st = user_feeds st' → partition st u = partition st' u.
Proof. unfold partition. by intros ->. Qed.

Lemma backfill_feeds f g posts st :
  (∀ u, u ≠ f →
     partition (backfill f g posts st).1 u = partition st u) ∧
  partition (backfill f g posts st).1 f =
    foldl (λ l p, upsert (rowOf g p) l) (partition st f) posts.
Proof.
  revert st. induction posts as [|p posts IH]; intros st; simpl; [done|].
  rewrite fromString_toString. fold (rowOf g p).
  destruct (IH (insert_feed f (rowOf g p) st)) as [IH1 IH2]. split.
  - intros u Hu. rewrite IH1 by done. unfold partition. simpl.
    by rewrite lookup_insert_ne.
  - by rewrite IH2, partition_insert_feed.
Qed.

Lemma foldl_upsert_keeps g posts (l : list FeedRow) :
  (∀ x, x ∈ l →
     ∃ y, y ∈ foldl (λ l p, upsert (rowOf g p) l) l posts ∧
          created_at y = created_at x) ∧
  length l ≤ length (foldl (λ l p, upsert (rowOf g p) l) l posts)
    ≤ length l + length posts.
Proof.
  revert l. induction posts as [|p posts IH]; intros l; simpl.
  { split; [eauto|lia]. }
  destruct (IH (upsert (rowOf g p) l)) as [IH1 IH2]. split.
  - intros x Hx.
    destruct (decide (created_at x = created_at (rowOf g p))) as [Heq|Hne].
    + destruct (IH1 (rowOf g p)) as (y & Hy & Hcy); [apply elem_of_upsert|].
      exists y. split; [done|]. congruence.
    + apply IH1. by apply upsert_keeps.
  - pose proof (length_upsert_ge (rowOf g p) l).
    assert (length (upsert (rowOf g p) l) ≤ S (length l)) as Hle.
    { clear. induction l as [|y l IHl]; simpl; [done|].
      repeat case_decide; simpl; lia. }
    lia.
Qed.

Lemma foldl_upsert_clustered g posts (l : list FeedRow) :
  clustered l → clustered (foldl (λ l p, upsert (rowOf g p) l) l posts).
Proof.
  revert l. induction posts as [|p posts IH]; intros l Hc; simpl; [done|].
  by apply IH, upsert_clustered.
Qed.

Lemma handleUserFollowed_partition db now st data f g :
  fromString (followerId data) = Some f →
  fromString (followingId data) = Some g →
  let st' := (handleUserFollowed db now st data).1 in
  (∀ u, u ≠ f → partition st' u = partition st u) ∧
  partition st' f =
    foldl (λ l p, upsert (rowOf g p) l) (partition st f) (recentPosts db g 20).
Proof.
  intros Hf Hg. rewrite (handleUserFollowed_eq _ _ _ _ _ _ Hf Hg). simpl.
  set (st4 := sAdd _ _ (sAdd _ _ _)).
  destruct (backfill_feeds f g (recentPosts db g 20) st4) as [H1 H2].
  rewrite !(partition_ext (del _ _) (backfill f g (recentPosts db g 20) st4).1)
    by done.
  split.
  - intros u Hu. rewrite (partition_ext (del _ _) (backfill f g (recentPosts db g 20) st4).1)
      by done. by rewrite H1.
  - by rewrite H2.
Qed.

(** X5 (following and unfollowing again).  When a user.followed event
  whose ids parse records an edge that was in neither table, the
  user.unfollowed event for the same ids puts the two tables back as they
  were and the members of every follower and following set of Redis
  back as they were.  The feed is not put back: every timestamp the
  follower's partition had is still there, together with the rows of the
  backfill, at most 20 more. *)
Theorem follow_unfollow_round_trip db now st data f g :
  fromString (followerId data) = Some f →
  fromString (followingId data) = Some g →
  user_followers st !! (g, f) = None →
  user_following st !! (f, g) = None →
  followerId data ∉ sMembers st (followersKey (followingId data)) →
  followingId data ∉ sMembers st (followingKey (followerId data)) →
  let st1 := (handleUserFollowed db now st data).1 in
  let st2 := (handleUserUnfollowed st1 data).1 in
  user_followers st2 = user_followers st ∧
  user_following st2 = user_following st ∧
  (∀ uid, sMembers st2 (followersKey uid) = sMembers st (followersKey uid)) ∧
  (∀ uid, sMembers st2 (followingKey uid) = sMembers st (followingKey uid)) ∧
  partition st2 f =
    foldl (λ l p, upsert (rowOf g p) l) (partition st f) (recentPosts db g 20) ∧
  length (partition st f) ≤ length (partition st2 f)
    ≤ length (partition st f) + 20.
Proof.
  intros Hf Hg Hnf Hng Hsf Hsg st1 st2. subst st2 st1.
  destruct (handleUserFollowed_tables db now st data f g Hf Hg) as [Hfs Hfg].
  destruct (handleUserFollowed_partition db now st data f g Hf Hg) as [_ Hpart].
  set (st1 := (handleUserFollowed db now st data).1) in *.
  assert (∀ k, k ≠ feedCacheKey (followerId data) →
               sMembers (handleUserUnfollowed st1 data).1 k = sMembers st k)
    as Hsets.
  { intros k Hk.
    rewrite (handleUserUnfollowed_eq _ _ _ _ Hf Hg). simpl.
    rewrite sMembers_del, decide_False by done.
    rewrite !sMembers_sRem.
    rewrite !(sMembers_ext (delete_following _ _ _) st1) by done.
    subst st1.
    rewrite !(handleUserFollowed_sMembers _ _ _ _ f g)
      by (done || apply followersKey_not_feedCacheKey
               || apply followingKey_not_feedCacheKey).
    rewrite !sMembers_sAdd.
    rewrite !(decide_True (P := followersKey _ = followersKey _)) by done.
    rewrite !(decide_True (P := followingKey _ = followingKey _)) by done.
    rewrite !(decide_False (P := followersKey _ = followingKey _))
      by apply followersKey_not_followingKey.
    rewrite !(decide_False (P := followingKey _ = followersKey _))
      by (intros Heq; symmetry in Heq;
          by apply followersKey_not_followingKey in Heq).
    apply set_eq. intros s.
    repeat case_decide; subst; [| |done];
      rewrite elem_of_difference, elem_of_union, elem_of_singleton;
      (split; [tauto|]); intros Hs;
      (split; [tauto|]); by intros ->. }
  split; [|split; [|split; [|split]]].
  - rewrite (handleUserUnfollowed_eq _ _ _ _ Hf Hg). simpl.
    by rewrite Hfs, delete_insert_id.
  - rewrite (handleUserUnfollowed_eq _ _ _ _ Hf Hg). simpl.
    by rewrite Hfg, delete_insert_id.
  - intros uid. apply Hsets, followersKey_not_feedCacheKey.
  - intros uid. apply Hsets, followingKey_not_feedCacheKey.
  - assert (partition (handleUserUnfollowed st1 data).1 f = partition st1 f)
      as ->.
    { by rewrite (handleUserUnfollowed_eq _ _ _ _ Hf Hg). }
    split; [done|]. rewrite Hpart.
    pose proof (proj2 (foldl_upsert_keeps g (recentPosts db g 20)
                         (partition st f))).
    assert (length (recentPosts db g 20) ≤ 20).
    { unfold recentPosts. rewrite length_take. lia. }
    lia.
Qed.

(** ** The clustering key of a feed row *)

Lemma length_upsert_present r l x :
  clustered l → x ∈ l → created_at x = created_at r →
  length (upsert r l) = length l.
Proof.
  unfold clustered. induction l as [|y l IH]; intros Hc Hx Hk.
  { by apply elem_of_nil in Hx. }
  apply StronglySorted_cons in Hc as [Hy Hl]. rewrite Forall_forall in Hy.
  simpl. destruct (decide (created_at y < created_at r)%Z) as [Hlt|Hge].
  - exfalso. apply elem_of_cons in Hx as [->|Hx]; [lia|].
    specialize (Hy _ Hx). simpl in Hy. lia.
  - destruct (decide (created_at y = created_at r)) as [Heq|Hne]; [done|].
    simpl. f_equal. apply elem_of_cons in Hx as [->|Hx]; [congruence|].
    by apply IH.
Qed.

(** X6 (two posts of the same millisecond).  A feed row is keyed by its
  owner and its timestamp alone.  When a post.created event is fanned out
  to a user whose partition already holds a row with the timestamp of the
  event, of another post, that row is replaced: it is no longer in the
  partition, the row of the event is, and the partition has as many rows
  as before. *)
Theorem publish_replaces_same_timestamp st data postUuid authorUuid owner x :
  fromString (postId data) = Some postUuid →
  fromString (userId data) = Some authorUuid →
  follower_of st (userId data) authorUuid owner ∨ owner = authorUuid →
  clustered (partition st owner) →
  x ∈ partition st owner →
  created_at x = createdAt data →
  let row := {| created_at := createdAt data;
                post_id := postUuid; author_id := authorUuid |} in
  let st' := (handlePostCreated st data).1 in
  x ≠ row →
  (x ∉ partition st' owner) ∧ row ∈ partition st' owner ∧
  length (partition st' owner) = length (partition st owner).
Proof.
  intros Hp Ha Hto Hc Hx Hk row st' Hne. subst st'.
  rewrite (partition_handlePostCreated _ _ _ _ _ Hp Ha).
  rewrite decide_True by by apply elem_of_fanOutTargets.
  fold row. split; [|split].
  - intros Hin. apply Hne.
    apply (clustered_key_unique (upsert row (partition st owner)));
      [by apply upsert_clustered|done|apply elem_of_upsert|done].
  - apply elem_of_upsert.
  - by apply (length_upsert_present _ _ x).
Qed.

Lemma handleUserFollowed_clustered db now st data :
  all_clustered st → all_clustered (handleUserFollowed db now st data).1.
Proof.
  intros Hc u.
  destruct (fromString (followerId data)) as [f|] eqn:Hf;
    [destruct (fromString (followingId data)) as [g|] eqn:Hg|].
  - destruct (handleUserFollowed_partition db now st data f g Hf Hg)
      as [Hother Hown].
    destruct (decide (u = f)) as [->|Hu].
    + rewrite Hown. by apply foldl_upsert_clustered.
    + by rewrite Hother.
  - unfold handleUserFollowed. rewrite Hf, Hg. apply Hc.
  - unfold handleUserFollowed. rewrite Hf. apply Hc.
Qed.

Lemma handleUserUnfollowed_feeds st data :
  user_feeds (handleUserUnfollowed st data).1 = user_feeds st.
Proof.
  unfold handleUserUnfollowed.
  destruct (fromString (followerId data)); [|done].
  by destruct (fromString (followingId data)).
Qed.

Lemma handleEvent_clustered db now st msg :
  all_clustered st → all_clustered (handleEvent db now st msg).1.
Proof.
  intros Hc. unfold handleEvent.
  destruct (content msg) as [| |data]; [done|by case_decide|].
  assert (all_clustered (dispatch db now st (routingKey msg) data).1) as Hd.
  { unfold dispatch. repeat case_decide.
    - intros u. by apply handlePostCreated_clustered.
    - unfold handlePostDeleted.
      destruct (fromString (postId data)); [|done].
      by destruct (fromString (userId data)).
    - by apply handleUserFollowed_clustered.
    - intros u.
      rewrite (partition_ext _ st) by apply handleUserUnfollowed_feeds.
      apply Hc.
    - done. }
  by destruct (dispatch db now st (routingKey msg) data) as [st' []].
Qed.

(** X7 (one row per timestamp, always).  From stores in which every
  partition is in clustering order, the empty stores among them,
  whatever messages the consumer handles, every partition stays in
  clustering order: strictly newest first, so that no partition ever
  holds two rows with one timestamp. *)
Theorem process_keeps_clustering st events :
  all_clustered st →
  all_clustered (process st events) ∧
  ∀ u t, length (filter (λ x, created_at x = t)
                   (partition (process st events) u)) ≤ 1.
Proof.
  intros Hc. cut (all_clustered (process st events)).
  { intros Hc'. split; [done|]. intros u t.
    by apply clustered_one_row_per_key. }
  revert st Hc. induction events as [|[[db now] msg] events IH]; intros st Hc.
  - done.
  - simpl. by apply IH, handleEvent_clustered.
Qed.

(** ** The statistics of a user *)

Lemma size_add_new `{Countable A} (x : A) (X : gset A) :
  size ({[x]} ∪ X) = size X + (if decide (x ∈ X) then 0 else 1).
Proof.
  case_decide as Hx.
  - assert ({[x]} ∪ X = X) as ->; [|lia].
    apply set_eq. intros y. rewrite elem_of_union, elem_of_singleton.
    split; [by intros [->|?]|auto].
  - rewrite size_union, size_singleton; [lia|].
    intros y ->%elem_of_singleton. done.
Qed.

(** X8 (the statistics after a follow).  After a user.followed event whose
  ids parse, the statistics of the follower show one more followee when
  the edge is new and the same number when it was already recorded (a
  redelivered event is not counted twice); the feed size has grown by
  at most the 20 rows of the backfill; and the number of followers of the
  followee has changed in the same way as the follower's number of
  followees. *)
Theorem stats_after_follow db now st data f g before :
  fromString (followerId data) = Some f →
  fromString (followingId data) = Some g →
  getStats st (followerId data) = Some before →
  let st' := (handleUserFollowed db now st data).1 in
  ∃ after,
    getStats st' (followerId data) = Some after ∧
    followingCount after =
      followingCount before
      + (if decide (g ∈ select_following st f) then 0 else 1) ∧
    feedSize before ≤ feedSize after ≤ feedSize before + 20 ∧
    size (select_followers st' g) =
      size (select_followers st g)
      + (if decide (f ∈ select_followers st g) then 0 else 1).
Proof.
  intros Hf Hg Hb st'. unfold getStats in *. rewrite Hf in *.
  injection Hb as <-. eexists. split; [done|]. simpl. subst st'.
  destruct (handleUserFollowed_tables db now st data f g Hf Hg) as [Hfs Hfg].
  destruct (select_followers_insert _ _ _ _ _ Hfs) as [-> _].
  destruct (select_following_insert _ _ _ _ _ Hfg) as [-> _].
  destruct (handleUserFollowed_partition db now st data f g Hf Hg)
    as [_ ->].
  rewrite !size_add_new. split; [done|]. split; [|done].
  pose proof (proj2 (foldl_upsert_keeps g (recentPosts db g 20)
                       (partition st f))).
  assert (length (recentPosts db g 20) ≤ 20).
  { unfold recentPosts. rewrite length_take. lia. }
  lia.
Qed.

(** ** Refreshing the feed *)

Lemma string_app_assoc (s1 s2 s3 : string) :
  (s1 +:+ s2) +:+ s3 = s1 +:+ (s2 +:+ s3).
Proof.
  induction s1 as [|c s1 IH]; [done|].
  change (String c ((s1 +:+ s2) +:+ s3) = String c (s1 +:+ (s2 +:+ s3))).
  by f_equal.
Qed.

Lemma string_app_prefix (p1 p2 r1 r2 : string) :
  String.length p1 = String.length p2 → p1 +:+ r1 = p2 +:+ r2 → p1 = p2.
Proof.
  revert p2. induction p1 as [|a p1 IH]; intros [|b p2] Hlen Heq;
    simpl in *; try done.
  injection Heq as -> Heq. f_equal. apply IH; [lia|done].
Qed.

Lemma glob_literal_app (p q : string) :
  glob_literal (p +:+ q) = glob_literal p && glob_literal q.
Proof.
  induction p as [|c p IH]; simpl; [done|].
  by rewrite IH, andb_assoc.
Qed.

(** The literal part of the pattern of the refresh route. *)
Lemma refreshPattern_prefix uid :
  refreshPattern uid = ("feed_cache:" +:+ uid +:+ ":") +:+ "*".
Proof.
  unfold refreshPattern. by rewrite !string_app_assoc.
Qed.

Lemma cacheKey_prefix uid offset limit :
  cacheKey uid offset limit =
  ("feed_cache:" +:+ uid +:+ ":") +:+ (pretty offset +:+ ":" +:+ pretty limit).
Proof.
  unfold cacheKey. by rewrite !string_app_assoc.
Qed.

Lemma refresh_prefix_literal uid :
  glob_literal uid = true →
  glob_literal ("feed_cache:" +:+ uid +:+ ":") = true.
Proof.
  intros Hu. rewrite !glob_literal_app, Hu. done.
Qed.

Lemma foldr_del_any st (ks : list string) :
  let st' := foldr del st ks in
  user_feeds st' = user_feeds st ∧
  user_followers st' = user_followers st ∧
  user_following st' = user_following st ∧
  (∀ k, redis_sets st' !! k =
          if decide (k ∈ ks) then None else redis_sets st !! k) ∧
  (∀ k, redis_strings st' !! k =
          if decide (k ∈ ks) then None else redis_strings st !! k).
Proof.
  induction ks as [|x ks IH]; simpl in *.
  { repeat split; intros k; rewrite decide_False; try done;
      apply not_elem_of_nil. }
  destruct IH as (-> & -> & -> & Hsets & Hstr).
  repeat split; intros k.
  - destruct (decide (x = k)) as [->|Hne].
    + rewrite lookup_delete_eq, decide_True; [done|apply list_elem_of_here].
    + rewrite lookup_delete_ne, Hsets by done.
      destruct (decide (k ∈ ks)).
      * rewrite decide_True; [done|by apply list_elem_of_further].
      * rewrite decide_False; [done|].
        intros [?|?]%elem_of_cons; [congruence|done].
  - destruct (decide (x = k)) as [->|Hne].
    + rewrite lookup_delete_eq, decide_True; [done|apply list_elem_of_here].
    + rewrite lookup_delete_ne, Hstr by done.
      destruct (decide (k ∈ ks)).
      * rewrite decide_True; [done|by apply list_elem_of_further].
      * rewrite decide_False; [done|].
        intros [?|?]%elem_of_cons; [congruence|done].
Qed.

Lemma refreshFeed_spec st now uid :
  glob_literal uid = true →
  let st' := refreshFeed st now uid in
  let matched k :=
    k ∈ liveKeys st now ∧ ∃ rest, k = ("feed_cache:" +:+ uid +:+ ":") +:+ rest in
  user_feeds st' = user_feeds st ∧
  user_followers st' = user_followers st ∧
  user_following st' = user_following st ∧
  (∀ k, matched k → redis_sets st' !! k = None ∧ redis_strings st' !! k = None) ∧
  (∀ k, ¬ matched k →
        redis_sets st' !! k = redis_sets st !! k ∧
        redis_strings st' !! k = redis_strings st !! k).
Proof.
  intros Hu st' matched. subst st'. unfold refreshFeed, set_fold. simpl.
  destruct (foldr_del_any st (elements (keys st now (refreshPattern uid))))
    as (-> & -> & -> & Hsets & Hstr).
  assert (∀ k, k ∈ elements (keys st now (refreshPattern uid)) ↔ matched k)
    as Hin.
  { intros k. rewrite elem_of_elements. unfold keys, matched.
    rewrite elem_of_filter, refreshPattern_prefix.
    rewrite (stringmatch_prefix _ _ (refresh_prefix_literal uid Hu)). tauto. }
  repeat split; try done.
  - rewrite Hsets, decide_True; [done|]. by apply Hin.
  - rewrite Hstr, decide_True; [done|]. by apply Hin.
  - rewrite Hsets, decide_False; [done|]. by rewrite Hin.
  - rewrite Hstr, decide_False; [done|]. by rewrite Hin.
Qed.

Lemma get_expired st now k :
  k ∉ liveKeys st now → get st now k = None.
Proof.
  unfold liveKeys, get. rewrite elem_of_union, !elem_of_dom. intros Hk.
  destruct (redis_strings st !! k) as [[v e]|] eqn:Hs; [|done].
  case_decide; [|done]. exfalso. apply Hk. right.
  exists (v, e). by apply map_lookup_filter_Some.
Qed.

Lemma get_later st now now' k :
  (now ≤ now')%Z → get st now k = None → get st now' k = None.
Proof.
  unfold get. intros Hle.
  destruct (redis_strings st !! k) as [[v e]|]; [|done].
  repeat case_decide; try done. lia.
Qed.

(** X9 (a refresh empties the user's cache).  For a user id without
  pattern characters, after [POST /api/feed/refresh] handled at time
  [now], no page of that user is answered from the cache at any later
  time, whatever offset and limit: the next [GET /api/feed] of the user
  is assembled from [user_feeds], which the refresh has not touched. *)
Theorem refresh_clears_pages db st now uid u now' offset limit :
  glob_literal uid = true →
  fromString uid = Some u →
  (now ≤ now')%Z →
  let st' := refreshFeed st now uid in
  let window := take limit (drop offset (partition st u)) in
  get st' now' (cacheKey uid offset limit) = None ∧
  posts_of (getPage db now' st' uid offset limit).2 = hydrate db window ∧
  hasMore_of (getPage db now' st' uid offset limit).2 =
    bool_decide (window ≠ [] ∧ offset + limit < length (partition st u)).
Proof.
  intros Hlit Hu Hle st' window.
  destruct (refreshFeed_spec st now uid Hlit)
    as (Hfeeds & _ & _ & Hyes & Hno). fold st' in Hfeeds, Hyes, Hno.
  assert (get st' now' (cacheKey uid offset limit) = None) as Hmiss.
  { destruct (decide (cacheKey uid offset limit ∈ liveKeys st now)) as [Hl|Hl].
    - unfold get. destruct (Hyes (cacheKey uid offset limit)) as [_ ->]; [|done].
      split; [done|]. rewrite cacheKey_prefix. eauto.
    - apply (get_later _ now); [done|].
      unfold get. destruct (Hno (cacheKey uid offset limit)) as [_ ->].
      + by intros [? _].
      + by apply get_expired. }
  split; [done|].
  rewrite (getPage_miss _ _ _ _ _ _ _ Hmiss Hu).
  rewrite (partition_ext st' st) by done. fold window.
  case_decide as Hw; simpl.
  - rewrite Hw. split; [done|]. symmetry. apply bool_decide_eq_false_2.
    by intros [? _].
  - split; [done|]. unfold select_feed. rewrite hasMore_total.
    rewrite (partition_ext st' st) by done.
    apply bool_decide_ext. tauto.
Qed.

Lemma followersKey_not_page s p rest : followersKey s ≠ ("feed_cache:" +:+ p) +:+ rest.
Proof. unfold followersKey. simpl. discriminate. Qed.

Lemma followingKey_not_page s p rest : followingKey s ≠ ("feed_cache:" +:+ p) +:+ rest.
Proof. unfold followingKey. simpl. discriminate. Qed.

(** X10 (a refresh touches nothing else).  The refresh of a user leaves
  the three tables, the members of every follower and following set, and
  the cached pages of every other user as they were, for ids that
  parse. *)
Theorem refresh_keeps_the_rest st now uid u :
  glob_literal uid = true →
  fromString uid = Some u →
  let st' := refreshFeed st now uid in
  user_feeds st' = user_feeds st ∧
  user_followers st' = user_followers st ∧
  user_following st' = user_following st ∧
  (∀ s, sMembers st' (followersKey s) = sMembers st (followersKey s)) ∧
  (∀ s, sMembers st' (followingKey s) = sMembers st (followingKey s)) ∧
  (∀ other now' offset limit,
     is_Some (fromString other) → other ≠ uid →
     get st' now' (cacheKey other offset limit) =
     get st now' (cacheKey other offset limit)).
Proof.
  intros Hlit Hu st'.
  destruct (refreshFeed_spec st now uid Hlit)
    as (Hfeeds & Hfs & Hfg & _ & Hno). fold st' in Hfeeds, Hfs, Hfg, Hno.
  repeat split; try done.
  - intros s. unfold sMembers. destruct (Hno (followersKey s)) as [-> _]; [|done].
    intros [_ [rest Hk]]. by apply followersKey_not_page in Hk.
  - intros s. unfold sMembers. destruct (Hno (followingKey s)) as [-> _]; [|done].
    intros [_ [rest Hk]]. by apply followingKey_not_page in Hk.
  - intros other now' offset limit [o Ho] Hne. unfold get.
    destruct (Hno (cacheKey other offset limit)) as [_ ->]; [|done].
    intros [_ [rest Hk]]. apply Hne.
    rewrite cacheKey_prefix in Hk.
    apply string_app_prefix in Hk.
    + apply string_app_inj_l in Hk. apply string_app_prefix in Hk; [done|].
      by rewrite (fromString_length _ _ Ho), (fromString_length _ _ Hu).
    + rewrite !string_length_app.
      by rewrite (fromString_length _ _ Ho), (fromString_length _ _ Hu).
Qed.

(** ** The lifetime of a cached page *)

(** X11 (a page is cached for 120 seconds).  A page assembled at time
  [now] from a non-empty slice is answered unchanged, whatever the posts
  table has become, by every call for the same page before
  [now] + 120 000 ms; from that time on the stored page is ignored and
  the call is a cache miss again. *)
Theorem cached_page_lifetime db now st uid u offset limit db' now' :
  get st now (cacheKey uid offset limit) = None →
  fromString uid = Some u →
  take limit (drop offset (partition st u)) ≠ [] →
  let st1 := (getPage db now st uid offset limit).1 in
  let r := (getPage db now st uid offset limit).2 in
  ((now' < now + 120000)%Z →
     getPage db' now' st1 uid offset limit = (st1, r)) ∧
  ((now + 120000 ≤ now')%Z →
     get st1 now' (cacheKey uid offset limit) = None).
Proof.
  intros Hmiss Hu Hw st1 r. subst st1 r.
  rewrite (getPage_miss _ _ _ _ _ _ _ Hmiss Hu).
  rewrite decide_False by done. cbn [fst snd]. split; intros Ht.
  - apply getPage_hit. unfold get, setEx. cbn [redis_strings].
    rewrite lookup_insert_eq. unfold CACHE_TTL. rewrite decide_True; [done|lia].
  - unfold get, setEx. cbn [redis_strings].
    rewrite lookup_insert_eq. unfold CACHE_TTL. rewrite decide_False; [done|lia].
Qed.

(** ** The offset of the next page *)

Lemma length_hydrate_lt db (window : list FeedRow) item :
  item ∈ window → getPost db (toString (post_id item)) = None →
  length (hydrate db window) < length window.
Proof.
  unfold hydrate. induction window as [|x window IH]; intros Hin Hnone.
  { by apply elem_of_nil in Hin. }
  pose proof (length_hydrate db window) as Hle. unfold hydrate in Hle.
  simpl. unfold omap in IH, Hle.
  apply elem_of_cons in Hin as [<-|Hin].
  - rewrite Hnone. lia.
  - specialize (IH Hin Hnone).
    destruct (getPost db (toString (post_id x))); simpl; lia.
Qed.

(** X12 (a post that does not resolve makes the next page overlap).  On a
  cache miss, when a row of the slice resolves to no post, the offset in
  the answer is smaller than the position after the slice: a client that
  asks for the next page at that offset is served rows of the slice it
  has just read, before the rows that follow the slice. *)
Theorem next_page_overlaps db now st uid u offset limit item :
  get st now (cacheKey uid offset limit) = None →
  fromString uid = Some u →
  let window := take limit (drop offset (partition st u)) in
  item ∈ window →
  getPost db (toString (post_id item)) = None →
  ∃ posts hasMore next,
    (getPage db now st uid offset limit).2 = Page posts hasMore (Some next) ∧
    offset ≤ next < offset + length window ∧
    drop next (partition st u) =
      drop (next - offset) window ++ drop (offset + limit) (partition st u) ∧
    drop (next - offset) window ≠ [].
Proof.
  intros Hmiss Hu window Hin Hnone.
  rewrite (getPage_miss _ _ _ _ _ _ _ Hmiss Hu). fold window.
  rewrite decide_False by (intros Hw; rewrite Hw in Hin; by apply elem_of_nil in Hin).
  cbn [snd]. do 3 eexists. split; [done|].
  pose proof (length_hydrate_lt db window item Hin Hnone) as Hlt.
  split; [lia|]. split.
  - replace (offset + length (hydrate db window))
      with (offset + (length (hydrate db window))) by done.
    rewrite <- drop_drop.
    rewrite <- (take_drop limit (drop offset (partition st u))) at 1.
    fold window. rewrite drop_app_le by lia.
    rewrite drop_drop. do 2 f_equal. lia.
  - intros Hnil%drop_nil_inv. unfold not in *. lia.
Qed.

End MoreProperties.

(** * The auth middleware *)

Section AuthProperties.
Context {Claims : Type} (verify : string → option Claims).

Lemma split_no_sep sep s : no_sep sep s = true → split sep s = [s].
Proof.
  induction s as [|c s IH]; simpl; [done|].
  intros [Hc Hs]%andb_true_iff. apply negb_true_iff in Hc.
  apply bool_decide_eq_false in Hc.
  rewrite decide_False by done. by rewrite IH.
Qed.

Lemma split_field sep s rest :
  no_sep sep s = true →
  split sep (s +:+ String sep rest) = s :: split sep rest.
Proof.
  induction s as [|c s IH]; intros Hs.
  - change (EmptyString +:+ String sep rest) with (String sep rest).
    simpl. by rewrite decide_True.
  - simpl in Hs. apply andb_true_iff in Hs as [Hc Hs].
    apply negb_true_iff in Hc. apply bool_decide_eq_false in Hc.
    change (String c s +:+ String sep rest)
      with (String c (s +:+ String sep rest)).
    simpl. rewrite decide_False by done. by rewrite IH.
Qed.

(** X13 (the token is the second field of the header, whatever the
  first).  For a header made of a first field, a space and a token, both
  without a space and the token not empty, the middleware passes the
  token to [jwt.verify] and answers by its result alone: the scheme is
  not compared with [Bearer], and what follows a second space is
  ignored. *)
Theorem auth_token_is_second_field scheme token more :
  no_sep space scheme = true →
  no_sep space token = true →
  token ≠ EmptyString →
  let answer := match verify token with
                | Some decoded => Next Claims decoded
                | None => InvalidToken Claims
                end in
  authMiddleware Claims verify (Some (scheme +:+ String space token)) = answer ∧
  authMiddleware Claims verify
    (Some (scheme +:+ String space (token +:+ String space more))) = answer.
Proof.
  intros Hs Ht Hne answer. unfold authMiddleware.
  rewrite !split_field by done. rewrite split_no_sep by done. simpl.
  by rewrite decide_False.
Qed.

(** X14 (requests the middleware turns away before verifying).  A request
  without the header, a header without a space, even when it is a token
  that would verify, and a header whose first space is followed by a
  space or by nothing, are all answered 401 [No token provided]. *)
Theorem auth_no_token header scheme rest :
  no_sep space header = true →
  no_sep space scheme = true →
  authMiddleware Claims verify None = NoTokenProvided Claims ∧
  authMiddleware Claims verify (Some header) = NoTokenProvided Claims ∧
  authMiddleware Claims verify (Some (scheme +:+ String space EmptyString))
    = NoTokenProvided Claims ∧
  authMiddleware Claims verify
    (Some (scheme +:+ String space (String space rest)))
    = NoTokenProvided Claims.
Proof.
  intros Hh Hs. unfold authMiddleware. split; [done|].
  rewrite !split_field by done. rewrite split_no_sep by done. simpl.
  by repeat split.
Qed.

End AuthProperties.

(** * The user service: following and unfollowing *)

Module UserFacts.
Import UserService.
Section UserFacts.
Context `{L : UuidLib}.

Implicit Types (st : UserService.State) (x target : User) (u t : Uuid).

Lemma State_eta st :
  {| users := users st; follows := follows st;
     redis := redis st; published := published st |} = st.
Proof. by destruct st. Qed.

Lemma selectByUsername_fmap (f : User → User) name st st' :
  users st' = f <$> users st →
  (∀ x, username (f x) = username x) →
  selectByUsername st' name = f <$> selectByUsername st name.
Proof.
  intros Hus Hf. unfold selectByUsername. rewrite Hus. clear Hus.
  induction (users st) as [|x l IH]; [done|].
  rewrite fmap_cons. simpl. rewrite Hf.
  by destruct (bool_decide (username x = name)).
Qed.

Lemma updateUser_Some (f : User → option User) (g : User → User) u st :
  (∀ x, x ∈ users st → id x = u → f x = Some (g x)) →
  updateUser f u st =
  Some {| users := (λ x, if decide (id x = u) then g x else x) <$> users st;
          follows := follows st; redis := redis st;
          published := published st |}.
Proof.
  intros Hf. unfold updateUser.
  assert (mapM (λ x, if decide (id x = u) then f x else Some x) (users st) =
          Some ((λ x, if decide (id x = u) then g x else x) <$> users st))
    as ->; [|done].
  apply mapM_Some. apply Forall2_fmap_r, Forall_Forall2_diag, Forall_forall.
  intros x Hx. simpl. case_decide; auto.
Qed.

Lemma updateUser_published (f : User → option User) u st st' :
  updateUser f u st = Some st' → published st' = published st.
Proof.
  unfold updateUser. destruct (mapM _ (users st)); simpl; [|done].
  by intros [= <-].
Qed.

Lemma adjust_up c : in_range (c + 1) → adjust 1 None c = Some (c + 1)%Z.
Proof. intros Hc. unfold adjust. by rewrite decide_True. Qed.

Lemma adjust_down c :
  in_range (c - 1) → adjust (-1) (Some 0%Z) c = Some (Z.max (c - 1) 0).
Proof.
  intros Hc. unfold adjust. simpl.
  replace (c + -1)%Z with (c - 1)%Z by lia. by rewrite decide_True.
Qed.

(** The row of a user after an accepted follow request of [u] for [t]. *)
Lemma follow_Followed st userId name followId target u :
  selectByUsername st name = Some target →
  toString (id target) ≠ userId →
  fromString userId = Some u →
  u ∈ id <$> users st →
  (∀ x, x ∈ users st →
        in_range (following_count x + 1) ∧ in_range (followers_count x + 1)) →
  follow st userId name followId =
  ({| users :=
        (λ x, if decide (id x = id target)
              then withFollowers (followers_count x + 1) x else x) <$>
        ((λ x, if decide (id x = u)
               then withFollowing (following_count x + 1) x else x) <$>
         users st);
      follows :=
        if decide (Exists (λ f, follow_id f = followId ∨
                                (follower_id f = u ∧
                                 following_id f = id target)) (follows st))
        then follows st
        else {| follow_id := followId; follower_id := u;
                following_id := id target |} :: follows st;
      redis := delete (userKey (toString (id target)))
                 (delete (userKey userId) (redis st));
      published := published st ++
        [{| routingKey := "user.followed";
            content := JsonObject (edgeData userId (toString (id target))) |}]
   |}, Followed).
Proof.
  intros Ht Hself Hu Hin Hroom. unfold follow.
  rewrite Ht, decide_False, Hu by done.
  set (new := {| follow_id := followId; follower_id := u;
                 following_id := id target |}).
  assert (∃ st1, insertFollow followId u (id target) st = Some st1 ∧
                 users st1 = users st ∧ redis st1 = redis st ∧
                 published st1 = published st ∧
                 follows st1 =
                   if decide (Exists (λ f, follow_id f = followId ∨
                                  (follower_id f = u ∧
                                   following_id f = id target)) (follows st))
                   then follows st else new :: follows st)
    as (st1 & -> & Hus & Hre & Hpu & Hfo).
  { unfold insertFollow. case_decide as Hc.
    - exists st. rewrite decide_True by done. by repeat split.
    - rewrite decide_True by done. eexists. split; [done|].
      rewrite decide_False by done. by repeat split. }
  rewrite (updateUser_Some _ (λ x, withFollowing (following_count x + 1) x)).
  2: { intros x Hx _. unfold setFollowing. rewrite adjust_up; [done|].
       rewrite Hus in Hx. by apply Hroom. }
  rewrite (updateUser_Some _ (λ x, withFollowers (followers_count x + 1) x)).
  2: { simpl. intros x (y & -> & Hy)%list_elem_of_fmap _.
       unfold setFollowers. rewrite Hus in Hy.
       assert (followers_count
                 (if decide (id y = u)
                  then withFollowing (following_count y + 1) y else y) =
               followers_count y) as ->
         by (destruct (decide (id y = u)); reflexivity).
       rewrite adjust_up; [done|]. by apply Hroom. }
  simpl. by rewrite Hus, Hre, Hpu, Hfo.
Qed.

(** X15 (every accepted follow request counts).  When the target exists,
  is not the requester, the requester is a user, the counts have room
  and the id of the new row is fresh, the follow request is answered 200
  and the edge is in [follows]; following_count of the requester and
  followers_count of the target are incremented and a user.followed
  event is published in every such request, also when the edge was
  already there and [follows] is left as it was. *)
Theorem follow_counts_every_request st userId name followId target u :
  selectByUsername st name = Some target →
  toString (id target) ≠ userId →
  fromString userId = Some u →
  u ∈ id <$> users st →
  (∀ x, x ∈ users st →
        in_range (following_count x + 1) ∧ in_range (followers_count x + 1)) →
  followId ∉ follow_id <$> follows st →
  let st' := (follow st userId name followId).1 in
  (follow st userId name followId).2 = Followed ∧
  (u, id target) ∈ edges st' ∧
  ((u, id target) ∈ edges st → follows st' = follows st) ∧
  following_count <$> users st' =
    (λ x, if decide (id x = u) then following_count x + 1
          else following_count x)%Z <$> users st ∧
  followers_count <$> users st' =
    (λ x, if decide (id x = id target) then followers_count x + 1
          else followers_count x)%Z <$> users st ∧
  published st' = published st ++
    [{| routingKey := "user.followed";
        content := JsonObject (edgeData userId (toString (id target))) |}].
Proof.
  intros Ht Hself Hu Hin Hroom Hfresh st'. subst st'.
  rewrite (follow_Followed _ _ _ _ _ _ Ht Hself Hu Hin Hroom). cbn [fst snd].
  split; [done|]. cbn [users follows published].
  split; [|split; [|split; [|split]]].
  - unfold edges. cbn [follows]. case_decide as Hex.
    + apply Exists_exists in Hex as (f & Hf & [Hid|[<- <-]]).
      * exfalso. apply Hfresh. rewrite <- Hid. by apply list_elem_of_fmap_2.
      * by apply (list_elem_of_fmap_2 (λ f, (follower_id f, following_id f))).
    + rewrite fmap_cons. apply list_elem_of_here.
  - unfold edges. intros (f & [= Hf1 Hf2] & Hf)%list_elem_of_fmap.
    rewrite decide_True; [done|]. apply Exists_exists. exists f. auto.
  - rewrite <- !list_fmap_compose. apply list_fmap_ext. intros _ x _.
    simpl. by repeat case_decide.
  - rewrite <- !list_fmap_compose. apply list_fmap_ext. intros _ x _.
    simpl. repeat case_decide; simpl in *; done.
  - done.
Qed.

Lemma filter_is_edge_nil u t (l : list Follow) :
  (u, t) ∉ (λ f, (follower_id f, following_id f)) <$> l →
  filter (is_edge u t) l = [] ∧ filter (λ f, ¬ is_edge u t f) l = l.
Proof.
  induction l as [|f l IH]; [done|].
  rewrite fmap_cons, not_elem_of_cons. intros [Hne Hnin].
  destruct (IH Hnin) as [IH1 IH2].
  assert (¬ is_edge u t f) as Hf.
  { intros [<- <-]. done. }
  rewrite !filter_cons, decide_False, decide_True by done.
  by rewrite IH1, IH2.
Qed.

(** X16 (unfollowing someone one does not follow).  When the target
  exists and the requester's id parses but [follows] has no such edge,
  the unfollow request is answered 200 and changes nothing: no count is
  decremented, no event is published, no key is deleted. *)
Theorem unfollow_without_edge st userId name target u :
  selectByUsername st name = Some target →
  fromString userId = Some u →
  (u, id target) ∉ edges st →
  unfollow st userId name = (st, Unfollowed).
Proof.
  intros Ht Hu Hno. unfold unfollow. rewrite Ht, Hu.
  destruct (filter_is_edge_nil _ _ _ Hno) as [Hnil Hsame].
  rewrite Hnil. simpl. unfold deleteFollow. rewrite Hsame.
  by rewrite State_eta.
Qed.

(** X17 (following and unfollowing again, in the user service).  When a
  follow request adds a new edge, with a fresh row id, target and
  requester being users with counts from 0 up and with room, then the
  unfollow request of the same user for the same target is answered 200
  and puts [users] and [follows] back as they were; the two events have
  been published, user.followed before user.unfollowed. *)
Theorem follow_then_unfollow st userId name followId target u :
  selectByUsername st name = Some target →
  toString (id target) ≠ userId →
  fromString userId = Some u →
  u ∈ id <$> users st →
  (∀ x, x ∈ users st →
        (0 ≤ following_count x)%Z ∧ (0 ≤ followers_count x)%Z ∧
        in_range (following_count x + 1) ∧ in_range (followers_count x + 1)) →
  followId ∉ follow_id <$> follows st →
  (u, id target) ∉ edges st →
  let st1 := (follow st userId name followId).1 in
  let st2 := (unfollow st1 userId name).1 in
  (unfollow st1 userId name).2 = Unfollowed ∧
  users st2 = users st ∧
  follows st2 = follows st ∧
  published st2 = published st ++
    [{| routingKey := "user.followed";
        content := JsonObject (edgeData userId (toString (id target))) |};
     {| routingKey := "user.unfollowed";
        content := JsonObject (edgeData userId (toString (id target))) |}].
Proof.
  intros Ht Hself Hu Hin Hroom Hfresh Hno st1 st2. subst st2 st1.
  rewrite (follow_Followed _ _ _ _ _ _ Ht Hself Hu Hin)
    by (intros x Hx; destruct (Hroom x Hx); tauto).
  cbn [fst]. set (st1 := {| users := _ |}).
  set (up1 := λ x, if decide (id x = u)
                   then withFollowing (following_count x + 1) x else x).
  set (up2 := λ x, if decide (id x = id target)
                   then withFollowers (followers_count x + 1) x else x).
  assert (follows st1 =
          {| follow_id := followId; follower_id := u;
             following_id := id target |} :: follows st) as Hfo.
  { subst st1. cbn [follows]. rewrite decide_False; [done|].
    intros (f & Hf & [Hid|[Hf1 Hf2]])%Exists_exists.
    - apply Hfresh. rewrite <- Hid. by apply list_elem_of_fmap_2.
    - apply Hno. unfold edges. rewrite <- Hf1, <- Hf2.
      by apply (list_elem_of_fmap_2 (λ f, (follower_id f, following_id f))). }
  assert (selectByUsername st1 name = Some (up2 (up1 target))) as Ht1.
  { rewrite (selectByUsername_fmap (up2 ∘ up1) name st), Ht; [done|..].
    - subst st1. cbn [users]. by rewrite <- list_fmap_compose.
    - intros x. subst up1 up2. simpl. by repeat case_decide. }
  assert (id (up2 (up1 target)) = id target) as Hid.
  { subst up1 up2. simpl. by repeat case_decide. }
  unfold unfollow. rewrite Ht1, Hu, Hid.
  destruct (filter_is_edge_nil _ _ _ Hno) as [Hnil Hsame].
  assert (is_edge u (id target)
            {| follow_id := followId; follower_id := u;
               following_id := id target |}) as Hedge by done.
  rewrite Hfo, !filter_cons, (decide_True _ _ Hedge), Hnil. cbn [length].
  rewrite decide_True by lia.
  rewrite (updateUser_Some _
             (λ x, withFollowing (Z.max (following_count x - 1) 0) x)).
  2: { cbn [users deleteFollow]. subst st1. cbn [users].
       intros x (y & -> & (z & -> & Hz)%list_elem_of_fmap)%list_elem_of_fmap Hx.
       destruct (Hroom z Hz) as (H1 & H2 & H3 & H4).
       unfold setFollowing. rewrite adjust_down; [done|].
       subst up1 up2. unfold in_range, INT_MIN, INT_MAX in *.
       simpl in *. repeat case_decide; simpl in *; lia. }
  rewrite (updateUser_Some _
             (λ x, withFollowers (Z.max (followers_count x - 1) 0) x)).
  2: { cbn [users deleteFollow]. subst st1. cbn [users].
       intros x (w & -> & (y & -> & (z & -> & Hz)%list_elem_of_fmap)
                 %list_elem_of_fmap)%list_elem_of_fmap Hx.
       destruct (Hroom z Hz) as (H1 & H2 & H3 & H4).
       unfold setFollowers. rewrite adjust_down; [done|].
       subst up1 up2. unfold in_range, INT_MIN, INT_MAX in *.
       simpl in *. repeat case_decide; simpl in *; lia. }
  cbn [fst snd users follows published deleteFollow del publishEvent].
  split; [done|]. split; [|split].
  - subst st1. cbn [users]. rewrite <- !list_fmap_compose.
    rewrite <- (list_fmap_id (users st)) at 2.
    apply list_fmap_ext. intros _ x Hx%list_elem_of_lookup_2.
    destruct (Hroom x Hx) as (H1 & H2 & _).
    subst up1 up2. destruct x as [i n c1 c2]. simpl in *.
    unfold withFollowing, withFollowers.
    repeat case_decide; simpl in *; try done; f_equal; lia.
  - rewrite Hfo, filter_cons, decide_False by (intros Hn; by apply Hn).
    exact Hsame.
  - subst st1. cbn [published]. by rewrite <- (assoc_L (++)).
Qed.

(** X18 (an accepted follow reaches the feed service).  Whenever the
  follow route answers 200, it has published one message, and the feed
  service, handling that message in any state of its stores,
  acknowledges it and records the requester among the followers of the
  target and the target among the users the requester follows. *)
Theorem follow_reaches_feed st userId name followId db now feed :
  (follow st userId name followId).2 = Followed →
  ∃ target u msg,
    selectByUsername st name = Some target ∧
    fromString userId = Some u ∧
    published (follow st userId name followId).1 = published st ++ [msg] ∧
    (handleEvent db now feed msg).2 = Ack ∧
    u ∈ select_followers (handleEvent db now feed msg).1 (id target) ∧
    id target ∈ select_following (handleEvent db now feed msg).1 u.
Proof.
  unfold follow.
  destruct (selectByUsername st name) as [target|]; [|done].
  case_decide; [done|].
  destruct (fromString userId) as [u|] eqn:Hu; [|done].
  destruct (insertFollow followId u (id target) st) as [st1|] eqn:H1; [|done].
  destruct (updateUser _ u st1) as [st2|] eqn:H2; [|done].
  destruct (updateUser _ (id target) st2) as [st3|] eqn:H3; [|done].
  intros _. cbn [fst].
  assert (published st3 = published st) as Hpub.
  { rewrite (updateUser_published _ _ _ _ H3).
    rewrite (updateUser_published _ _ _ _ H2).
    unfold insertFollow in H1. repeat case_decide; by simplify_eq. }
  set (data := edgeData userId (toString (id target))).
  exists target, u, {| routingKey := "user.followed"; content := JsonObject data |}.
  split; [done|]. split; [done|]. split; [simpl; by rewrite Hpub|].
  assert (fromString (followerId data) = Some u) as Hf by done.
  assert (fromString (followingId data) = Some (id target)) as Hg
    by apply fromString_toString.
  assert (handleEvent db now feed
            {| routingKey := "user.followed"; content := JsonObject data |} =
          ((handleUserFollowed db now feed data).1, Ack)) as ->.
  { unfold handleEvent, dispatch. cbn [content routingKey].
    rewrite !decide_False, decide_True by done.
    pose proof (handleUserFollowed_outcome db now feed data) as Ho.
    by destruct (handleUserFollowed db now feed data) as [? []]. }
  cbn [fst snd]. split; [done|].
  destruct (handleUserFollowed_tables db now feed data u (id target) Hf Hg)
    as [Hfs Hfg].
  rewrite elem_of_select_followers, elem_of_select_following, Hfs, Hfg.
  by rewrite !lookup_insert_eq.
Qed.

End UserFacts.
End UserFacts.

(** * The post service *)

Module PostFacts.
Import PostService.
Section PostFacts.
Context `{L : UuidLib}.

Implicit Types (st : PostService.State) (r row : PostRow) (p u : Uuid).

Lemma updatePost_inv (f : PostRow → option PostRow) (g : PostRow → PostRow)
    p st st' :
  (∀ r r', f r = Some r' → r' = g r) →
  updatePost f p st = Some st' →
  st' = setPosts ((λ r, if decide (id (post r) = p) then g r else r) <$>
                    posts st) st.
Proof.
  intros Hf. unfold updatePost.
  destruct (mapM _ (posts st)) as [l|] eqn:Hm; simpl; [|done].
  intros [= <-]. f_equal. apply mapM_Some in Hm.
  induction Hm as [|r r' l l' Hr _ IH]; [done|].
  rewrite fmap_cons, IH. f_equal.
  case_decide; [by apply Hf|by simplify_eq].
Qed.

Lemma updatePost_Some (f : PostRow → option PostRow) (g : PostRow → PostRow)
    p st :
  (∀ r, r ∈ posts st → id (post r) = p → f r = Some (g r)) →
  updatePost f p st =
  Some (setPosts ((λ r, if decide (id (post r) = p) then g r else r) <$>
                    posts st) st).
Proof.
  intros Hf. unfold updatePost.
  assert (mapM (λ r, if decide (id (post r) = p) then f r else Some r)
            (posts st) =
          Some ((λ r, if decide (id (post r) = p) then g r else r) <$>
                  posts st)) as ->; [|done].
  apply mapM_Some. apply Forall2_fmap_r, Forall_Forall2_diag, Forall_forall.
  intros r Hr. simpl. case_decide; auto.
Qed.

Lemma updateLikesCount_inv p st st' :
  updateLikesCount p st = Some st' →
  st' = setPosts ((λ r, if decide (id (post r) = p)
                        then withLikes (countLikes st p) r else r) <$>
                    posts st) st.
Proof.
  apply updatePost_inv. intros r r'. case_decide; [|done]. by intros [= <-].
Qed.

Lemma selectPost_Some st p row :
  selectPost st p = Some row → row ∈ posts st ∧ id (post row) = p.
Proof.
  unfold selectPost. intros [Hin Hid]%find_some.
  split; [by apply list_elem_of_In|]. by apply bool_decide_eq_true in Hid.
Qed.

Lemma selectPost_None st p :
  selectPost st p = None ↔ p ∉ id <$> table st.
Proof.
  unfold selectPost, table. rewrite <- list_fmap_compose.
  induction (posts st) as [|r l IH]; simpl.
  - split; [intros _; apply not_elem_of_nil|done].
  - rewrite not_elem_of_cons. case_bool_decide as Hr.
    + split; [done|]. by intros [? _].
    + rewrite IH. split; [by split|tauto].
Qed.

Lemma selectPost_fmap (h : PostRow → PostRow) st st' p :
  posts st' = h <$> posts st →
  (∀ r, post (h r) = post r) →
  selectPost st' p = h <$> selectPost st p.
Proof.
  intros Hp Hh. unfold selectPost. rewrite Hp. clear Hp.
  induction (posts st) as [|r l IH]; [done|].
  rewrite fmap_cons. simpl. rewrite Hh.
  by destruct (bool_decide (id (post r) = p)).
Qed.

(** X19 (a like is counted once).  When the ids parse, the post exists,
  the id of the new row is fresh and the count fits the column, the like
  request is answered 200, the user has liked the post, and likes_count
  of the post is the number of its rows in [likes].  The same request
  again, whatever the new row id, leaves [posts] and [likes] as they
  are; it publishes post.liked once more. *)
Theorem like_counts_once st userId postId likeId p u row :
  fromString postId = Some p →
  fromString userId = Some u →
  selectPost st p = Some row →
  likeId ∉ like_id <$> likes st →
  (Z.of_nat (length (likes st)) < UserService.INT_MAX)%Z →
  let st1 := (likePost st userId postId likeId).1 in
  (likePost st userId postId likeId).2 = Done ∧
  liked st1 p u = true ∧
  (∀ r, r ∈ posts st1 → id (post r) = p → likes_count r = countLikes st1 p) ∧
  ∀ likeId',
    let st2 := (likePost st1 userId postId likeId').1 in
    (likePost st1 userId postId likeId').2 = Done ∧
    posts st2 = posts st1 ∧ likes st2 = likes st1 ∧
    published st2 = published st1 ++ [PostLiked postId userId].
Proof.
  intros Hp Hu Hrow Hfresh Hfit st1.
  set (new := {| like_id := likeId; like_post := p; like_user := u |}).
  set (likes1 := if decide (Exists (is_like p u) (likes st))
                 then likes st else new :: likes st).
  set (sti := setLikes likes1 st).
  assert (∀ sta, length (likes sta) ≤ S (length (likes st)) →
                 UserService.in_range (countLikes sta p)) as Hrange.
  { intros sta Hlen. unfold countLikes, UserService.in_range,
      UserService.INT_MIN, UserService.INT_MAX in *.
    pose proof (length_filter (λ l, like_post l = p) (likes sta)). lia. }
  set (h := λ sta r, if decide (id (post r) = p)
                     then withLikes (countLikes sta p) r else r).
  assert (∀ sta, length (likes sta) ≤ S (length (likes st)) →
            updateLikesCount p sta = Some (setPosts (h sta <$> posts sta) sta))
    as Hupd.
  { intros sta Hlen. unfold updateLikesCount.
    rewrite (updatePost_Some _ (withLikes (countLikes sta p))); [done|].
    intros r _ _. rewrite decide_True; [done|]. by apply Hrange. }
  assert (length likes1 ≤ S (length (likes st))) as Hlen1.
  { subst likes1. case_decide; simpl; lia. }
  assert (Exists (is_like p u) likes1) as Hliked.
  { subst likes1. case_decide; [done|]. by apply Exists_cons_hd. }
  assert (likePost st userId postId likeId =
          (del (postKey postId)
             (publishEvent (PostLiked postId userId)
                (setPosts (h sti <$> posts st) sti)), Done)) as Heq.
  { unfold likePost. rewrite Hp, Hrow, Hu. fold new.
    assert ((if decide (Exists (is_like p u) (likes st)) then Some st
             else if decide (likeId ∈ like_id <$> likes st) then None
             else Some (setLikes (new :: likes st) st)) = Some sti) as ->.
    { subst sti likes1. case_decide.
      - f_equal. by destruct st.
      - by rewrite decide_False. }
    by rewrite (Hupd sti Hlen1). }
  subst st1. rewrite Heq. cbn [fst snd].
  split; [done|]. split; [|split].
  - unfold liked. cbn [likes del publishEvent setPosts setLikes sti].
    by apply bool_decide_eq_true.
  - cbn [posts del publishEvent setPosts].
    intros r (r0 & -> & Hr0)%list_elem_of_fmap Hid. subst h. simpl in *.
    case_decide; [done|]. by destruct Hid.
  - intros likeId'.
    set (sta := del _ _).
    assert (likes sta = likes1) as Hl by done.
    assert (posts sta = h sti <$> posts st) as Hps by done.
    assert (selectPost sta p = Some (h sti row)) as Hrow'.
    { rewrite (selectPost_fmap (h sti) st), Hrow; [done|done|].
      intros r. subst h. simpl. by case_decide. }
    unfold likePost. rewrite Hp, Hrow', Hu.
    rewrite Hl, (decide_True _ _ Hliked).
    rewrite Hupd by (rewrite Hl; done). cbn [fst snd].
    split; [done|]. cbn [posts likes published del publishEvent setPosts].
    split; [|split; [done|done]].
    rewrite Hps, <- list_fmap_compose. apply list_fmap_ext.
    intros _ r _. subst h. simpl.
    assert (countLikes sta p = countLikes sti p) as -> by done.
    destruct (decide (id (post r) = p)) as [Hr|Hr]; simpl.
    + by rewrite decide_True.
    + by rewrite decide_False.
Qed.

Lemma NoDup_fmap_eq {A B} (f : A → B) (l : list A) x y :
  NoDup (f <$> l) → x ∈ l → y ∈ l → f x = f y → x = y.
Proof.
  induction l as [|z l IH]; [by intros _ ?%elem_of_nil|].
  rewrite fmap_cons, NoDup_cons. intros [Hz Hl] Hx Hy Hf.
  apply elem_of_cons in Hx as [->|Hx]; apply elem_of_cons in Hy as [->|Hy].
  - done.
  - exfalso. apply Hz. rewrite Hf. by apply list_elem_of_fmap_2.
  - exfalso. apply Hz. rewrite <- Hf. by apply list_elem_of_fmap_2.
  - by apply IH.
Qed.

Lemma row_unique st p row r :
  NoDup (id <$> table st) → selectPost st p = Some row →
  r ∈ posts st → id (post r) = p → r = row.
Proof.
  intros Hnd [Hrow Hid]%selectPost_Some Hr Hrid.
  unfold table in Hnd. rewrite <- list_fmap_compose in Hnd.
  apply (NoDup_fmap_eq _ _ _ _ Hnd Hr Hrow). simpl. congruence.
Qed.

Lemma get_deleted (m : gmap string (PostRow * Z)) k1 k2 now st :
  redis st = delete k2 (delete k1 m) → get st now k1 = None.
Proof.
  intros Hr. unfold get. rewrite Hr.
  destruct (decide (k2 = k1)) as [->|Hne].
  - by rewrite lookup_delete_eq.
  - by rewrite lookup_delete_ne, lookup_delete_eq.
Qed.

(** X20 (only the owner deletes a post).  For a post that exists, ids
  that parse and a [posts] table with unique ids: a delete request of
  another user is answered 404 and changes nothing; a delete request of
  the owner is answered 200, after which the post is gone, every other
  post is still there, the likes and comments of the post are gone and
  no other, post.deleted has been published, and the post is not found
  by [GET /api/posts/:postId] under the id of the request at any time,
  its cache entry being dropped. *)
Theorem delete_only_by_owner st userId postId p u row :
  fromString postId = Some p →
  fromString userId = Some u →
  selectPost st p = Some row →
  NoDup (id <$> table st) →
  (user_id (post row) ≠ u → deletePost st userId postId = (st, NotFound)) ∧
  (user_id (post row) = u →
     let st' := (deletePost st userId postId).1 in
     (deletePost st userId postId).2 = Done ∧
     selectPost st' p = None ∧
     (∀ r, r ∈ posts st → id (post r) ≠ p → r ∈ posts st') ∧
     (∀ l, l ∈ likes st' ↔ l ∈ likes st ∧ like_post l ≠ p) ∧
     (∀ c, c ∈ comments st' ↔ c ∈ comments st ∧ comment_post c ≠ p) ∧
     published st' = published st ++ [PostDeleted postId userId] ∧
     ∀ now user, (getPostById st' now postId user).2 = NotFound).
Proof.
  intros Hp Hu Hrow Hnd.
  destruct (selectPost_Some _ _ _ Hrow) as [Hin Hid]. split.
  - intros Hother. unfold deletePost. rewrite Hp, Hu.
    rewrite decide_False; [done|].
    intros (r & Hr & Hrid & Hru)%Exists_exists.
    by rewrite (row_unique st p row r) in Hru.
  - intros Hown st'. subst st'. unfold deletePost. rewrite Hp, Hu.
    rewrite decide_True.
    2: { apply Exists_exists. by exists row. }
    cbn [fst snd]. split; [done|].
    set (st' := del _ _).
    assert (selectPost st' p = None) as Hgone.
    { apply selectPost_None. unfold table. rewrite <- list_fmap_compose.
      intros (r & Hrid & Hr)%list_elem_of_fmap.
      subst st'. cbn [posts del publishEvent] in Hr.
      apply list_elem_of_filter in Hr as [Hnot Hr]. apply Hnot.
      simpl in Hrid. symmetry in Hrid.
      by rewrite (row_unique st p row r). }
    split; [done|]. split; [|split; [|split; [|split]]].
    + intros r Hr Hne. subst st'. cbn [posts del publishEvent].
      apply list_elem_of_filter. split; [|done]. by intros [? _].
    + intros l. subst st'. cbn [likes del publishEvent].
      rewrite list_elem_of_filter. tauto.
    + intros c. subst st'. cbn [comments del publishEvent].
      rewrite list_elem_of_filter. tauto.
    + done.
    + intros now user. unfold getPostById.
      rewrite (get_deleted (redis st) _ (userPostsKey userId)) by done.
      by rewrite Hp, Hgone.
Qed.

Lemma countLikes_pos sta p u :
  Exists (is_like p u) (likes sta) → (0 < countLikes sta p)%Z.
Proof.
  intros (l & Hl & Hp & _)%Exists_exists. unfold countLikes.
  assert (l ∈ filter (λ l, like_post l = p) (likes sta)) as Hin
    by by apply list_elem_of_filter.
  destruct (filter _ (likes sta)); [by apply elem_of_nil in Hin|simpl; lia].
Qed.

(** X21 (a like is seen by the next read).  Whenever a like request is
  answered 200, a [GET /api/posts/:postId] of the same user under the
  same id, at any time after it, is answered from the table, not from
  the cache: with the row whose likes_count is the number of likes of
  the post, at least 1, and with liked_by_user true. *)
Theorem like_then_get st userId postId likeId now :
  (likePost st userId postId likeId).2 = Done →
  let st1 := (likePost st userId postId likeId).1 in
  ∃ p row,
    fromString postId = Some p ∧
    selectPost st1 p = Some row ∧
    likes_count row = countLikes st1 p ∧
    (0 < likes_count row)%Z ∧
    (getPostById st1 now postId (Some userId)).2 = Found row (Some true).
Proof.
  unfold likePost.
  destruct (fromString postId) as [p|] eqn:Hp; [|done].
  destruct (selectPost st p) as [row|] eqn:Hrow; [|done].
  destruct (fromString userId) as [u|] eqn:Hu; [|done].
  set (new := {| like_id := likeId; like_post := p; like_user := u |}).
  set (inserted := if decide (Exists (is_like p u) (likes st)) then _ else _).
  destruct inserted as [sti|] eqn:Hins; [|done].
  assert (posts sti = posts st ∧ Exists (is_like p u) (likes sti))
    as [Hps Hliked].
  { subst inserted. repeat case_decide; simplify_eq; [done|].
    split; [done|]. by apply Exists_cons_hd. }
  destruct (updateLikesCount p sti) as [st2|] eqn:Hupd; [|done].
  apply updateLikesCount_inv in Hupd. intros _. cbn [fst].
  set (h := λ r, if decide (id (post r) = p)
                 then withLikes (countLikes sti p) r else r) in Hupd.
  set (st1 := del _ _).
  assert (likes st1 = likes sti) as Hl by by subst st2.
  assert (posts st1 = h <$> posts st) as Hposts
    by (subst st2; by rewrite <- Hps).
  assert (selectPost st1 p = Some (h row)) as Hrow1.
  { rewrite (selectPost_fmap h st), Hrow; [done|done|].
    intros r. subst h. simpl. by case_decide. }
  assert (countLikes st1 p = countLikes sti p) as Hc
    by (unfold countLikes; by rewrite Hl).
  destruct (selectPost_Some _ _ _ Hrow) as [_ Hid].
  assert (likes_count (h row) = countLikes sti p) as Hcount.
  { subst h. simpl. by rewrite decide_True. }
  exists p, (h row). split; [done|]. split; [done|].
  split; [by rewrite Hc|]. split.
  { rewrite Hcount. by apply (countLikes_pos sti p u). }
  unfold getPostById.
  assert (get st1 now (postKey postId) = None) as ->.
  { unfold get. subst st1. cbn [redis del]. by rewrite lookup_delete_eq. }
  rewrite Hp, Hrow1. unfold likedByUser. rewrite Hp, Hu. simpl.
  do 3 f_equal. unfold liked. cbn [likes setEx].
  apply bool_decide_eq_true. by rewrite Hl.
Qed.

Lemma find_fmap_post (P : Post → bool) (l : list PostRow) :
  List.find P (post <$> l) = post <$> List.find (λ r, P (post r)) l.
Proof.
  induction l as [|r l IH]; [done|].
  rewrite fmap_cons. simpl. by destruct (P (post r)).
Qed.

(** X22 (a read that misses the cache is a read of the table).  When
  the cache has no live entry for the id of the request,
  [GET /api/posts/:postId] answers 200 with the row of the post exactly
  when the table holds a post with that id, which is then the post of
  the row; otherwise it answers 404, or 500 for an id that is not a
  UUID.  This is the lookup the feed service relies on to resolve the
  rows of a page. *)
Theorem get_on_miss_reads_table st now postId :
  get st now (postKey postId) = None →
  match getPost (table st) postId with
  | Some found =>
      ∃ row, (getPostById st now postId None).2 = Found row None ∧
             post row = found ∧ row ∈ posts st
  | None =>
      (getPostById st now postId None).2 = NotFound ∨
      (getPostById st now postId None).2 = InternalServerError
  end.
Proof.
  intros Hmiss. unfold getPostById, getPost. rewrite Hmiss.
  destruct (fromString postId) as [p|]; [|by right].
  unfold table. rewrite find_fmap_post. fold (selectPost st p).
  destruct (selectPost st p) as [row|] eqn:Hrow; simpl; [|by left].
  exists row. split; [done|]. split; [done|].
  by apply selectPost_Some in Hrow as [? _].
Qed.

Lemma find_snoc_fresh {A} (P : A → bool) (l : list A) x :
  (∀ y, y ∈ l → P y = false) → P x = true →
  List.find P (l ++ [x]) = Some x.
Proof.
  intros Hl Hx. induction l as [|y l IH]; simpl; [by rewrite Hx|].
  rewrite (Hl y) by apply list_elem_of_here.
  apply IH. intros z Hz. apply Hl. by apply list_elem_of_further.
Qed.

(** X23 (a created post reaches the feeds).  Whenever the create route
  answers 201 with a row, the last event published is post.created for
  that row; the feed service, handling it in any state of its stores,
  acknowledges it and puts the row of the post, with the post's own
  created_at, in the partition of the author and of every user recorded
  in [user_followers] as a follower of the author; and the lookup by
  which the feed service resolves the row finds the post in the table. *)
Theorem created_post_reaches_feed st author text mediaUrls newId now row
    db' now' feed :
  (createPost st author text mediaUrls newId now).2 = Created row →
  let st' := (createPost st author text mediaUrls newId now).1 in
  ∃ event,
    last (published st') = Some event ∧
    id (post row) = newId ∧
    post_created_at (post row) = now ∧
    fromString author = Some (user_id (post row)) ∧
    (handleEvent db' now' feed (toMsg event)).2 = Ack ∧
    (∀ f, is_Some (user_followers feed !! (user_id (post row), f)) ∨
          f = user_id (post row) →
          {| created_at := now; post_id := newId;
             author_id := user_id (post row) |}
            ∈ partition (handleEvent db' now' feed (toMsg event)).1 f) ∧
    getPost (table st') (toString newId) = Some (post row).
Proof.
  unfold createPost.
  destruct mediaUrls as [[|url urls]|]; [done| |done].
  destruct (fromString author) as [u|] eqn:Hu; [|done].
  case_decide as Hfresh; [done|]. cbn [fst snd]. intros [= <-].
  exists (PostCreated (toString newId) (toString u) now).
  cbn [post id user_id post_created_at published del publishEvent setPosts].
  split; [by rewrite last_snoc|]. split; [done|]. split; [done|].
  split; [done|].
  set (data := {| postId := toString newId; userId := toString u;
                  createdAt := now; followerId := ""; followingId := "" |}).
  assert (fromString (postId data) = Some newId) as Hpd
    by apply fromString_toString.
  assert (fromString (userId data) = Some u) as Hud
    by apply fromString_toString.
  assert (handleEvent db' now' feed (toMsg (PostCreated (toString newId)
            (toString u) now)) = ((handlePostCreated feed data).1, Ack)) as ->.
  { unfold handleEvent, dispatch, toMsg. cbn [content routingKey].
    rewrite decide_True by done. fold data.
    destruct (handlePostCreated_spec feed data newId u Hpd Hud) as (Hret & _).
    by destruct (handlePostCreated feed data) as [? []]. }
  cbn [fst snd]. split; [done|]. split.
  - intros f Hf.
    rewrite (partition_handlePostCreated feed data newId u f Hpd Hud).
    rewrite decide_True; [apply elem_of_upsert|].
    apply elem_of_fanOutTargets; [done|].
    destruct Hf as [Hf| ->]; [left; by left|by right].
  - unfold getPost. rewrite fromString_toString.
    unfold table. cbn [posts del publishEvent setPosts]. rewrite fmap_app.
    apply find_snoc_fresh; [|by apply bool_decide_eq_true].
    intros y Hy. apply bool_decide_eq_false. intros Hyid.
    apply Hfresh. rewrite <- Hyid. by apply list_elem_of_fmap_2.
Qed.

(** ** The counts of a post *)

Lemma counts_exact_ext st st' :
  posts st' = posts st → likes st' = likes st → comments st' = comments st →
  counts_exact st → counts_exact st'.
Proof.
  intros Hp Hl Hc.
  unfold counts_exact, table, countLikes, countComments.
  by rewrite Hp, Hl, Hc.
Qed.

Lemma NoDup_fmap_filter {A B} (f : A → B) (P : A → Prop)
    `{∀ x, Decision (P x)} (l : list A) :
  NoDup (f <$> l) → NoDup (f <$> filter P l).
Proof.
  induction l as [|x l IH]; [done|].
  rewrite fmap_cons, NoDup_cons. intros [Hx Hl]. rewrite filter_cons.
  case_decide; [|auto]. rewrite fmap_cons, NoDup_cons. split; [|auto].
  intros (y & Hy & [_ Hin]%list_elem_of_filter)%list_elem_of_fmap.
  apply Hx. rewrite Hy. by apply list_elem_of_fmap_2.
Qed.

Lemma filter_filter_in {A} (P Q : A → Prop)
    `{∀ x, Decision (P x)} `{∀ x, Decision (Q x)} (l : list A) :
  (∀ x, x ∈ l → P x → Q x) → filter P (filter Q l) = filter P l.
Proof.
  induction l as [|x l IH]; intros Himp; [done|].
  assert (filter P (filter Q l) = filter P l) as IH'.
  { apply IH. intros y Hy. apply Himp. by apply list_elem_of_further. }
  rewrite (filter_cons Q). destruct (decide (Q x)) as [HQ|HQ].
  - rewrite !filter_cons. by rewrite IH'.
  - rewrite IH', filter_cons, decide_False; [done|].
    intros HP. apply HQ, Himp; [apply list_elem_of_here|done].
Qed.

Lemma filter_all {A} (Q : A → Prop) `{∀ x, Decision (Q x)} (l : list A) :
  (∀ x, x ∈ l → Q x) → filter Q l = l.
Proof.
  induction l as [|x l IH]; intros Hall; [done|].
  rewrite filter_cons, decide_True by (apply Hall, list_elem_of_here).
  f_equal. apply IH. intros y Hy. by apply Hall, list_elem_of_further.
Qed.

(** Removing the one element [d] of a list removes one of the elements
  that satisfy [P], when [d] does. *)
Lemma length_filter_remove_one {A} (P Q : A → Prop)
    `{∀ x, Decision (P x)} `{∀ x, Decision (Q x)} (l : list A) d :
  NoDup l → d ∈ l → P d → (∀ x, x ∈ l → Q x ↔ x ≠ d) →
  length (filter P (filter Q l)) + 1 = length (filter P l).
Proof.
  induction l as [|x l IH]; intros Hnd Hd HP HQ.
  { by apply elem_of_nil in Hd. }
  apply NoDup_cons in Hnd as [Hx Hnd].
  assert (∀ y, y ∈ l → Q y ↔ y ≠ d) as HQ'.
  { intros y Hy. apply HQ. by apply list_elem_of_further. }
  apply elem_of_cons in Hd as [->|Hd].
  - rewrite (filter_cons Q), decide_False.
    2: { rewrite (HQ x) by apply list_elem_of_here. tauto. }
    rewrite (filter_all Q l).
    2: { intros y Hy. apply HQ'; [done|]. by intros ->. }
    rewrite filter_cons, decide_True by done. simpl. lia.
  - assert (x ≠ d) as Hne by (by intros ->).
    rewrite (filter_cons Q), decide_True.
    2: { by apply HQ; [apply list_elem_of_here|]. }
    rewrite !filter_cons. specialize (IH Hnd Hd HP HQ').
    case_decide; simpl; lia.
Qed.

Lemma table_fmap (h : PostRow → PostRow) st :
  (∀ r, post (h r) = post r) →
  table (setPosts (h <$> posts st) st) = table st.
Proof.
  intros Hh. unfold table. cbn [posts setPosts].
  rewrite <- list_fmap_compose. apply list_fmap_ext. intros _ r _. apply Hh.
Qed.

Lemma createPost_counts st author text mediaUrls newId now :
  counts_exact st →
  counts_exact (createPost st author text mediaUrls newId now).1.
Proof.
  intros Hex. unfold createPost.
  destruct mediaUrls as [[|url urls]|]; [done| |done].
  destruct (fromString author) as [u|]; [|done].
  case_decide as Hfresh; [done|]. cbn [fst].
  destruct Hex as (Hnd & Hcd & Hli & Hci & Hcount).
  unfold counts_exact, table, countLikes, countComments in *.
  cbn [posts likes comments del publishEvent setPosts].
  rewrite !fmap_app. simpl.
  split; [|split; [done|split; [|split]]].
  - apply NoDup_app. split; [done|]. split; [|apply NoDup_singleton].
    intros x Hx ->%list_elem_of_singleton. done.
  - intros l Hl. apply elem_of_app. left. by apply Hli.
  - intros c Hc. apply elem_of_app. left. by apply Hci.
  - intros r [Hr| ->%list_elem_of_singleton]%elem_of_app; [by apply Hcount|].
    simpl. split.
    + assert (filter (λ l, like_post l = newId) (likes st) = []) as ->;
        [|done].
      apply elem_of_nil_inv.
      intros l [Hp Hl]%list_elem_of_filter. apply Hfresh.
      rewrite <- Hp. by apply Hli.
    + assert (filter (λ c, comment_post c = newId) (comments st) = []) as ->;
        [|done].
      apply elem_of_nil_inv.
      intros c [Hp Hc]%list_elem_of_filter. apply Hfresh.
      rewrite <- Hp. by apply Hci.
Qed.

Lemma getPostById_counts st now postId user :
  counts_exact st → counts_exact (getPostById st now postId user).1.
Proof.
  intros Hex. unfold getPostById.
  destruct (get st now (postKey postId)).
  { by destruct (likedByUser st postId user). }
  destruct (fromString postId) as [p|]; [|done].
  destruct (selectPost st p) as [row|]; [|done].
  destruct (likedByUser _ postId user); by apply (counts_exact_ext st).
Qed.

Lemma deletePost_counts st userId postId :
  counts_exact st → counts_exact (deletePost st userId postId).1.
Proof.
  intros Hex. unfold deletePost.
  destruct (fromString postId) as [p|]; [|done].
  destruct (fromString userId) as [u|]; [|done].
  case_decide as Hrow; [|done]. cbn [fst].
  apply Exists_exists in Hrow as (row & Hin & Hid & Hown).
  destruct Hex as (Hnd & Hcd & Hli & Hci & Hcount).
  assert (∀ r, r ∈ posts st → id (post r) = p → r = row) as Huniq.
  { intros r Hr Hrid. unfold table in Hnd.
    rewrite <- list_fmap_compose in Hnd.
    apply (NoDup_fmap_eq _ _ _ _ Hnd Hr Hin). simpl. congruence. }
  assert (∀ q, q ∈ id <$> table st → q ≠ p →
            q ∈ id <$> (post <$> filter
                   (λ r, ¬ (id (post r) = p ∧ user_id (post r) = u))
                   (posts st))) as Hkeep.
  { unfold table. intros q Hq Hne. rewrite <- list_fmap_compose in *.
    apply list_elem_of_fmap in Hq as (r & -> & Hr).
    apply list_elem_of_fmap_2, list_elem_of_filter. split; [|done].
    by intros [? _]. }
  unfold counts_exact, table, countLikes, countComments in *.
  cbn [posts likes comments del publishEvent].
  split; [|split; [|split; [|split]]].
  - rewrite <- list_fmap_compose in *. by apply NoDup_fmap_filter.
  - by apply NoDup_fmap_filter.
  - intros l [Hne Hl]%list_elem_of_filter. apply Hkeep; [by apply Hli|done].
  - intros c [Hne Hc]%list_elem_of_filter. apply Hkeep; [by apply Hci|done].
  - intros r [Hnot Hr]%list_elem_of_filter.
    assert (id (post r) ≠ p) as Hne.
    { intros Hrid. apply Hnot. split; [done|].
      by rewrite (Huniq r Hr Hrid). }
    destruct (Hcount r Hr) as [-> ->]. split.
    + rewrite list_filter_filter_l; [done|]. intros l. congruence.
    + rewrite list_filter_filter_l; [done|]. intros c. congruence.
Qed.

(** The rows after the likes of [p] have been counted again. *)
Lemma recount_counts st sti st2 p :
  counts_exact st →
  posts sti = posts st → comments sti = comments st →
  (∀ q, q ≠ p → countLikes sti q = countLikes st q) →
  (∀ l, l ∈ likes sti → like_post l ∈ id <$> table st) →
  updateLikesCount p sti = Some st2 →
  counts_exact st2.
Proof.
  intros (Hnd & Hcd & Hli & Hci & Hcount) Hps Hcs Hother Hli' Hupd.
  apply updateLikesCount_inv in Hupd. subst st2.
  set (h := λ r, if decide (id (post r) = p)
                 then withLikes (countLikes sti p) r else r).
  assert (table (setPosts (h <$> posts sti) sti) = table st) as Htab.
  { rewrite table_fmap; [unfold table; by rewrite Hps|].
    intros r. subst h. simpl. by case_decide. }
  unfold counts_exact. rewrite Htab.
  cbn [posts likes comments setPosts]. rewrite Hcs.
  split; [done|]. split; [done|]. split; [done|]. split; [done|].
  intros r' (r & -> & Hr)%list_elem_of_fmap. rewrite Hps in Hr.
  destruct (Hcount r Hr) as [Hlc Hcc].
  unfold countComments in *. cbn [comments setPosts]. rewrite Hcs.
  assert (∀ q, countLikes (setPosts (h <$> posts sti) sti) q =
               countLikes sti q) as Hsame by done.
  rewrite Hsame. subst h. simpl.
  destruct (decide (id (post r) = p)) as [Hp|Hp]; simpl.
  - split; [by rewrite Hp|done].
  - split; [by rewrite Hother|done].
Qed.

Lemma likePost_counts st userId postId likeId :
  counts_exact st →
  (likePost st userId postId likeId).2 ≠ InternalServerError →
  counts_exact (likePost st userId postId likeId).1.
Proof.
  intros Hex. unfold likePost.
  destruct (fromString postId) as [p|]; [|done].
  destruct (selectPost st p) as [row|] eqn:Hrow; [|done].
  destruct (fromString userId) as [u|]; [|done].
  set (new := {| like_id := likeId; like_post := p; like_user := u |}).
  set (inserted := if decide (Exists (is_like p u) (likes st)) then _ else _).
  destruct inserted as [sti|] eqn:Hins; [|done].
  destruct (updateLikesCount p sti) as [st2|] eqn:Hupd; [|done].
  intros _. cbn [fst]. apply (counts_exact_ext st2); [done..|].
  destruct (selectPost_Some _ _ _ Hrow) as [Hin Hid].
  assert (sti = st ∨ sti = setLikes (new :: likes st) st) as Hsti.
  { subst inserted. repeat case_decide; simplify_eq; auto. }
  apply (recount_counts st sti st2 p Hex); [| | | |done].
  - by destruct Hsti as [->| ->].
  - by destruct Hsti as [->| ->].
  - intros q Hq. destruct Hsti as [->| ->]; [done|].
    unfold countLikes. cbn [likes setLikes].
    rewrite filter_cons, decide_False; [done|]. simpl. congruence.
  - destruct Hex as (_ & _ & Hli & _).
    intros l Hl. destruct Hsti as [->| ->]; [by apply Hli|].
    cbn [likes setLikes] in Hl.
    apply elem_of_cons in Hl as [->|Hl]; [|by apply Hli]. simpl.
    unfold table. rewrite <- list_fmap_compose.
    rewrite <- Hid. by apply (list_elem_of_fmap_2 (id ∘ post)).
Qed.

Lemma unlikePost_counts st userId postId :
  counts_exact st →
  (unlikePost st userId postId).2 ≠ InternalServerError →
  counts_exact (unlikePost st userId postId).1.
Proof.
  intros Hex. unfold unlikePost.
  destruct (fromString postId) as [p|]; [|done].
  destruct (fromString userId) as [u|]; [|done].
  set (sti := setLikes _ st).
  destruct (updateLikesCount p sti) as [st2|] eqn:Hupd; [|done].
  intros _. cbn [fst]. apply (counts_exact_ext st2); [done..|].
  apply (recount_counts st sti st2 p Hex); [done|done| | |done].
  - intros q Hq. unfold countLikes. subst sti. cbn [likes setLikes].
    rewrite list_filter_filter_l; [done|].
    intros l Hl [Hp _]. congruence.
  - destruct Hex as (_ & _ & Hli & _).
    intros l [_ Hl]%list_elem_of_filter. by apply Hli.
Qed.

Section Comments.
Variable trim : string → string.

Lemma addComment_counts st userId postId content commentId :
  counts_exact st →
  (addComment trim st userId postId content commentId).2
    ≠ InternalServerError →
  counts_exact (addComment trim st userId postId content commentId).1.
Proof.
  intros Hex. unfold addComment.
  destruct content as [text|]; [|done].
  case_decide; [done|].
  destruct (fromString postId) as [p|]; [|done].
  destruct (selectPost st p) as [row|] eqn:Hrow; [|done].
  destruct (fromString userId) as [u|]; [|done].
  case_decide as Hfresh; [done|].
  set (c := {| comment_id := commentId; comment_post := p;
               comment_user := u; comment_content := trim text |}).
  set (sti := setComments (c :: comments st) st).
  destruct (updatePost _ p sti) as [st2|] eqn:Hupd; [|done].
  intros _. cbn [fst]. apply (counts_exact_ext st2); [done..|].
  apply (updatePost_inv _ (λ r, withComments (comments_count r + 1) r))
    in Hupd.
  2: { intros r r'. unfold UserService.adjust. case_decide; [|done].
       simpl. by intros [= <-]. }
  subst st2.
  set (h := λ r, if decide (id (post r) = p)
                 then withComments (comments_count r + 1) r else r).
  destruct (selectPost_Some _ _ _ Hrow) as [Hin Hid].
  destruct Hex as (Hnd & Hcd & Hli & Hci & Hcount).
  assert (table (setPosts (h <$> posts sti) sti) = table st) as Htab.
  { rewrite table_fmap; [done|].
    intros r. subst h. simpl. by case_decide. }
  assert (p ∈ id <$> table st) as Hp.
  { unfold table. rewrite <- list_fmap_compose.
    rewrite <- Hid. by apply (list_elem_of_fmap_2 (id ∘ post)). }
  unfold counts_exact. rewrite Htab.
  cbn [posts likes comments setPosts setComments sti].
  split; [done|]. split; [|split; [done|split]].
  - rewrite fmap_cons. apply NoDup_cons. by split.
  - intros x [->|Hx]%elem_of_cons; [done|by apply Hci].
  - intros r' (r & -> & Hr)%list_elem_of_fmap.
    destruct (Hcount r Hr) as [Hlc Hcc].
    unfold countLikes, countComments in *.
    cbn [likes comments setPosts setComments sti].
    rewrite filter_cons. subst h. simpl.
    destruct (decide (id (post r) = p)) as [Hrp|Hrp]; simpl.
    + rewrite decide_True by done. simpl. split; [done|]. lia.
    + rewrite decide_False by done. done.
Qed.

End Comments.

Lemma deleteComment_counts st userId commentId :
  counts_exact st →
  (deleteComment st userId commentId).2 ≠ InternalServerError →
  counts_exact (deleteComment st userId commentId).1.
Proof.
  intros Hex. unfold deleteComment.
  destruct (fromString commentId) as [c|]; [|done].
  destruct (fromString userId) as [u|]; [|done].
  set (M := λ x, comment_id x = c ∧ comment_user x = u).
  destruct (filter M (comments st)) as [|d rest] eqn:Hdel; [done|].
  set (sti := setComments _ st).
  destruct (updatePost _ (comment_post d) sti) as [st2|] eqn:Hupd; [|done].
  intros _. cbn [fst]. apply (counts_exact_ext st2); [done..|].
  apply (updatePost_inv _
           (λ r, withComments (Z.max (comments_count r + -1) 0) r)) in Hupd.
  2: { intros r r'. unfold UserService.adjust. case_decide; [|done].
       simpl. by intros [= <-]. }
  subst st2.
  set (p := comment_post d) in *.
  set (h := λ r, if decide (id (post r) = p)
                 then withComments (Z.max (comments_count r + -1) 0) r
                 else r).
  destruct Hex as (Hnd & Hcd & Hli & Hci & Hcount).
  assert (d ∈ comments st ∧ M d) as [Hd HMd].
  { assert (d ∈ filter M (comments st)) as Hin
      by (rewrite Hdel; apply list_elem_of_here).
    apply list_elem_of_filter in Hin. tauto. }
  assert (∀ x, x ∈ comments st → ¬ M x ↔ x ≠ d) as Honly.
  { intros x Hx. split.
    - intros Hn ->. done.
    - intros Hne [Hxc _]. apply Hne.
      apply (NoDup_fmap_eq comment_id (comments st)); [done..|].
      destruct HMd as [-> _]. done. }
  assert (table (setPosts (h <$> posts sti) sti) = table st) as Htab.
  { rewrite table_fmap; [done|].
    intros r. subst h. simpl. by case_decide. }
  unfold counts_exact. rewrite Htab.
  cbn [posts likes comments setPosts setComments sti].
  split; [done|]. split; [|split; [done|split]].
  - by apply NoDup_fmap_filter.
  - intros x [_ Hx]%list_elem_of_filter. by apply Hci.
  - intros r' (r & -> & Hr)%list_elem_of_fmap.
    destruct (Hcount r Hr) as [Hlc Hcc].
    unfold countLikes, countComments in *.
    cbn [likes comments setPosts setComments sti].
    subst h. simpl.
    destruct (decide (id (post r) = p)) as [Hrp|Hrp]; simpl.
    + split; [done|]. rewrite Hcc, Hrp.
      pose proof (length_filter_remove_one (λ x, comment_post x = p)
                    (λ x, ¬ M x) (comments st) d
                    (NoDup_fmap_1 _ _ Hcd) Hd eq_refl Honly) as Hone.
      unfold M in Hone. lia.
    + split; [done|]. rewrite Hcc.
      rewrite filter_filter_in; [done|].
      intros x Hx Hxp. apply Honly; [done|]. intros ->. done.
Qed.

Section Requests.
Variable trim : string → string.

Lemma handle_counts st req :
  counts_exact st →
  (handle trim st req).2 ≠ InternalServerError →
  counts_exact (handle trim st req).1.
Proof.
  intros Hex Hok. destruct req; simpl in *.
  - by apply createPost_counts.
  - by apply getPostById_counts.
  - by apply deletePost_counts.
  - by apply likePost_counts.
  - by apply unlikePost_counts.
  - by apply addComment_counts.
  - by apply deleteComment_counts.
Qed.

(** X24 (the counts are the numbers of rows).  From a state in which
  likes_count and comments_count of every post are the numbers of its
  rows in [likes] and [comments], the empty tables among them, after any
  run of requests of which none is answered 500, they still are; post
  ids and comment ids are still unique and every like and comment
  belongs to a post of the table. *)
Theorem serve_keeps_counts_exact st reqs :
  counts_exact st →
  InternalServerError ∉ (serve trim st reqs).2 →
  counts_exact (serve trim st reqs).1.
Proof.
  revert st. induction reqs as [|req reqs IH]; intros st Hex Hok; [done|].
  simpl in *.
  destruct (handle trim st req) as [st1 reply] eqn:Hh.
  destruct (serve trim st1 reqs) as [st2 replies] eqn:Hs.
  simpl in *. apply not_elem_of_cons in Hok as [Hreply Hrest].
  specialize (IH st1). rewrite Hs in IH. apply IH; [|done].
  pose proof (handle_counts st req Hex) as Hstep. rewrite Hh in Hstep.
  by apply Hstep.
Qed.

End Requests.

(** ** The posts of a user, page by page *)

Lemma sorted_last (l : list Post) z :
  StronglySorted newer_first l → last l = Some z →
  ∀ x, x ∈ l → newer_first x z.
Proof.
  induction l as [|y l IH]; [done|].
  intros [Hy Hl]%StronglySorted_cons Hlast x Hx.
  destruct l as [|y' l'].
  - simpl in Hlast. injection Hlast as <-.
    apply list_elem_of_singleton in Hx as ->. unfold newer_first. lia.
  - change (last (y :: y' :: l')) with (last (y' :: l')) in Hlast.
    assert (z ∈ y' :: l') as Hz.
    { apply list_elem_of_lookup. exists (length l').
      rewrite last_lookup in Hlast. done. }
    apply elem_of_cons in Hx as [->|Hx]; [|by apply IH].
    rewrite Forall_forall in Hy. by apply Hy.
Qed.

(** X30 (paging through the posts of a user by cursor).  When a page of
  [GET /api/posts/user/:userId] ends with a next cursor and the next
  page is asked with it, every post of the first page is at least as new
  as the cursor and every post of the next page is strictly older, posts
  of the user in the table: no post is served twice, and a post of the
  user with the timestamp of the cursor that was not on the first page
  is on no later page. *)
Theorem cursor_pages_do_not_overlap st userId cursor limit limit' page next
    page' next' :
  getPostsByUser st userId cursor limit = Some (page, Some next) →
  getPostsByUser st userId (Some next) limit' = Some (page', next') →
  (∀ q, q ∈ page → (next ≤ post_created_at q)%Z) ∧
  (∀ q, q ∈ page' →
        (post_created_at q < next)%Z ∧ q ∈ table st ∧
        fromString userId = Some (user_id q)) ∧
  (∀ q, q ∈ page → q ∉ page') ∧
  (∀ q, post_created_at q = next → q ∉ page').
Proof.
  unfold getPostsByUser.
  destruct (fromString userId) as [u|]; [|done].
  intros [= <- Hlast] [= <- _].
  set (rows := match cursor with Some c => _ | None => _ end) in *.
  assert (∀ q, q ∈ recentPosts rows u limit → (next ≤ post_created_at q)%Z)
    as Hfirst.
  { destruct (last (recentPosts rows u limit)) as [z|] eqn:Hz; [|done].
    injection Hlast as <-. intros q Hp.
    by apply (sorted_last _ z (recentPosts_sorted rows u limit) Hz). }
  assert (∀ q, q ∈ recentPosts
                 (filter (λ q, (post_created_at q < next)%Z) (table st))
                 u limit' →
               (post_created_at q < next)%Z ∧ q ∈ table st ∧ user_id q = u)
    as Hsecond.
  { intros q [[Hlt Hin]%list_elem_of_filter Hu]%elem_of_recentPosts. done. }
  split; [done|]. split; [|split].
  - intros q Hp. destruct (Hsecond q Hp) as (? & ? & ->). done.
  - intros q Hp Hp'. specialize (Hfirst q Hp).
    destruct (Hsecond q Hp') as [? _]. lia.
  - intros q Heq Hp'. destruct (Hsecond q Hp') as [? _]. lia.
Qed.

End PostFacts.
End PostFacts.

(** * More of the Redis version *)

Module LegacyMoreFacts.
Import Legacy LegacyMore.
Section LegacyMoreFacts.
Context `{L : UuidLib} `{G : RedisGlob}.
Variable stringify : string → string → Z → string.
Variable parse : string → option (option string * option string).

Implicit Types (st : Legacy.State) (l : list (Z * string)) (k : string).

Lemma filter_ext_in {A} (P Q : A → Prop)
    `{∀ x, Decision (P x)} `{∀ x, Decision (Q x)} (l : list A) :
  (∀ x, x ∈ l → P x ↔ Q x) → filter P l = filter Q l.
Proof.
  induction l as [|x l IH]; intros Hext; [done|].
  rewrite !filter_cons, IH.
  2: { intros y Hy. apply Hext. by apply list_elem_of_further. }
  apply decide_ext. apply Hext, list_elem_of_here.
Qed.

Lemma zRange_zRem k member st k' :
  zRange (zRem k member st) k' =
  if decide (k = k') then filter (λ x, x.2 ≠ member) (zRange st k)
  else zRange st k'.
Proof. unfold zRem. apply LegacyFacts.zRange_setZset. Qed.

Lemma sets_setZset k l st : sets (setZset k l st) = sets st.
Proof. done. Qed.

Section Purge.
Context (P : string → Prop) `{∀ item, Decision (P item)}.

Lemma foldl_zRem_zRange k (items : list string) st k' :
  zRange (foldl (λ st item, if decide (P item) then zRem k item st else st)
            st items) k' =
  if decide (k = k')
  then filter (λ x, ¬ (x.2 ∈ items ∧ P x.2)) (zRange st k)
  else zRange st k'.
Proof.
  revert st. induction items as [|i items IH]; intros st; simpl.
  - case_decide as Hk; [subst k'|done]. symmetry.
    apply PostFacts.filter_all. intros x _ [?%elem_of_nil _]. done.
  - rewrite IH. case_decide as Hk; [|by case_decide; rewrite ?zRange_zRem,
      ?decide_False].
    destruct (decide (P i)) as [Hi|Hi].
    + rewrite zRange_zRem, decide_True, list_filter_filter by done.
      apply list_filter_iff. intros x. rewrite elem_of_cons. split.
      * intros [Hn Hne] [[?|?] HP]; [done|]. apply Hn. done.
      * intros Hn. split.
        -- intros [? ?]. apply Hn. split; [by right|done].
        -- intros Hx. apply Hn. split; [by left|]. by rewrite Hx.
    + apply list_filter_iff. intros x. rewrite elem_of_cons. split.
      * intros Hn [[Hx|?] HP]; [by rewrite Hx in HP|]. apply Hn. done.
      * intros Hn [? ?]. apply Hn. split; [by right|done].
Qed.

Lemma zRange_purge k st k' :
  zRange (purge P k st) k' =
  if decide (k = k') then filter (λ x, ¬ P x.2) (zRange st k)
  else zRange st k'.
Proof.
  unfold purge. rewrite foldl_zRem_zRange. case_decide; [|done].
  apply filter_ext_in. intros x Hx. split.
  - intros Hn HP. apply Hn. split; [|done].
    by apply (list_elem_of_fmap_2 snd).
  - intros Hn [_ HP]. done.
Qed.

Lemma sets_purge k st : sets (purge P k st) = sets st.
Proof.
  unfold purge. generalize (zRange st k).*2. intros items. revert st.
  induction items as [|i items IH]; intros st; simpl; [done|].
  rewrite IH. by case_decide.
Qed.

Lemma foldr_purge_zRange (ks : list string) st k' :
  zRange (foldr (purge P) st ks) k' =
  if decide (k' ∈ ks) then filter (λ x, ¬ P x.2) (zRange st k')
  else zRange st k'.
Proof.
  induction ks as [|k ks IH]; cbn [foldr].
  { by rewrite decide_False by apply not_elem_of_nil. }
  rewrite zRange_purge. destruct (decide (k = k')) as [->|Hne].
  - rewrite decide_True by apply list_elem_of_here. rewrite IH.
    case_decide; [|done]. apply list_filter_filter_l. done.
  - rewrite IH. destruct (decide (k' ∈ ks)) as [Hin|Hnin].
    + by rewrite decide_True by by apply list_elem_of_further.
    + rewrite decide_False; [done|].
      intros [?|?]%elem_of_cons; [congruence|done].
Qed.

Lemma foldr_purge_sets (ks : list string) st :
  sets (foldr (purge P) st ks) = sets st.
Proof.
  induction ks as [|k ks IH]; simpl; [done|]. by rewrite sets_purge.
Qed.

End Purge.

Lemma zRange_absent st k :
  k ∉ dom (zsets st) → zRange st k = [].
Proof.
  intros Hk%not_elem_of_dom. unfold zRange. by rewrite Hk.
Qed.

(** X25 (the Redis version retracts a deleted post at once).  After the
  post.deleted handler of the Redis version, every feed is what it was
  without the items that parse to the [postId] of the event, in the same
  order: no feed holds such an item any more.  The sets and the keys
  that are not feeds are as they were. *)
Theorem legacy_post_deleted_purges st data :
  let st' := handlePostDeleted parse st data in
  sets st' = sets st ∧
  (∀ uid, zRange st' (feedKey uid) =
          filter (λ x, ¬ names_post parse (postId data) x.2)
            (zRange st (feedKey uid))) ∧
  (∀ uid x, x ∈ zRange st' (feedKey uid) →
            ¬ names_post parse (postId data) x.2) ∧
  (∀ k, (∀ rest, k ≠ "feed:" +:+ rest) → zRange st' k = zRange st k).
Proof.
  intros st'. subst st'. unfold handlePostDeleted, set_fold. simpl.
  assert (∀ k, k ∈ elements (keys st "feed:*") ↔
               k ∈ dom (sets st) ∪ dom (zsets st) ∧
               ∃ rest, k = "feed:" +:+ rest) as Hkeys.
  { intros k. rewrite elem_of_elements. unfold keys.
    rewrite elem_of_filter.
    change "feed:*" with ("feed:" +:+ "*").
    rewrite (stringmatch_prefix "feed:" k eq_refl). tauto. }
  assert (∀ uid, zRange (foldr (purge (names_post parse (postId data))) st
                           (elements (keys st "feed:*"))) (feedKey uid) =
                 filter (λ x, ¬ names_post parse (postId data) x.2)
                   (zRange st (feedKey uid))) as Hfeeds.
  { intros uid. rewrite foldr_purge_zRange. case_decide as Hin; [done|].
    rewrite zRange_absent; [done|].
    intros Hd. apply Hin, Hkeys. split; [by apply elem_of_union_r|].
    by exists uid. }
  split; [apply foldr_purge_sets|]. split; [done|]. split.
  - intros uid x. rewrite Hfeeds. by intros [? _]%list_elem_of_filter.
  - intros k Hk. rewrite foldr_purge_zRange, decide_False; [done|].
    intros (_ & rest & ->)%Hkeys. by apply (Hk rest).
Qed.

Lemma sMembers_sRem_redis k v st k' :
  sMembers (sRem k v st) k' =
  if decide (k = k') then sMembers st k ∖ {[v]} else sMembers st k'.
Proof.
  unfold sMembers at 1. simpl.
  destruct (decide (k = k')) as [<-|Hk];
    destruct (decide (sMembers st k ∖ {[v]} = ∅)) as [He|He].
  - by rewrite lookup_delete_eq, He.
  - by rewrite lookup_insert_eq.
  - by rewrite lookup_delete_ne.
  - by rewrite lookup_insert_ne.
Qed.

Lemma sMembers_zsets st st' k :
  sets st' = sets st → sMembers st' k = sMembers st k.
Proof. unfold sMembers. by intros ->. Qed.

(** X26 (the Redis version empties the feed of an unfollowed user's
  posts).  After the user.unfollowed handler of the Redis version the
  feed of the follower is what it was without the items that parse to
  the followee as their [userId], in the same order; every other sorted
  set is as it was; and the two sets no longer hold the edge. *)
Theorem legacy_unfollow_purges st data :
  let st' := handleUserUnfollowed parse st data in
  zRange st' (feedKey (followerId data)) =
    filter (λ x, ¬ names_user parse (followingId data) x.2)
      (zRange st (feedKey (followerId data))) ∧
  (∀ x, x ∈ zRange st' (feedKey (followerId data)) →
        ¬ names_user parse (followingId data) x.2) ∧
  (∀ k, k ≠ feedKey (followerId data) → zRange st' k = zRange st k) ∧
  (followingId data ∉ sMembers st' (followingKey (followerId data))) ∧
  (followerId data ∉ sMembers st' (followersKey (followingId data))).
Proof.
  intros st'. subst st'. unfold handleUserUnfollowed.
  set (st1 := sRem (followingKey _) _ st).
  set (st2 := sRem (followersKey _) _ st1).
  assert (∀ k, zRange st2 k = zRange st k) as Hz by done.
  split; [|split; [|split; [|split]]].
  - by rewrite zRange_purge, decide_True, Hz.
  - intros x. rewrite zRange_purge, decide_True by done.
    by intros [? _]%list_elem_of_filter.
  - intros k Hk. by rewrite zRange_purge, decide_False, Hz.
  - rewrite (sMembers_zsets st2) by apply sets_purge.
    subst st2. rewrite sMembers_sRem_redis.
    rewrite decide_False by apply followersKey_not_followingKey.
    subst st1. rewrite sMembers_sRem_redis, decide_True by done.
    apply not_elem_of_remove.
  - rewrite (sMembers_zsets st2) by apply sets_purge.
    subst st2. rewrite sMembers_sRem_redis, decide_True by done.
    apply not_elem_of_remove.
Qed.

(** ** The bound of 1000 items *)

Lemma addToFeed_bounded timestamp feedItem followerId st :
  bounded st → bounded (addToFeed timestamp feedItem followerId st).
Proof.
  intros Hb k. rewrite LegacyFacts.zRange_addToFeed.
  case_decide; [|apply Hb]. simpl. rewrite length_drop. lia.
Qed.

Lemma handlePostCreated_bounded st data :
  bounded st → bounded (Legacy.handlePostCreated stringify st data).
Proof.
  intros Hb. unfold Legacy.handlePostCreated.
  apply addToFeed_bounded. unfold set_fold. simpl.
  generalize (elements (if decide (sMembers st (followersKey (userId data)) = ∅)
                        then {[userId data]}
                        else sMembers st (followersKey (userId data)))).
  intros ids. induction ids as [|f ids IH]; [done|].
  simpl. by apply addToFeed_bounded.
Qed.

Lemma purge_bounded (P : string → Prop) `{∀ item, Decision (P item)} k st :
  bounded st → bounded (purge P k st).
Proof.
  intros Hb k'. rewrite zRange_purge. case_decide; [|apply Hb].
  etrans; [apply length_filter|apply Hb].
Qed.

Lemma handlePostDeleted_bounded st data :
  bounded st → bounded (handlePostDeleted parse st data).
Proof.
  intros Hb k. unfold handlePostDeleted, set_fold. simpl.
  rewrite foldr_purge_zRange. case_decide; [|apply Hb].
  etrans; [apply length_filter|apply Hb].
Qed.

Lemma foldl_zAdd_other k (posts : list Post) (item : Post → string) st k' :
  k ≠ k' →
  zRange (foldl (λ st post, zAdd k (post_created_at post) (item post) st)
            st posts) k' = zRange st k'.
Proof.
  intros Hk. revert st. induction posts as [|p posts IH]; intros st; [done|].
  simpl. by rewrite IH, LegacyFacts.zRange_zAdd, decide_False.
Qed.

Lemma handleUserFollowed_bounded db st data :
  bounded st → bounded (handleUserFollowed stringify db st data).
Proof.
  intros Hb k. unfold handleUserFollowed.
  destruct (getUserPosts db (followingId data) 20) as [posts|]; [|apply Hb].
  rewrite LegacyFacts.zRange_trim. case_decide as Hk.
  - rewrite length_drop. lia.
  - rewrite foldl_zAdd_other by done. apply Hb.
Qed.

Lemma handleEvent_bounded db st msg :
  bounded st → bounded (handleEvent stringify parse db st msg).1.
Proof.
  intros Hb. unfold handleEvent.
  destruct (content msg) as [| |data]; [done|by case_decide|].
  cbn [fst]. unfold dispatch. repeat case_decide.
  - by apply handlePostCreated_bounded.
  - by apply handlePostDeleted_bounded.
  - by apply handleUserFollowed_bounded.
  - unfold handleUserUnfollowed. by apply purge_bounded.
  - done.
Qed.

(** X27 (the Redis version keeps every feed at 1000 items at most).
  From a state in which no sorted set holds more than 1000 items, the
  empty state among them, whatever messages the consumer of the Redis
  version handles, no sorted set ever holds more than 1000 items: the
  bound that the version on ScyllaDB does not keep. *)
Theorem legacy_feeds_stay_bounded st events :
  bounded st → bounded (process stringify parse st events).
Proof.
  revert st. induction events as [|[db msg] events IH]; intros st Hb; [done|].
  simpl. by apply IH, handleEvent_bounded.
Qed.

(** ** Reading the feed *)

Lemma range_from {A} (l : list A) (o : nat) (stop : Z) :
  ∃ n, range l (Z.of_nat o) stop = take n (drop o l).
Proof.
  unfold range. rewrite (decide_False (P := (Z.of_nat o < 0)%Z)) by lia.
  rewrite (decide_False (P := (Z.of_nat o < 0)%Z)) by lia.
  case_decide; [by exists 0|].
  eexists. by rewrite Nat2Z.id.
Qed.

Lemma length_range {A} (l : list A) (o : nat) (stop : Z) :
  o + length (range l (Z.of_nat o) stop) ≤ length l ∨
  range l (Z.of_nat o) stop = [].
Proof.
  destruct (range_from l o stop) as [n ->].
  destruct (decide (o ≤ length l)).
  - left. rewrite length_take, length_drop. lia.
  - right. by rewrite drop_ge, take_nil by lia.
Qed.

Lemma length_omap_le {A B} (f : A → option B) (l : list A) :
  length (omap f l) ≤ length l.
Proof.
  induction l as [|x l IH]; simpl; [done|].
  unfold omap in IH. destruct (f x); simpl; lia.
Qed.

Lemma length_omap_lt {A B} (f : A → option B) (l : list A) x :
  x ∈ l → f x = None → length (omap f l) < length l.
Proof.
  induction l as [|y l IH]; intros Hx Hf; [by apply elem_of_nil in Hx|].
  pose proof (length_omap_le f l) as Hle. simpl. unfold omap in IH, Hle.
  apply elem_of_cons in Hx as [<-|Hx].
  - rewrite Hf. lia.
  - specialize (IH Hx Hf). destruct (f y); simpl; lia.
Qed.

(** X28 (in the Redis version [hasMore] is computed after the posts are
  fetched).  When an item of the page read from the sorted set yields no
  post, because it does not parse, holds no [postId], or its post is not
  found, the Redis version answers [hasMore] true, also on the last
  page of the feed, with an offset short of the end of the page. *)
Theorem legacy_hasMore_after_hydration db st uid offset limit item :
  let window :=
    zRangeRev st (feedKey uid) (Z.of_nat offset)
      (Z.of_nat offset + Z.of_nat limit - 1) in
  item ∈ window →
  (∀ p, postIdOf parse item = Some p → getPost db p = None) →
  ∃ posts,
    getFeed parse db st uid offset limit =
      Page posts true (Some (offset + length posts)) ∧
    length posts < length window.
Proof.
  intros window Hin Hnone. unfold getFeed. fold window.
  rewrite decide_False.
  2: { destruct window; [by apply elem_of_nil in Hin|done]. }
  set (posts := omap (getPost db) (omap (postIdOf parse) window)).
  assert (length posts < length window) as Hlt.
  { subst posts. destruct (postIdOf parse item) as [p|] eqn:Hp.
    - pose proof (length_omap_le (postIdOf parse) window).
      assert (p ∈ omap (postIdOf parse) window) as Hpin
        by (apply list_elem_of_omap; eauto).
      pose proof (length_omap_lt (getPost db) _ p Hpin (Hnone p eq_refl)).
      lia.
    - pose proof (length_omap_lt (postIdOf parse) window item Hin Hp).
      pose proof (length_omap_le (getPost db)
                    (omap (postIdOf parse) window)). lia. }
  exists posts. split; [|done]. f_equal.
  apply bool_decide_eq_true. unfold zCard.
  destruct (length_range (reverse (zRange st (feedKey uid)).*2) offset
              (Z.of_nat offset + Z.of_nat limit - 1)) as [Hle|Hnil].
  - fold (zRangeRev st (feedKey uid) (Z.of_nat offset)
            (Z.of_nat offset + Z.of_nat limit - 1)) in Hle. fold window in Hle.
    rewrite length_reverse, length_fmap in Hle. lia.
  - fold (zRangeRev st (feedKey uid) (Z.of_nat offset)
            (Z.of_nat offset + Z.of_nat limit - 1)) in Hnil. fold window in Hnil.
    rewrite Hnil in Hin. by apply elem_of_nil in Hin.
Qed.

(** X29 (a limit of 0 in the Redis version).  With limit 0 the stop
  index of the range is offset - 1: at offset 0 that is -1, the last
  item, and the page is the whole feed, newest first; at any other
  offset the range is empty and the answer is the empty page. *)
Theorem legacy_limit_zero db st uid :
  zRangeRev st (feedKey uid) 0 (0 + 0 - 1) =
    reverse (zRange st (feedKey uid)).*2 ∧
  (zRange st (feedKey uid) ≠ [] →
   posts_of (getFeed parse db st uid 0 0) =
     omap (getPost db)
       (omap (postIdOf parse) (reverse (zRange st (feedKey uid)).*2))) ∧
  ∀ offset, 0 < offset → getFeed parse db st uid offset 0 = Page [] false None.
Proof.
  assert (zRangeRev st (feedKey uid) 0 (0 + 0 - 1) =
          reverse (zRange st (feedKey uid)).*2) as Hall.
  { unfold zRangeRev, range. simpl.
    set (l := reverse (zRange st (feedKey uid)).*2).
    destruct (decide (Z.of_nat (length l) + -1 < 0
                      ∨ Z.of_nat (length l) ≤ 0)%Z) as [Hfew|Hmany].
    - destruct l; [done|simpl in Hfew; lia].
    - rewrite decide_False by lia. rewrite decide_False by lia.
      replace (Z.to_nat (Z.of_nat (length l) + (0 + 0 - 1) - 0 + 1))
        with (length l) by lia.
      change (Z.to_nat 0) with 0. by rewrite drop_0, firstn_all. }
  split; [done|]. split.
  - intros Hne. unfold getFeed. change (Z.of_nat 0) with 0%Z. rewrite Hall.
    rewrite decide_False; [done|].
    rewrite length_reverse, length_fmap. by destruct (zRange st (feedKey uid)).
  - intros offset Hpos. unfold getFeed.
    assert (zRangeRev st (feedKey uid) (Z.of_nat offset)
              (Z.of_nat offset + Z.of_nat 0 - 1) = []) as ->; [|done].
    unfold zRangeRev, range.
    rewrite !(decide_False (P := (Z.of_nat offset < 0)%Z)) by lia.
    rewrite (decide_False (P := (Z.of_nat offset + Z.of_nat 0 - 1 < 0)%Z))
      by lia.
    rewrite decide_True; [done|]. left. lia.
Qed.

End LegacyMoreFacts.
End LegacyMoreFacts.

(** * Instances of the further properties *)

Module MoreInstances.
Import CanonicalUuid SimpleGlob Scenario MoreScenario.

Ltac by_evaluation := Instances.by_evaluation.

Lemma init_clustered : all_clustered init.
Proof.
  intros u. unfold partition. simpl. rewrite lookup_empty. constructor.
Qed.

Lemma follow_records_edge_witness :
  let st' := (handleUserFollowed [] 1 init (follows bob alice)).1 in
  select_followers st' uAlice = {[uBob]} ∪ select_followers init uAlice ∧
  select_following st' uBob = {[uAlice]} ∪ select_following init uBob ∧
  (∀ u, u ≠ uAlice → select_followers st' u = select_followers init u) ∧
  (∀ u, u ≠ uBob → select_following st' u = select_following init u) ∧
  bob ∈ sMembers st' (followersKey alice) ∧
  alice ∈ sMembers st' (followingKey bob).
Proof.
  apply (follow_records_edge [] 1 init (follows bob alice) uBob uAlice);
    reflexivity.
Defined.


Lemma follow_then_publish_witness :
  let st1 := (handleUserFollowed [] 1 init (follows bob alice)).1 in
  row1 ∈ partition (handlePostCreated st1 (published post1 alice 100)).1 uBob.
Proof.
  apply (follow_then_publish [] 1 init (follows bob alice)
           (published post1 alice 100) uBob uAlice uPost1); reflexivity.
Defined.

Lemma unfollow_then_publish_witness :
  let st1 := (handleUserUnfollowed st_published (follows bob alice)).1 in
  partition (handlePostCreated st1 (published post2 alice 200)).1 uBob =
  partition st_published uBob.
Proof.
  apply (unfollow_then_publish st_published (follows bob alice)
           (published post2 alice 200) uBob uAlice).
  - reflexivity.
  - reflexivity.
  - reflexivity.
  - by_evaluation.
  - intros s Hs _.
    assert (sMembers st_published (followersKey alice) = {[bob]}) as Hset
      by by_evaluation.
    simpl in Hs. rewrite Hset in Hs. by apply elem_of_singleton in Hs.
Defined.

Lemma follow_unfollow_round_trip_witness :
  let st1 := (handleUserFollowed db20 5000 init (follows bob alice)).1 in
  let st2 := (handleUserUnfollowed st1 (follows bob alice)).1 in
  user_followers st2 = user_followers init ∧
  user_following st2 = user_following init ∧
  (∀ uid, sMembers st2 (followersKey uid) = sMembers init (followersKey uid)) ∧
  (∀ uid, sMembers st2 (followingKey uid) = sMembers init (followingKey uid)) ∧
  partition st2 uBob =
    foldl (λ l p, upsert (rowOf uAlice p) l) (partition init uBob)
      (recentPosts db20 uAlice 20) ∧
  length (partition init uBob) ≤ length (partition st2 uBob)
    ≤ length (partition init uBob) + 20.
Proof.
  apply (follow_unfollow_round_trip db20 5000 init (follows bob alice)
           uBob uAlice).
  - reflexivity.
  - reflexivity.
  - reflexivity.
  - reflexivity.
  - by_evaluation.
  - by_evaluation.
Defined.

(** Bob publishes in the millisecond of Alice's post: in his own feed his
  row takes the place of hers. *)
Lemma publish_replaces_same_timestamp_witness :
  let row := {| created_at := 100; post_id := mk postB I;
                author_id := uBob |} in
  let st' := (handlePostCreated st_published (published postB bob 100)).1 in
  (row1 ∉ partition st' uBob) ∧ row ∈ partition st' uBob ∧
  length (partition st' uBob) = length (partition st_published uBob).
Proof.
  assert (partition st_published uBob = [row1]) as Hpart by by_evaluation.
  apply (publish_replaces_same_timestamp st_published
           (published postB bob 100) (mk postB I) uBob uBob row1).
  - reflexivity.
  - reflexivity.
  - by right.
  - rewrite Hpart. repeat constructor.
  - rewrite Hpart. apply list_elem_of_here.
  - reflexivity.
  - by_evaluation.
Defined.

Lemma process_keeps_clustering_witness :
  let events :=
    [([], 1%Z, event "user.followed" (follows bob alice));
     ([P1], 2%Z, event "post.created" (published post1 alice 100));
     ([P1; P2], 4%Z, event "post.created" (published post2 alice 200))] in
  all_clustered (process init events) ∧
  ∀ u t, length (filter (λ x, created_at x = t)
                   (partition (process init events) u)) ≤ 1.
Proof.
  apply (process_keeps_clustering init). exact init_clustered.
Defined.

Lemma stats_after_follow_witness :
  let st' := (handleUserFollowed db20 5000 init (follows bob alice)).1 in
  ∃ after,
    getStats st' bob = Some after ∧
    followingCount after =
      0 + (if decide (uAlice ∈ select_following init uBob) then 0 else 1) ∧
    0 ≤ feedSize after ≤ 0 + 20 ∧
    size (select_followers st' uAlice) =
      size (select_followers init uAlice)
      + (if decide (uBob ∈ select_followers init uAlice) then 0 else 1).
Proof.
  apply (stats_after_follow db20 5000 init (follows bob alice) uBob uAlice
           {| feedSize := 0; followingCount := 0; followersCount := 0 |});
    reflexivity.
Defined.

Lemma refresh_clears_pages_witness :
  let st' := refreshFeed st_cached 4 bob in
  let window := take 10 (drop 0 (partition st_cached uBob)) in
  get st' 5 (cacheKey bob 0 10) = None ∧
  posts_of (getPage [P1; P2] 5 st' bob 0 10).2 = hydrate [P1; P2] window ∧
  hasMore_of (getPage [P1; P2] 5 st' bob 0 10).2 =
    bool_decide (window ≠ [] ∧ 0 + 10 < length (partition st_cached uBob)).
Proof.
  apply (refresh_clears_pages [P1; P2] st_cached 4 bob uBob 5 0 10).
  - reflexivity.
  - reflexivity.
  - lia.
Defined.

Lemma refresh_keeps_the_rest_witness :
  let st' := refreshFeed st_cached 4 bob in
  user_feeds st' = user_feeds st_cached ∧
  user_followers st' = user_followers st_cached ∧
  user_following st' = user_following st_cached ∧
  (∀ s, sMembers st' (followersKey s) = sMembers st_cached (followersKey s)) ∧
  (∀ s, sMembers st' (followingKey s) = sMembers st_cached (followingKey s)) ∧
  (∀ other now' offset limit,
     is_Some (fromString other) → other ≠ bob →
     get st' now' (cacheKey other offset limit) =
     get st_cached now' (cacheKey other offset limit)).
Proof.
  apply (refresh_keeps_the_rest st_cached 4 bob uBob); reflexivity.
Defined.

Lemma cached_page_lifetime_witness :
  let st1 := (getPage [P1] 3 st_published bob 0 10).1 in
  let r := (getPage [P1] 3 st_published bob 0 10).2 in
  ((5000 < 3 + 120000)%Z →
     getPage [P1; P2] 5000 st1 bob 0 10 = (st1, r)) ∧
  ((3 + 120000 ≤ 5000)%Z → get st1 5000 (cacheKey bob 0 10) = None).
Proof.
  apply (cached_page_lifetime [P1] 3 st_published bob uBob 0 10
           [P1; P2] 5000).
  - by_evaluation.
  - reflexivity.
  - by_evaluation.
Defined.

(** Bob's partition holds the rows of P2 and P1; P1 has been deleted. *)
Lemma next_page_overlaps_witness :
  let st := process st_published publishes_P2 in
  let window := take 2 (drop 0 (partition st uBob)) in
  ∃ posts hasMore next,
    (getPage [P2] 5 st bob 0 2).2 = Page posts hasMore (Some next) ∧
    0 ≤ next < 0 + length window ∧
    drop next (partition st uBob) =
      drop (next - 0) window ++ drop (0 + 2) (partition st uBob) ∧
    drop (next - 0) window ≠ [].
Proof.
  apply (next_page_overlaps [P2] 5 (process st_published publishes_P2)
           bob uBob 0 2 row1).
  - by_evaluation.
  - reflexivity.
  - by_evaluation.
  - by_evaluation.
Defined.

Lemma auth_token_is_second_field_witness :
  let answer := match verifyGood "good" with
                | Some decoded => Next string decoded
                | None => InvalidToken string
                end in
  authMiddleware string verifyGood (Some ("Basic" +:+ String space "good"))
    = answer ∧
  authMiddleware string verifyGood
    (Some ("Basic" +:+ String space ("good" +:+ String space "rest")))
    = answer.
Proof.
  apply (auth_token_is_second_field verifyGood "Basic" "good" "rest");
    [reflexivity|reflexivity|discriminate].
Defined.

Lemma auth_no_token_witness :
  authMiddleware string verifyGood None = NoTokenProvided string ∧
  authMiddleware string verifyGood (Some "good") = NoTokenProvided string ∧
  authMiddleware string verifyGood (Some ("Bearer" +:+ String space EmptyString))
    = NoTokenProvided string ∧
  authMiddleware string verifyGood
    (Some ("Bearer" +:+ String space (String space "good")))
    = NoTokenProvided string.
Proof.
  apply (auth_no_token verifyGood "good" "Bearer" "good"); reflexivity.
Defined.

(** ** The user service *)

Lemma room_users1 x :
  x ∈ UserService.users users1 →
  UserService.in_range (UserService.following_count x + 1) ∧
  UserService.in_range (UserService.followers_count x + 1).
Proof.
  assert (UserService.users users1 =
          [UserService.withFollowers 1 userAlice;
           UserService.withFollowing 1 userBob]) as -> by by_evaluation.
  intros [->|[->|?%elem_of_nil]%elem_of_cons]%elem_of_cons; [| |done];
    by_evaluation.
Qed.

(** Bob, who follows Alice, asks to follow her again. *)
Lemma follow_counts_every_request_witness :
  let st' := (UserService.follow users1 bob "alice" followId2).1 in
  (UserService.follow users1 bob "alice" followId2).2 = UserService.Followed ∧
  (uBob, uAlice) ∈ UserService.edges st' ∧
  ((uBob, uAlice) ∈ UserService.edges users1 →
     UserService.follows st' = UserService.follows users1) ∧
  UserService.following_count <$> UserService.users st' =
    (λ x, if decide (UserService.id x = uBob)
          then UserService.following_count x + 1
          else UserService.following_count x)%Z <$> UserService.users users1 ∧
  UserService.followers_count <$> UserService.users st' =
    (λ x, if decide (UserService.id x = uAlice)
          then UserService.followers_count x + 1
          else UserService.followers_count x)%Z <$> UserService.users users1 ∧
  UserService.published st' = UserService.published users1 ++
    [{| routingKey := "user.followed";
        content := JsonObject (UserService.edgeData bob alice) |}].
Proof.
  apply (UserFacts.follow_counts_every_request users1 bob "alice" followId2
           (UserService.withFollowers 1 userAlice) uBob).
  - by_evaluation.
  - by_evaluation.
  - reflexivity.
  - by_evaluation.
  - exact room_users1.
  - by_evaluation.
Defined.

Lemma unfollow_without_edge_witness :
  UserService.unfollow users0 bob "alice" = (users0, UserService.Unfollowed).
Proof.
  apply (UserFacts.unfollow_without_edge users0 bob "alice" userAlice uBob).
  - reflexivity.
  - reflexivity.
  - by_evaluation.
Defined.

Lemma follow_then_unfollow_witness :
  let st1 := (UserService.follow users0 bob "alice" followId1).1 in
  let st2 := (UserService.unfollow st1 bob "alice").1 in
  (UserService.unfollow st1 bob "alice").2 = UserService.Unfollowed ∧
  UserService.users st2 = UserService.users users0 ∧
  UserService.follows st2 = UserService.follows users0 ∧
  UserService.published st2 = UserService.published users0 ++
    [{| routingKey := "user.followed";
        content := JsonObject (UserService.edgeData bob alice) |};
     {| routingKey := "user.unfollowed";
        content := JsonObject (UserService.edgeData bob alice) |}].
Proof.
  apply (UserFacts.follow_then_unfollow users0 bob "alice" followId1
           userAlice uBob).
  - reflexivity.
  - by_evaluation.
  - reflexivity.
  - by_evaluation.
  - intros x [->|[->|?%elem_of_nil]%elem_of_cons]%elem_of_cons; [| |done];
      by_evaluation.
  - by_evaluation.
  - by_evaluation.
Defined.

Lemma follow_reaches_feed_witness :
  ∃ target u msg,
    UserService.selectByUsername users0 "alice" = Some target ∧
    fromString bob = Some u ∧
    UserService.published (UserService.follow users0 bob "alice" followId1).1 =
      UserService.published users0 ++ [msg] ∧
    (handleEvent [] 1 init msg).2 = Ack ∧
    u ∈ select_followers (handleEvent [] 1 init msg).1 (UserService.id target) ∧
    UserService.id target ∈ select_following (handleEvent [] 1 init msg).1 u.
Proof.
  apply (UserFacts.follow_reaches_feed users0 bob "alice" followId1 [] 1 init).
  by_evaluation.
Defined.

(** ** The post service *)

Lemma like_counts_once_witness :
  let st1 := (PostService.likePost posts1 bob post1 likeId1).1 in
  (PostService.likePost posts1 bob post1 likeId1).2 = PostService.Done ∧
  PostService.liked st1 uPost1 uBob = true ∧
  (∀ r, r ∈ PostService.posts st1 → id (PostService.post r) = uPost1 →
        PostService.likes_count r = PostService.countLikes st1 uPost1) ∧
  ∀ likeId',
    let st2 := (PostService.likePost st1 bob post1 likeId').1 in
    (PostService.likePost st1 bob post1 likeId').2 = PostService.Done ∧
    PostService.posts st2 = PostService.posts st1 ∧
    PostService.likes st2 = PostService.likes st1 ∧
    PostService.published st2 =
      PostService.published st1 ++ [PostService.PostLiked post1 bob].
Proof.
  apply (PostFacts.like_counts_once posts1 bob post1 likeId1 uPost1 uBob
           rowP1).
  - reflexivity.
  - reflexivity.
  - by_evaluation.
  - by_evaluation.
  - by_evaluation.
Defined.

Lemma delete_only_by_owner_witness :
  (user_id (PostService.post rowP1) ≠ uAlice →
     PostService.deletePost posts1 alice post1 =
       (posts1, PostService.NotFound)) ∧
  (user_id (PostService.post rowP1) = uAlice →
     let st' := (PostService.deletePost posts1 alice post1).1 in
     (PostService.deletePost posts1 alice post1).2 = PostService.Done ∧
     PostService.selectPost st' uPost1 = None ∧
     (∀ r, r ∈ PostService.posts posts1 → id (PostService.post r) ≠ uPost1 →
           r ∈ PostService.posts st') ∧
     (∀ l, l ∈ PostService.likes st' ↔
           l ∈ PostService.likes posts1 ∧ PostService.like_post l ≠ uPost1) ∧
     (∀ c, c ∈ PostService.comments st' ↔
           c ∈ PostService.comments posts1 ∧
           PostService.comment_post c ≠ uPost1) ∧
     PostService.published st' =
       PostService.published posts1 ++ [PostService.PostDeleted post1 alice] ∧
     ∀ now user,
       (PostService.getPostById st' now post1 user).2 = PostService.NotFound).
Proof.
  apply (PostFacts.delete_only_by_owner posts1 alice post1 uPost1 uAlice
           rowP1).
  - reflexivity.
  - reflexivity.
  - by_evaluation.
  - by_evaluation.
Defined.

Lemma like_then_get_witness :
  let st1 := (PostService.likePost posts1 bob post1 likeId1).1 in
  ∃ p row,
    fromString post1 = Some p ∧
    PostService.selectPost st1 p = Some row ∧
    PostService.likes_count row = PostService.countLikes st1 p ∧
    (0 < PostService.likes_count row)%Z ∧
    (PostService.getPostById st1 7 post1 (Some bob)).2 =
      PostService.Found row (Some true).
Proof.
  apply (PostFacts.like_then_get posts1 bob post1 likeId1 7).
  by_evaluation.
Defined.

Lemma get_on_miss_reads_table_witness :
  match getPost (PostService.table posts1) post1 with
  | Some found =>
      ∃ row,
        (PostService.getPostById posts1 5 post1 None).2 =
          PostService.Found row None ∧
        PostService.post row = found ∧ row ∈ PostService.posts posts1
  | None =>
      (PostService.getPostById posts1 5 post1 None).2 = PostService.NotFound ∨
      (PostService.getPostById posts1 5 post1 None).2 =
        PostService.InternalServerError
  end.
Proof.
  apply (PostFacts.get_on_miss_reads_table posts1 5 post1).
  by_evaluation.
Defined.

(** Alice creates P1 while Bob follows her. *)
Lemma created_post_reaches_feed_witness :
  let st' :=
    (PostService.createPost posts0 alice "first" (Some ["a.jpg"]) uPost1
       100).1 in
  ∃ event,
    last (PostService.published st') = Some event ∧
    id (PostService.post rowP1) = uPost1 ∧
    post_created_at (PostService.post rowP1) = 100%Z ∧
    fromString alice = Some (user_id (PostService.post rowP1)) ∧
    (handleEvent [] 2 st_followed (PostService.toMsg event)).2 = Ack ∧
    (∀ f, is_Some (user_followers st_followed
                     !! (user_id (PostService.post rowP1), f)) ∨
          f = user_id (PostService.post rowP1) →
          {| created_at := 100; post_id := uPost1;
             author_id := user_id (PostService.post rowP1) |}
            ∈ partition
                (handleEvent [] 2 st_followed (PostService.toMsg event)).1 f) ∧
    getPost (PostService.table st') (toString uPost1) =
      Some (PostService.post rowP1).
Proof.
  apply (PostFacts.created_post_reaches_feed posts0 alice "first"
           (Some ["a.jpg"]) uPost1 100 rowP1 [] 2 st_followed).
  by_evaluation.
Defined.

Lemma posts0_counts_exact : PostService.counts_exact posts0.
Proof.
  unfold PostService.counts_exact. simpl.
  split; [apply NoDup_nil_2|]. split; [apply NoDup_nil_2|].
  split; [by intros ? ?%elem_of_nil|]. split; by intros ? ?%elem_of_nil.
Qed.

Lemma serve_keeps_counts_exact_witness :
  PostService.counts_exact (PostService.serve trimStart posts0 requests).1.
Proof.
  apply (PostFacts.serve_keeps_counts_exact trimStart posts0 requests).
  - exact posts0_counts_exact.
  - by_evaluation.
Defined.

(** Alice's posts, one per page. *)
Lemma cursor_pages_do_not_overlap_witness :
  (∀ q, q ∈ [P2] → (200 ≤ post_created_at q)%Z) ∧
  (∀ q, q ∈ [P1] →
        (post_created_at q < 200)%Z ∧ q ∈ PostService.table posts2 ∧
        fromString alice = Some (user_id q)) ∧
  (∀ q, q ∈ [P2] → q ∉ [P1]) ∧
  (∀ q, post_created_at q = 200%Z → q ∉ [P1]).
Proof.
  apply (PostFacts.cursor_pages_do_not_overlap posts2 alice None 1 1
           [P2] 200 [P1] (Some 100%Z)).
  - by_evaluation.
  - by_evaluation.
Defined.

(** ** The Redis version *)

Example legacy_feed_of_bob :
  (Legacy.zRange legacy1 (Legacy.feedKey bob)).*2 =
  [stringifyItem post1 alice 100; stringifyItem post2 alice 200].
Proof. by_evaluation. Qed.

Example legacy_retraction :
  let st := LegacyMore.handlePostDeleted parseItem legacy1
              (published post1 alice 0) in
  (Legacy.zRange st (Legacy.feedKey bob)).*2 = [stringifyItem post2 alice 200].
Proof. by_evaluation. Qed.

Lemma legacy0_bounded : LegacyMore.bounded legacy0.
Proof.
  intros k. unfold Legacy.zRange. simpl. rewrite lookup_empty. simpl. lia.
Qed.

Lemma legacy_feeds_stay_bounded_witness :
  LegacyMore.bounded
    (LegacyMore.process stringifyItem parseItem legacy0 legacyEvents).
Proof.
  apply (LegacyMoreFacts.legacy_feeds_stay_bounded stringifyItem parseItem
           legacy0 legacyEvents).
  exact legacy0_bounded.
Defined.

(** Bob reads his whole feed after P1 has been deleted from the posts
  table: one post, and [hasMore] although there is no more. *)
Lemma legacy_hasMore_after_hydration_witness :
  let window :=
    LegacyMore.zRangeRev legacy1 (Legacy.feedKey bob) (Z.of_nat 0)
      (Z.of_nat 0 + Z.of_nat 10 - 1) in
  ∃ posts,
    LegacyMore.getFeed parseItem [P2] legacy1 bob 0 10 =
      Page posts true (Some (0 + length posts)) ∧
    length posts < length window.
Proof.
  apply (LegacyMoreFacts.legacy_hasMore_after_hydration parseItem [P2]
           legacy1 bob 0 10 (stringifyItem post1 alice 100)).
  - by_evaluation.
  - intros p Hp.
    assert (LegacyMore.postIdOf parseItem (stringifyItem post1 alice 100) =
            Some post1) as Hid by by_evaluation.
    rewrite Hid in Hp. injection Hp as <-. by_evaluation.
Defined.

End MoreInstances.
